(** * pg_stat_monitor: the statement fingerprint and the bucketed statistics store

    A shallow embedding of [pg_stat_monitor.c].  C integers are [Z] with the
    wrap-around of their width written out, byte buffers are lists of
    [Byte.byte], the dynahash tables are finite maps, and a C function that
    can touch memory outside an object or loop for ever returns a [result]. *)

From Stdlib Require Import ZArith QArith Floats Lia List.
From stdpp Require Import gmap list strings.

Local Open Scope Z_scope.

(** ** Machine integers *)

(** [uint64] arithmetic is modulo 2^64; an [int] holds the low 32 bits and an
    [int64] the low 64 bits, signed. *)
Definition uint64 (z : Z) : Z := z mod 2 ^ 64.
Definition int32 (z : Z) : Z := (z + 2 ^ 31) mod 2 ^ 32 - 2 ^ 31.
Definition int64 (z : Z) : Z := (z + 2 ^ 63) mod 2 ^ 64 - 2 ^ 63.

(** ** Results of C code *)

(** [SegFault] stands for an access outside the addressed object (undefined
    behaviour in C), [OutOfFuel] for a loop that has not ended within the
    given number of iterations. *)
Inductive result (A : Type) : Type :=
| Ok (a : A)
| SegFault
| OutOfFuel.
Arguments Ok {A} a.
Arguments SegFault {A}.
Arguments OutOfFuel {A}.

Global Instance result_ret : MRet result := fun A a => Ok a.
Global Instance result_bind : MBind result := fun A B k m =>
  match m with
  | Ok a => k a
  | SegFault => SegFault
  | OutOfFuel => OutOfFuel
  end.

Definition of_option {A} (o : option A) : result A :=
  match o with Some a => Ok a | None => SegFault end.

(** ** Bytes and memory *)

Definition byte_of_Z (z : Z) : Byte.byte :=
  match Byte.of_N (Z.to_N (z mod 256)) with
  | Some b => b
  | None => Byte.x00
  end.

Definition Z_of_byte (b : Byte.byte) : Z := Z.of_N (Byte.to_N b).

(** [memcpy] of an [n]-byte integer to and from a buffer, in the byte order
    of the host (little-endian). *)
Fixpoint encode_le (n : nat) (v : Z) : list Byte.byte :=
  match n with
  | O => []
  | S k => byte_of_Z v :: encode_le k (v / 256)
  end.

Fixpoint decode_le (bs : list Byte.byte) : Z :=
  match bs with
  | [] => 0
  | b :: r => Z_of_byte b + 256 * decode_le r
  end.

(** [memcpy(dst, &buf[off], len)]: the bytes read, [None] outside [buf]. *)
Definition mem_read (buf : list Byte.byte) (off len : Z) : option (list Byte.byte) :=
  if (0 <=? off) && (0 <=? len) && (off + len <=? Z.of_nat (length buf))
  then Some (take (Z.to_nat len) (drop (Z.to_nat off) buf))
  else None.

(** [memcpy(&buf[off], src, |src|)]: the buffer written, [None] outside [buf]. *)
Definition mem_write (buf : list Byte.byte) (off : Z) (src : list Byte.byte)
  : option (list Byte.byte) :=
  if (0 <=? off) && (off + Z.of_nat (length src) <=? Z.of_nat (length buf))
  then Some (take (Z.to_nat off) buf ++ src
             ++ drop (Z.to_nat off + length src)%nat buf)
  else None.

(** ** Numbers of type [double]

    The timing statistics are C [double]s.  The store is written once over
    this interface and read at two instances: [float], IEEE 754 binary64 as
    the machine computes it, and [Q], the same formulas in exact rational
    arithmetic.  [d_float] is what a [double] becomes when it is passed for
    a parameter of type [float]. *)
Class Double (D : Type) : Type := {
  d_of_Z : Z -> D;
  d_add : D -> D -> D;
  d_sub : D -> D -> D;
  d_mul : D -> D -> D;
  d_div : D -> D -> D;
  d_ltb : D -> D -> bool;
  d_float : D -> D
}.

(** The conversion of a [double] to [float], binary32: the nearest value
    with 24 bits of precision, ties to even, infinite beyond the range of a
    [float]. *)
Definition float_of_double (x : float) : float :=
  match Prim2SF x with
  | S754_finite s m e => SF2Prim (binary_round 24 128 s m e)
  | _ => x
  end.

Global Instance float_Double : Double float := {
  d_of_Z z := if z <? 0 then PrimFloat.opp (PrimFloat.of_uint63 (Uint63.of_Z (- z)))
              else PrimFloat.of_uint63 (Uint63.of_Z z);
  d_add := PrimFloat.add;
  d_sub := PrimFloat.sub;
  d_mul := PrimFloat.mul;
  d_div := PrimFloat.div;
  d_ltb := PrimFloat.ltb;
  d_float := float_of_double
}.

(** In exact arithmetic no conversion rounds. *)
Global Instance Q_Double : Double Q := {
  d_of_Z := inject_Z;
  d_add := Qplus;
  d_sub := Qminus;
  d_mul := Qmult;
  d_div := Qdiv;
  d_ltb x y := match Qcompare x y with Lt => true | _ => false end;
  d_float x := x
}.

(** ** Configuration

    The [PGSM_*] settings, the sizes and the usage constants come from
    [pg_stat_monitor.h] and the GUC table; the code reads them as integers. *)
Record pgsm_conf (D : Type) : Type := {
  PGSM_MAX : Z;
  PGSM_MAX_BUCKETS : Z;
  PGSM_BUCKET_TIME : Z;
  PGSM_QUERY_MAX_LEN : Z;
  PGSM_NORMALIZED_QUERY : bool;
  PGSM_RESPOSE_TIME_LOWER_BOUND : Z;
  PGSM_RESPOSE_TIME_STEP : Z;
  MAX_RESPONSE_BUCKET : Z;
  MAX_REL_LEN : Z;
  query_buf_size_bucket : Z;
  USAGE_INIT : D;
  USAGE_EXEC : D -> D;
  hash_any_extended : list Byte.byte -> Z
}.
Arguments PGSM_MAX {D} _.
Arguments PGSM_MAX_BUCKETS {D} _.
Arguments PGSM_BUCKET_TIME {D} _.
Arguments PGSM_QUERY_MAX_LEN {D} _.
Arguments PGSM_NORMALIZED_QUERY {D} _.
Arguments PGSM_RESPOSE_TIME_LOWER_BOUND {D} _.
Arguments PGSM_RESPOSE_TIME_STEP {D} _.
Arguments MAX_RESPONSE_BUCKET {D} _.
Arguments MAX_REL_LEN {D} _.
Arguments query_buf_size_bucket {D} _.
Arguments USAGE_INIT {D} _.
Arguments USAGE_EXEC {D} _ _.
Arguments hash_any_extended {D} _ _.

(** ** Keys and entries of the shared tables *)

Record pgssHashKey : Type := mkHashKey {
  key_userid : Z;
  key_dbid : Z;
  key_queryid : Z;
  key_bucket_id : Z
}.

Global Instance pgssHashKey_eq_dec : EqDecision pgssHashKey.
Proof. solve_decision. Defined.

Global Instance pgssHashKey_countable : Countable pgssHashKey.
Proof.
  refine (inj_countable'
            (fun k => (key_userid k, key_dbid k, key_queryid k, key_bucket_id k))
            (fun t => match t with (u, d, q, b) => mkHashKey u d q b end) _).
  by intros [].
Defined.

(** The dimension of a rollup entry: [AGG_KEY_DATABASE], [AGG_KEY_USER],
    [AGG_KEY_HOST], stored as an [int64]. *)
Definition AGG_KEY_DATABASE : Z := 0.
Definition AGG_KEY_USER : Z := 1.
Definition AGG_KEY_HOST : Z := 2.

Record pgssAggHashKey : Type := mkAggKey {
  agg_id : Z;
  agg_type : Z;
  agg_queryid : Z;
  agg_bucket_id : Z
}.

Global Instance pgssAggHashKey_eq_dec : EqDecision pgssAggHashKey.
Proof. solve_decision. Defined.

Global Instance pgssAggHashKey_countable : Countable pgssAggHashKey.
Proof.
  refine (inj_countable'
            (fun k => (agg_id k, agg_type k, agg_queryid k, agg_bucket_id k))
            (fun t => match t with (i, ty, q, b) => mkAggKey i ty q b end) _).
  by intros [].
Defined.

(** An entry of a table is stored under its key, the first member of the C
    struct; the records below are what follows the key. *)
Record pgssAggEntry : Type := mkAggEntry {
  total_calls : Z
}.

Section Entries.
Context {D : Type}.

Record Calls : Type := mkCalls {
  calls : Z;
  rows : Z;
  usage : D
}.

Record CallTime : Type := mkCallTime {
  total_time : D;
  min_time : D;
  max_time : D;
  mean_time : D;
  sum_var_time : D
}.

Record Blocks : Type := mkBlocks {
  shared_blks_hit : Z;
  shared_blks_read : Z;
  shared_blks_dirtied : Z;
  shared_blks_written : Z;
  local_blks_hit : Z;
  local_blks_read : Z;
  local_blks_dirtied : Z;
  local_blks_written : Z;
  temp_blks_read : Z;
  temp_blks_written : Z;
  blk_read_time : D;
  blk_write_time : D
}.

(** [Counters]: [calls] and [time] are arrays indexed by the kind of the
    measurement, [false] for planning and [true] for execution. *)
Record Counters : Type := mkCounters {
  c_calls : Calls * Calls;
  c_time : CallTime * CallTime;
  c_blocks : Blocks;
  c_host : Z;
  c_tables_name : list Byte.byte;
  c_utime : D;
  c_stime : D
}.

Record pgssEntry : Type := mkEntry {
  counters : Counters;
  encoding : Z
}.

(** A bucket of the bucket table: the response-time histogram and the time
    of the last rotation into the bucket. *)
Record pgssBucketEntry : Type := mkBucketEntry {
  resp_calls : list Z;
  current_time : Z
}.

Record pgssWaitEventEntry : Type := mkWaitEventEntry {
  we_queryid : Z;
  we_pid : Z;
  wait_event_info : Z
}.

Record QueryFifo : Type := mkFifo {
  FIFO_HEAD : Z;
  FIFO_TAIL : Z
}.

Inductive elevel : Type := INFO | ERROR.

(** The shared state: the fields of [pgssSharedState], the text rings
    [pgss_qbuf], the five hash tables, and the lines written with [elog]. *)
Record state : Type := mkState {
  cur_median_usage : D;
  current_wbucket : Z;
  prev_bucket_usec : Z;
  bucket_overflow : list Z;
  bucket_entry : list Z;
  query_fifo : list QueryFifo;
  pgss_qbuf : list (list Byte.byte);
  pgss_hash : gmap pgssHashKey pgssEntry;
  pgss_object_hash : gmap Z (list Byte.byte);
  pgss_agghash : gmap pgssAggHashKey pgssAggEntry;
  pgss_buckethash : gmap Z pgssBucketEntry;
  pgss_waiteventshash : gmap Z pgssWaitEventEntry;
  elog : list (elevel * string)
}.

Definition set_current_wbucket (v : Z) (s : state) : state :=
  mkState (cur_median_usage s) v (prev_bucket_usec s) (bucket_overflow s)
    (bucket_entry s) (query_fifo s) (pgss_qbuf s) (pgss_hash s)
    (pgss_object_hash s) (pgss_agghash s) (pgss_buckethash s)
    (pgss_waiteventshash s) (elog s).
Definition set_prev_bucket_usec (v : Z) (s : state) : state :=
  mkState (cur_median_usage s) (current_wbucket s) v (bucket_overflow s)
    (bucket_entry s) (query_fifo s) (pgss_qbuf s) (pgss_hash s)
    (pgss_object_hash s) (pgss_agghash s) (pgss_buckethash s)
    (pgss_waiteventshash s) (elog s).
Definition set_bucket_overflow (v : list Z) (s : state) : state :=
  mkState (cur_median_usage s) (current_wbucket s) (prev_bucket_usec s) v
    (bucket_entry s) (query_fifo s) (pgss_qbuf s) (pgss_hash s)
    (pgss_object_hash s) (pgss_agghash s) (pgss_buckethash s)
    (pgss_waiteventshash s) (elog s).
Definition set_bucket_entry (v : list Z) (s : state) : state :=
  mkState (cur_median_usage s) (current_wbucket s) (prev_bucket_usec s)
    (bucket_overflow s) v (query_fifo s) (pgss_qbuf s) (pgss_hash s)
    (pgss_object_hash s) (pgss_agghash s) (pgss_buckethash s)
    (pgss_waiteventshash s) (elog s).
Definition set_query_fifo (v : list QueryFifo) (s : state) : state :=
  mkState (cur_median_usage s) (current_wbucket s) (prev_bucket_usec s)
    (bucket_overflow s) (bucket_entry s) v (pgss_qbuf s) (pgss_hash s)
    (pgss_object_hash s) (pgss_agghash s) (pgss_buckethash s)
    (pgss_waiteventshash s) (elog s).
Definition set_pgss_qbuf (v : list (list Byte.byte)) (s : state) : state :=
  mkState (cur_median_usage s) (current_wbucket s) (prev_bucket_usec s)
    (bucket_overflow s) (bucket_entry s) (query_fifo s) v (pgss_hash s)
    (pgss_object_hash s) (pgss_agghash s) (pgss_buckethash s)
    (pgss_waiteventshash s) (elog s).
Definition set_pgss_hash (v : gmap pgssHashKey pgssEntry) (s : state) : state :=
  mkState (cur_median_usage s) (current_wbucket s) (prev_bucket_usec s)
    (bucket_overflow s) (bucket_entry s) (query_fifo s) (pgss_qbuf s) v
    (pgss_object_hash s) (pgss_agghash s) (pgss_buckethash s)
    (pgss_waiteventshash s) (elog s).
Definition set_pgss_object_hash (v : gmap Z (list Byte.byte)) (s : state) : state :=
  mkState (cur_median_usage s) (current_wbucket s) (prev_bucket_usec s)
    (bucket_overflow s) (bucket_entry s) (query_fifo s) (pgss_qbuf s)
    (pgss_hash s) v (pgss_agghash s) (pgss_buckethash s)
    (pgss_waiteventshash s) (elog s).
Definition set_pgss_agghash (v : gmap pgssAggHashKey pgssAggEntry) (s : state) : state :=
  mkState (cur_median_usage s) (current_wbucket s) (prev_bucket_usec s)
    (bucket_overflow s) (bucket_entry s) (query_fifo s) (pgss_qbuf s)
    (pgss_hash s) (pgss_object_hash s) v (pgss_buckethash s)
    (pgss_waiteventshash s) (elog s).
Definition set_pgss_buckethash (v : gmap Z pgssBucketEntry) (s : state) : state :=
  mkState (cur_median_usage s) (current_wbucket s) (prev_bucket_usec s)
    (bucket_overflow s) (bucket_entry s) (query_fifo s) (pgss_qbuf s)
    (pgss_hash s) (pgss_object_hash s) (pgss_agghash s) v
    (pgss_waiteventshash s) (elog s).
Definition set_pgss_waiteventshash (v : gmap Z pgssWaitEventEntry) (s : state) : state :=
  mkState (cur_median_usage s) (current_wbucket s) (prev_bucket_usec s)
    (bucket_overflow s) (bucket_entry s) (query_fifo s) (pgss_qbuf s)
    (pgss_hash s) (pgss_object_hash s) (pgss_agghash s) (pgss_buckethash s)
    v (elog s).
Definition add_elog (lvl : elevel) (msg : string) (s : state) : state :=
  mkState (cur_median_usage s) (current_wbucket s) (prev_bucket_usec s)
    (bucket_overflow s) (bucket_entry s) (query_fifo s) (pgss_qbuf s)
    (pgss_hash s) (pgss_object_hash s) (pgss_agghash s) (pgss_buckethash s)
    (pgss_waiteventshash s) (elog s ++ [(lvl, msg)]).

(** [a[i]] and [a[i] = v] on a C array; an index outside the array is an
    access outside the object. *)
Definition array_get {A} (a : list A) (i : Z) : result A :=
  if 0 <=? i then of_option (a !! Z.to_nat i) else SegFault.

Definition array_set {A} (a : list A) (i : Z) (v : A) : result (list A) :=
  if (0 <=? i) && (i <? Z.of_nat (length a))
  then Ok (<[Z.to_nat i := v]> a)
  else SegFault.

End Entries.
Arguments Calls : clear implicits.
Arguments CallTime : clear implicits.
Arguments Blocks : clear implicits.
Arguments Counters : clear implicits.
Arguments pgssEntry : clear implicits.
Arguments state : clear implicits.

(** ** The per-bucket text ring: [locate_query] and [store_query] *)

Section TextRing.
Context {D : Type} (conf : pgsm_conf D).

(** The [while] loop of [locate_query].  [hd] is [FIFO_HEAD(bucket_id)],
    [tail] the local cursor, and [query] what the caller's text buffer holds
    ([None]: not written yet); with [copy = false] the caller passed [NULL]
    and no text is copied. *)
Fixpoint locate_query_loop (fuel : nat) (buf : list Byte.byte) (hd queryid : Z)
    (copy : bool) (tail : Z) (query : option (list Byte.byte))
  : result (Z * option (list Byte.byte)) :=
  match fuel with
  | O => OutOfFuel
  | S fuel' =>
      if uint64 hd =? tail then Ok (0, query)
      else
        bid ← of_option (mem_read buf tail 8);
        let id := decode_le bid in
        blen ← of_option (mem_read buf (uint64 (tail + 8)) 8);
        let len := decode_le blen in
        if len =? 0 then Ok (0, query)
        else
          query' ← (if copy
                    then text ← of_option (mem_read buf (uint64 (tail + 16)) len);
                         Ok (Some text)
                    else Ok query);
          let offset := uint64 (16 + len) in
          if id =? queryid then Ok (id, query')
          else locate_query_loop fuel' buf hd queryid copy
                 (uint64 (tail + offset) mod uint64 (query_buf_size_bucket conf))
                 query'
  end.

Definition locate_query (fuel : nat) (st : state D) (bucket_id queryid : Z)
    (copy : bool) : result (Z * option (list Byte.byte)) :=
  fifo ← array_get (query_fifo st) bucket_id;
  buf ← array_get (pgss_qbuf st) bucket_id;
  locate_query_loop fuel buf (FIFO_HEAD fifo) queryid copy
    (uint64 (FIFO_TAIL fifo)) None.

Definition store_query (fuel : nat) (st : state D) (queryid : Z)
    (query : list Byte.byte) (query_len : Z) : result (state D) :=
  let query_len :=
    if uint64 (PGSM_QUERY_MAX_LEN conf) <? query_len
    then uint64 (PGSM_QUERY_MAX_LEN conf) else query_len in
  (* Already have query in the shared buffer *)
  found ← locate_query fuel st (current_wbucket st) queryid false;
  if found.1 =? queryid then Ok st
  else
    fifo ← array_get (query_fifo st) (current_wbucket st);
    buf ← array_get (pgss_qbuf st) (current_wbucket st);
    let next := int32 (uint64 (FIFO_HEAD fifo + query_len + 8 + 8)) in
    let next := if query_buf_size_bucket conf <=? next then 0 else next in
    (* Buffer is full *)
    if next =? FIFO_HEAD fifo
    then Ok (add_elog INFO "pg_stat_monitor: no space left in shared_buffer"%string st)
    else
      buf1 ← of_option (mem_write buf (FIFO_HEAD fifo) (encode_le 8 queryid));
      buf2 ← of_option (mem_write buf1 (FIFO_HEAD fifo + 8) (encode_le 8 query_len));
      text ← of_option (mem_read query 0 query_len);
      buf3 ← of_option (mem_write buf2 (FIFO_HEAD fifo + 16) text);
      qbuf ← array_set (pgss_qbuf st) (current_wbucket st) buf3;
      fifos ← array_set (query_fifo st) (current_wbucket st)
                (mkFifo next (FIFO_TAIL fifo));
      Ok (set_query_fifo fifos (set_pgss_qbuf qbuf st)).

End TextRing.

(** ** What a text ring holds *)

Section TextRingRecords.
Context {D : Type} (conf : pgsm_conf D).

(** The records a ring holds: from cursor [p] the buffer decodes as the
    records [recs], each a fingerprint, a non-zero length and that many bytes
    of text, and the last one ends at [hd]. *)
Inductive ring_holds (buf : list Byte.byte) (hd : Z)
  : Z -> list (Z * list Byte.byte) -> Prop :=
| ring_holds_nil : ring_holds buf hd hd []
| ring_holds_cons p id text recs :
    0 <= p < hd ->
    0 <= id < 2 ^ 64 ->
    text <> [] ->
    mem_read buf p 8 = Some (encode_le 8 id) ->
    mem_read buf (p + 8) 8 = Some (encode_le 8 (Z.of_nat (length text))) ->
    mem_read buf (p + 16) (Z.of_nat (length text)) = Some text ->
    ring_holds buf hd (p + 16 + Z.of_nat (length text)) recs ->
    ring_holds buf hd p ((id, text) :: recs).

(** What the scan of [locate_query] computes on such records. *)
Fixpoint scan (queryid : Z) (copy : bool) (recs : list (Z * list Byte.byte))
    (query : option (list Byte.byte)) : Z * option (list Byte.byte) :=
  match recs with
  | [] => (0, query)
  | (id, text) :: recs' =>
      let query' := if copy then Some text else query in
      if id =? queryid then (id, query') else scan queryid copy recs' query'
  end.


(** The ring of bucket [b] is in range, has its head at [hd] and holds [recs]. *)
Definition ring_wf (st : state D) (b hd : Z) (recs : list (Z * list Byte.byte))
  : Prop :=
  exists tl buf,
    0 <= b /\
    query_fifo st !! Z.to_nat b = Some (mkFifo hd tl) /\
    pgss_qbuf st !! Z.to_nat b = Some buf /\
    Z.of_nat (length buf) = query_buf_size_bucket conf /\
    0 <= tl /\ 0 <= hd < query_buf_size_bucket conf /\
    ring_holds buf hd tl recs.


(** The ring sizes are positive C [int]s. *)
Definition ring_conf_ok : Prop :=
  0 < query_buf_size_bucket conf < 2 ^ 31 /\
  0 <= PGSM_QUERY_MAX_LEN conf < 2 ^ 31.

End TextRingRecords.

(** ** The statistics store *)

(** What the host answers during one call: [gettimeofday] (seconds),
    [GetCurrentTimestamp], [GetUserId], [MyDatabaseId], the result of
    [pg_get_client_addr] and [GetDatabaseEncoding]. *)
Record host : Type := mkHost {
  tv_sec : Z;
  GetCurrentTimestamp : Z;
  GetUserId : Z;
  MyDatabaseId : Z;
  pg_get_client_addr : Z;
  GetDatabaseEncoding : Z
}.

(** A loop whose body can fail. *)
Fixpoint fold_result {A B} (f : B -> A -> result B) (l : list A) (b : B) : result B :=
  match l with
  | [] => Ok b
  | a :: l' => b' ← f b a; fold_result f l' b'
  end.

Section Store.
Context {D : Type} {DD : Double D} (conf : pgsm_conf D).

Definition kget {A} (kind : bool) (a : A * A) : A := if kind then a.2 else a.1.
Definition kset {A} (kind : bool) (v : A) (a : A * A) : A * A :=
  if kind then (a.1, v) else (v, a.2).

(** [memset(&entry->counters, 0, sizeof(Counters))] *)
Definition zero_calls : Calls D := mkCalls 0 0 (d_of_Z 0).
Definition zero_time : CallTime D :=
  mkCallTime (d_of_Z 0) (d_of_Z 0) (d_of_Z 0) (d_of_Z 0) (d_of_Z 0).
Definition zero_blocks : Blocks D :=
  mkBlocks 0 0 0 0 0 0 0 0 0 0 (d_of_Z 0) (d_of_Z 0).
Definition zero_counters : Counters D :=
  mkCounters (zero_calls, zero_calls) (zero_time, zero_time) zero_blocks 0 []
    (d_of_Z 0) (d_of_Z 0).

(** [entry_alloc]: the address of the entry, named by its key, or [None] for
    [NULL].  [HASH_ENTER] is taken to find room in shared memory. *)
Definition entry_alloc (st : state D) (key : pgssHashKey) (encoding : Z)
    (sticky : bool) : result (option pgssHashKey * state D) :=
  n ← array_get (bucket_entry st) (current_wbucket st);
  if uint64 (PGSM_MAX conf ÷ PGSM_MAX_BUCKETS conf) <=? n then
    ov ← array_get (bucket_overflow st) (current_wbucket st);
    ovs ← array_set (bucket_overflow st) (current_wbucket st) (uint64 (ov + 1));
    Ok (None, set_bucket_overflow ovs st)
  else if PGSM_MAX conf <=? Z.of_nat (size (pgss_hash st)) then Ok (None, st)
  else
    match pgss_hash st !! key with
    | Some _ => Ok (Some key, st)
    | None =>
        ns ← array_set (bucket_entry st) (current_wbucket st) (uint64 (n + 1));
        (* New entry, initialize it *)
        let usage0 := if sticky then cur_median_usage st else USAGE_INIT conf in
        let c := mkCounters (mkCalls 0 0 usage0, zero_calls) (zero_time, zero_time)
                   zero_blocks 0 [] (d_of_Z 0) (d_of_Z 0) in
        Ok (Some key,
            set_pgss_hash (<[key := mkEntry c encoding]> (pgss_hash st))
              (set_bucket_entry ns st))
    end.

(** [entry_dealloc(bucket)]: the victims are collected in a first pass over
    each table and removed in a second, each under its own key. *)
Definition entry_dealloc (bucket : Z) (st : state D) : result (state D) :=
  ns ← array_set (bucket_entry st) bucket 0;
  let entries :=
    List.filter (fun e => (key_bucket_id e.1 =? uint64 bucket) || (bucket <? 0))
      (map_to_list (pgss_hash st)) in
  let h := foldl (fun h e => delete e.1 h) (pgss_hash st) entries in
  let agg_entries :=
    List.filter (fun e => (agg_bucket_id e.1 =? uint64 bucket) || (bucket <? 0))
      (map_to_list (pgss_agghash st)) in
  let a := foldl (fun a e => delete e.1 a) (pgss_agghash st) agg_entries in
  Ok (set_pgss_agghash a (set_pgss_hash h (set_bucket_entry ns st))).

(** [pg_stat_monitor_reset] passes -1 for "all buckets"; the first statement
    of [entry_dealloc] then addresses [bucket_entry[-1]], outside the array. *)
Definition pg_stat_monitor_reset (st : state D) : result (state D) :=
  entry_dealloc (-1) st.

(** [entry_reset].  [dbentry] is the loop variable of the second loop: that
    loop ends when [hash_seq_search] has returned [NULL] into it, and the
    third and the fourth loop pass [&dbentry->key] to [hash_search], which
    reads the key it is given from its first member on. *)
Definition entry_reset (st : state D) : result (state D) :=
  let h := foldl (fun h entry => delete entry.1 h) (pgss_hash st)
             (map_to_list (pgss_hash st)) in
  let a := foldl (fun a dbentry => delete dbentry.1 a) (pgss_agghash st)
             (map_to_list (pgss_agghash st)) in
  let dbentry : option pgssAggHashKey := None in
  b ← fold_result (fun b objentry => k ← of_option dbentry; Ok (delete (agg_id k) b))
        (map_to_list (pgss_buckethash st)) (pgss_buckethash st);
  w ← fold_result (fun w weentry => k ← of_option dbentry; Ok (delete (agg_id k) w))
        (map_to_list (pgss_waiteventshash st)) (pgss_waiteventshash st);
  Ok (set_current_wbucket 0
        (set_pgss_waiteventshash w
           (set_pgss_buckethash b (set_pgss_agghash a (set_pgss_hash h st))))).

(** [get_next_wbucket]: the bucket to write to, after a rotation if one is due. *)
Definition get_next_wbucket (hst : host) (st : state D) : result (Z * state D) :=
  let current_usec := uint64 (tv_sec hst) in
  if uint64 (PGSM_BUCKET_TIME conf) <? uint64 (current_usec - prev_bucket_usec st)
  then
    let bucket_id := uint64 (current_wbucket st + 1) in
    let bucket_id := if bucket_id =? uint64 (PGSM_MAX_BUCKETS conf) then 0 else bucket_id in
    st ← entry_dealloc (int32 bucket_id) st;
    (* reset the query buffer *)
    fifos ← array_set (query_fifo st) bucket_id (mkFifo 0 0);
    let st := set_prev_bucket_usec current_usec (set_query_fifo fifos st) in
    be ← of_option (pgss_buckethash st !! bucket_id);
    let be := mkBucketEntry (resp_calls be) (GetCurrentTimestamp hst) in
    Ok (bucket_id, set_pgss_buckethash (<[bucket_id := be]> (pgss_buckethash st)) st)
  else Ok (current_wbucket st, st).

Definition agg_entry_alloc (key : pgssAggHashKey) (st : state D) : state D :=
  match pgss_agghash st !! key with
  | Some _ => st
  | None => set_pgss_agghash (<[key := mkAggEntry 0]> (pgss_agghash st)) st
  end.

Definition update_agg_counters (bucket queryid id type : Z) (st : state D) : state D :=
  let key := mkAggKey (uint64 id) type queryid bucket in
  let st := agg_entry_alloc key st in
  set_pgss_agghash
    (alter (fun e => mkAggEntry (int64 (total_calls e + 1))) key (pgss_agghash st)) st.

(** The [for] loop over the cells of the response-time histogram, from cell
    [i] with [n] cells to go: the cell that is incremented, if any. *)
Fixpoint resp_loop (n : nat) (i : Z) (total_time : D) : option Z :=
  match n with
  | O => None
  | S n' =>
      if d_ltb total_time
           (d_of_Z (int32 (PGSM_RESPOSE_TIME_LOWER_BOUND conf
                           + int32 (PGSM_RESPOSE_TIME_STEP conf * i))))
      then Some i
      else resp_loop n' (i + 1) total_time
  end.

(** The cells of [resp_calls] that the two statements classifying a duration
    increment, in the order of the increments: the cell the loop stops at,
    then the last cell if the duration is above the top edge. *)
Definition resp_cells (total_time : D) : list Z :=
  match resp_loop (Z.to_nat (MAX_RESPONSE_BUCKET conf - 1)) 0 total_time with
  | Some i => [i]
  | None => []
  end
  ++
  (if d_ltb (d_of_Z (int32 (PGSM_RESPOSE_TIME_LOWER_BOUND conf
                            + int32 (PGSM_RESPOSE_TIME_STEP conf
                                     * MAX_RESPONSE_BUCKET conf))))
        total_time
   then [MAX_RESPONSE_BUCKET conf - 1]
   else []).

(** [pgssBucketEntries[bucket_id]->counters.resp_calls[i]++] *)
Definition resp_incr (bucket_id : Z) (st : state D) (i : Z) : result (state D) :=
  be ← of_option (pgss_buckethash st !! bucket_id);
  c ← array_get (resp_calls be) i;
  cells ← array_set (resp_calls be) i (int32 (c + 1));
  Ok (set_pgss_buckethash
        (<[bucket_id := mkBucketEntry cells (current_time be)]> (pgss_buckethash st))
        st).

(** The update of [calls[kind]] and [time[kind]] under the entry's spinlock. *)
Definition update_calls (total_time : D) (c : Calls D) : Calls D :=
  (* "Unstick" entry if it was previously sticky *)
  let usage0 := if calls c =? 0 then USAGE_INIT conf else usage c in
  mkCalls (int64 (calls c + 1)) (rows c) usage0.

(** [ncalls] is [calls[kind].calls] after its increment. *)
Definition update_time (ncalls : Z) (total_time : D) (t : CallTime D) : CallTime D :=
  match t with
  | mkCallTime total min max old_mean sum_var =>
      let total := d_add total total_time in
      if ncalls =? 1 then mkCallTime total total_time total_time total_time sum_var
      else
        (* Welford's method for accurately computing variance *)
        let mean := d_add old_mean (d_div (d_sub total_time old_mean) (d_of_Z ncalls)) in
        let sum_var :=
          d_add sum_var (d_mul (d_sub total_time old_mean) (d_sub total_time mean)) in
        (* calculate min and max time *)
        let min := if d_ltb total_time min then total_time else min in
        let max := if d_ltb max total_time then total_time else max in
        mkCallTime total min max mean sum_var
  end.

Definition add_blocks (b u : Blocks D) : Blocks D :=
  mkBlocks
    (int64 (shared_blks_hit b + shared_blks_hit u))
    (int64 (shared_blks_read b + shared_blks_read u))
    (int64 (shared_blks_dirtied b + shared_blks_dirtied u))
    (int64 (shared_blks_written b + shared_blks_written u))
    (int64 (local_blks_hit b + local_blks_hit u))
    (int64 (local_blks_read b + local_blks_read u))
    (int64 (local_blks_dirtied b + local_blks_dirtied u))
    (int64 (local_blks_written b + local_blks_written u))
    (int64 (temp_blks_read b + temp_blks_read u))
    (int64 (temp_blks_written b + temp_blks_written u))
    (d_add (blk_read_time b) (blk_read_time u))
    (d_add (blk_write_time b) (blk_write_time u)).

(** All the assignments to [e->counters] between [SpinLockAcquire] and
    [SpinLockRelease], but for the histogram, which is not in the entry.
    [utime] and [stime] are the values the caller passes; the parameters are
    [float]s, so that the counters get them converted to [float]. *)
Definition update_counters (hst : host) (kind : bool) (total_time : D) (nrows : Z)
    (bufusage : Blocks D) (utime stime : D) (tables_name : list Byte.byte)
    (c : Counters D) : Counters D :=
  let cl := update_calls total_time (kget kind (c_calls c)) in
  let tm := update_time (calls cl) total_time (kget kind (c_time c)) in
  let cl := mkCalls (calls cl) (int64 (rows cl + nrows))
              (d_add (usage cl) (USAGE_EXEC conf total_time)) in
  mkCounters (kset kind cl (c_calls c)) (kset kind tm (c_time c))
    (add_blocks (c_blocks c) bufusage)
    (pg_get_client_addr hst)
    (take (Z.to_nat (MAX_REL_LEN conf - 1)) tables_name)
    (d_float utime) (d_float stime).

(** [pgss_store], from the point where the pointer [query] is at the first
    byte of the statement and [query_len] is the length of the statement,
    without the white space around it.  [query] is the C string from there
    on: the statement, what follows it in the source string, and the zero
    byte that ends the string; a read behind these bytes is a read outside
    the string.  [jstate] is [None] for [NULL]; otherwise it
    carries the text that [generate_normalized_query] makes of the
    statement, whose lexer is the host's.

    The first part runs up to the key of the entry: the fingerprint of a
    utility statement, the relation names kept for the fingerprint, the
    bucket to write to and the switch to it.  It yields the key, the [reset]
    flag and the local [tables_name]. *)
Definition pgss_store_key (hst : host) (st : state D) (query : list Byte.byte)
    (queryId query_len : Z) : result (pgssHashKey * bool * list Byte.byte * state D) :=
  (* For utility statements, we just hash the query string to get an ID *)
  let queryId :=
    if queryId =? 0
    then hash_any_extended conf (take (Z.to_nat query_len) query)
    else queryId in
  let '(tables_name, st) :=
    match pgss_object_hash st !! queryId with
    | Some name =>
        (take (Z.to_nat (MAX_REL_LEN conf - 1)) name,
         set_pgss_object_hash (delete queryId (pgss_object_hash st)) st)
    | None => ([], st)
    end in
  (* Set up key for hashtable search *)
  '(bucket_id, st) ← get_next_wbucket hst st;
  let key := mkHashKey (GetUserId hst) (MyDatabaseId hst) queryId bucket_id in
  let reset := negb (bucket_id =? current_wbucket st) in
  let st := if reset then set_current_wbucket bucket_id st else st in
  Ok (key, reset, tables_name, st).

(** The second part: the lookup of the entry, its creation, the text and
    the counters. *)
Definition pgss_store_entry (fuel : nat) (hst : host) (key : pgssHashKey)
    (reset : bool) (tables_name : list Byte.byte) (st : state D)
    (query : list Byte.byte) (query_len : Z) (kind : bool)
    (total_time : D) (nrows : Z) (bufusage : Blocks D)
    (jstate : option (list Byte.byte)) (utime stime : D) : result (state D) :=
  (* Lookup the hash table entry *)
  '(entry, norm_query, query_len, st) ←
    match pgss_hash st !! key with
    | Some _ => Ok (Some key, None, query_len, st)
    | None =>
        let '(norm_query, query_len) :=
          match jstate with
          | Some norm => (Some norm, Z.of_nat (length norm))
          | None => (None, query_len)
          end in
        (* OK to create a new hashtable entry *)
        '(entry, st) ← entry_alloc st key (GetDatabaseEncoding hst)
                         (bool_decide (is_Some jstate));
        Ok (entry, norm_query, query_len, st)
    end;
  match entry with
  | None => Ok st
  | Some entry =>
    st ← store_query conf fuel st (key_queryid key)
           (if PGSM_NORMALIZED_QUERY conf then default query norm_query else query)
           (uint64 query_len);
    match jstate with
    | Some _ => Ok st
    | None =>
      e ← of_option (pgss_hash st !! entry);
      (* Start collecting data for next bucket and reset all counters *)
      let c := if reset then zero_counters else counters e in
      (* Calculate the agregates for database/user and host *)
      let st := update_agg_counters (key_bucket_id entry) (key_queryid key)
                  (key_dbid key) AGG_KEY_DATABASE st in
      let st := update_agg_counters (key_bucket_id entry) (key_queryid key)
                  (key_userid key) AGG_KEY_USER st in
      let st := update_agg_counters (key_bucket_id entry) (key_queryid key)
                  (pg_get_client_addr hst) AGG_KEY_HOST st in
      st ← fold_result (resp_incr (key_bucket_id entry)) (resp_cells total_time) st;
      let c := update_counters hst kind total_time nrows bufusage utime stime
                 tables_name c in
      Ok (set_pgss_hash (<[entry := mkEntry c (encoding e)]> (pgss_hash st)) st)
    end
  end.

Definition pgss_store (fuel : nat) (hst : host) (st : state D)
    (query : list Byte.byte) (queryId : Z) (query_len : Z) (kind : bool)
    (total_time : D) (nrows : Z) (bufusage : Blocks D)
    (jstate : option (list Byte.byte)) (utime stime : D) : result (state D) :=
  (* Safety check... *)
  match pgss_qbuf st !! Z.to_nat (current_wbucket st) with
  | None => Ok st
  | Some _ =>
      '(key, reset, tables_name, st) ← pgss_store_key hst st query queryId query_len;
      pgss_store_entry fuel hst key reset tables_name st query query_len kind
        total_time nrows bufusage jstate utime stime
  end.

End Store.

(** ** Well-formed bucket arrays *)

Section StoreInvariants.
Context {D : Type} (conf : pgsm_conf D).

(** The per-bucket arrays have one slot per bucket, the bucket table has an
    entry for every bucket id, and the current bucket is one of them. *)
Definition buckets_wf (st : state D) : Prop :=
  0 < PGSM_MAX_BUCKETS conf < 2 ^ 31 /\
  0 <= current_wbucket st < PGSM_MAX_BUCKETS conf /\
  Z.of_nat (length (bucket_entry st)) = PGSM_MAX_BUCKETS conf /\
  Z.of_nat (length (bucket_overflow st)) = PGSM_MAX_BUCKETS conf /\
  Z.of_nat (length (query_fifo st)) = PGSM_MAX_BUCKETS conf /\
  forall b, 0 <= b < PGSM_MAX_BUCKETS conf -> is_Some (pgss_buckethash st !! b).

(** The bucket window has elapsed at the host's time, as [get_next_wbucket]
    tests it. *)
Definition window_elapsed (hst : host) (st : state D) : Prop :=
  uint64 (PGSM_BUCKET_TIME conf) < uint64 (uint64 (tv_sec hst) - prev_bucket_usec st).

End StoreInvariants.

(** ** The edges of the response-time histogram *)

Section HistogramEdges.
Context {D : Type} (conf : pgsm_conf D).

(** The edge the loop compares a duration with at cell [i]. *)
Definition resp_edge (i : Z) : Z :=
  PGSM_RESPOSE_TIME_LOWER_BOUND conf + PGSM_RESPOSE_TIME_STEP conf * i.

(** At least two cells, a positive step, and edges that fit an [int]. *)
Definition resp_conf_ok : Prop :=
  2 <= MAX_RESPONSE_BUCKET conf /\
  0 < PGSM_RESPOSE_TIME_STEP conf /\
  - 2 ^ 31 <= PGSM_RESPOSE_TIME_LOWER_BOUND conf /\
  PGSM_RESPOSE_TIME_STEP conf * MAX_RESPONSE_BUCKET conf < 2 ^ 31 /\
  resp_edge (MAX_RESPONSE_BUCKET conf) < 2 ^ 31.

End HistogramEdges.

(** ** Sequences of measurements and the direct computation *)

Section Measurements.
Context {D : Type} {DD : Double D} (conf : pgsm_conf D).

(** The counters of an entry after the durations [l] were recorded in turn
    under one kind, each with no rows, no block traffic and no CPU time. *)
Definition record_times (hst : host) (kind : bool) (l : list D) (c : Counters D)
  : Counters D :=
  foldl (fun c t => update_counters conf hst kind t 0 zero_blocks
                      (d_of_Z 0) (d_of_Z 0) [] c) c l.

(** The direct computation in two passes: the mean of [l], then the sum of
    the squared deviations from it. *)
Definition d_sum (l : list D) : D := foldl d_add (d_of_Z 0) l.

Definition two_pass_mean (l : list D) : D :=
  d_div (d_sum l) (d_of_Z (Z.of_nat (length l))).

Definition sum_sq_dev (m : D) (l : list D) : D :=
  foldl (fun a x => d_add a (d_mul (d_sub x m) (d_sub x m))) (d_of_Z 0) l.

Definition two_pass_ssd (l : list D) : D := sum_sq_dev (two_pass_mean l) l.

End Measurements.

(** In exact arithmetic. *)
Section ExactMeasurements.
Local Open Scope Q_scope.

(** The sum of the squares of [l]. *)
Definition sum_sq (l : list Q) : Q := foldl (fun a x => a + x * x) 0 l.

(** What holds of the timing of one kind after the durations [p]. *)
Definition welford_inv (p : list Q) (n : Z) (t : CallTime Q) : Prop :=
  n = Z.of_nat (length p) /\
  match p with
  | [] => sum_var_time t == 0
  | _ :: _ =>
      mean_time t * inject_Z n == d_sum p /\
      sum_var_time t == sum_sq p - inject_Z n * mean_time t * mean_time t
  end.

End ExactMeasurements.

(** ** Doubles that carry their exact value

    To say of a computation in binary64 that none of its operations has
    rounded, the store is read at a third instance: a double together with
    the rational number that the same operations give in exact arithmetic,
    kept for as long as every operation on the way has given exactly that
    number. *)











(** The timing of one kind after the durations [l], from the timing [t] of
    [n] calls: the updates of [update_time] in turn. *)
Fixpoint welford_run {D} {DD : Double D} (n : Z) (l : list D) (t : CallTime D)
  : CallTime D :=
  match l with
  | [] => t
  | x :: l' => welford_run (n + 1) l' (update_time (n + 1) x t)
  end.




(** ** The query jumble *)

(** The location and the length of a constant in the query text. *)
Record pgssLocationLen : Type := mkLocationLen {
  location : Z;
  length_of_constant : Z
}.

(** [pgssJumbleState]: the jumble buffer of [JUMBLE_SIZE] bytes, the number
    of bytes of it in use, and the recorded constant locations. *)
Record pgssJumbleState : Type := mkJumbleState {
  jumble : list Byte.byte;
  jumble_len : Z;
  clocations : list pgssLocationLen;
  clocations_buf_size : Z;
  highest_extern_param_id : Z
}.

(** A line written with [elog] while jumbling: level, format, argument. *)
Definition jumble_log : Type := list (elevel * string * Z).

(** The results of a jumbling function: it returns, it raises an error with
    [elog(ERROR, ...)], it touches memory outside the buffer, or it does not
    end. *)
Inductive jresult (A : Type) : Type :=
| JOk (a : A) (js : pgssJumbleState) (log : jumble_log)
| JError (msg : string) (arg : Z) (js : pgssJumbleState) (log : jumble_log)
| JFault
| JNoFuel.
Arguments JOk {A} a js log.
Arguments JError {A} msg arg js log.
Arguments JFault {A}.
Arguments JNoFuel {A}.

Definition J (A : Type) : Type := pgssJumbleState -> jumble_log -> jresult A.

Global Instance J_ret : MRet J := fun A a js log => JOk a js log.
Global Instance J_bind : MBind J := fun A B k m js log =>
  match m js log with
  | JOk a js' log' => k a js' log'
  | JError msg arg js' log' => JError msg arg js' log'
  | JFault => JFault
  | JNoFuel => JNoFuel
  end.

(** The node tags that [JumbleExpr] has a case for. *)
Inductive NodeTag : Type :=
| T_Var | T_Const | T_Param | T_Aggref | T_GroupingFunc | T_WindowFunc
| T_SubscriptingRef | T_FuncExpr | T_NamedArgExpr | T_OpExpr | T_DistinctExpr
| T_NullIfExpr | T_ScalarArrayOpExpr | T_BoolExpr | T_SubLink | T_FieldSelect
| T_FieldStore | T_RelabelType | T_CoerceViaIO | T_ArrayCoerceExpr
| T_ConvertRowtypeExpr | T_CollateExpr | T_CaseExpr | T_CaseTestExpr
| T_ArrayExpr | T_RowExpr | T_RowCompareExpr | T_CoalesceExpr | T_MinMaxExpr
| T_SQLValueFunction | T_XmlExpr | T_NullTest | T_BooleanTest
| T_CoerceToDomain | T_CoerceToDomainValue | T_SetToDefault | T_CurrentOfExpr
| T_NextValueExpr | T_InferenceElem | T_TargetEntry | T_RangeTblRef
| T_JoinExpr | T_FromExpr | T_OnConflictExpr | T_List | T_IntList
| T_SortGroupClause | T_GroupingSet | T_WindowClause | T_CommonTableExpr
| T_SetOperationStmt | T_RangeTblFunction | T_TableFunc | T_TableSampleClause.

(** The parse tree, as far as the jumble reads it.  [Null] is the [NULL]
    pointer; a field of type [List *] is a node like the others, [Null] or a
    [List]; [Other] is a node whose tag has no case in [JumbleExpr].  Names
    are C strings without their final zero byte. *)
Inductive Node : Type :=
| Null
| Var (varno varattno varlevelsup : Z)
| Const (consttype location : Z)
| Param (paramkind paramid paramtype : Z)
| Aggref (aggfnoid : Z) (aggdirectargs args aggorder aggdistinct aggfilter : Node)
| GroupingFunc (refs : Node)
| WindowFunc (winfnoid winref : Z) (args aggfilter : Node)
| SubscriptingRef (refupperindexpr reflowerindexpr refexpr refassgnexpr : Node)
| FuncExpr (funcid : Z) (args : Node)
| NamedArgExpr (argnumber : Z) (arg : Node)
| OpExpr (opno : Z) (args : Node)
| DistinctExpr (opno : Z) (args : Node)
| NullIfExpr (opno : Z) (args : Node)
| ScalarArrayOpExpr (opno : Z) (useOr : bool) (args : Node)
| BoolExpr (boolop : Z) (args : Node)
| SubLink (subLinkType subLinkId : Z) (testexpr : Node) (subselect : Query)
| FieldSelect (fieldnum : Z) (arg : Node)
| FieldStore (arg newvals : Node)
| RelabelType (resulttype : Z) (arg : Node)
| CoerceViaIO (resulttype : Z) (arg : Node)
| ArrayCoerceExpr (resulttype : Z) (arg elemexpr : Node)
| ConvertRowtypeExpr (resulttype : Z) (arg : Node)
| CollateExpr (collOid : Z) (arg : Node)
| CaseExpr (arg : Node) (args : WhenList) (defresult : Node)
| CaseTestExpr (typeId : Z)
| ArrayExpr (elements : Node)
| RowExpr (args : Node)
| RowCompareExpr (rctype : Z) (largs rargs : Node)
| CoalesceExpr (args : Node)
| MinMaxExpr (op : Z) (args : Node)
| SQLValueFunction (op typmod : Z)
| XmlExpr (op : Z) (named_args args : Node)
| NullTest (nulltesttype : Z) (arg : Node)
| BooleanTest (booltesttype : Z) (arg : Node)
| CoerceToDomain (resulttype : Z) (arg : Node)
| CoerceToDomainValue (typeId : Z)
| SetToDefault (typeId : Z)
| CurrentOfExpr (cvarno : Z) (cursor_name : option (list Byte.byte)) (cursor_param : Z)
| NextValueExpr (seqid typeId : Z)
| InferenceElem (infercollid inferopclass : Z) (expr : Node)
| TargetEntry (resno ressortgroupref : Z) (expr : Node)
| RangeTblRef (rtindex : Z)
| JoinExpr (jointype : Z) (isNatural : bool) (rtindex : Z) (larg rarg quals : Node)
| FromExpr (fromlist quals : Node)
| OnConflictExpr (action : Z) (arbiterElems arbiterWhere onConflictSet
                  onConflictWhere : Node) (constraint exclRelIndex : Z)
                 (exclRelTlist : Node)
| List (elems : NodeList)
| IntList (ints : list Z)
| SortGroupClause (tleSortGroupRef eqop sortop : Z) (nulls_first : bool)
| GroupingSet (content : Node)
| WindowClause (winref frameOptions : Z)
               (partitionClause orderClause startOffset endOffset : Node)
| CommonTableExpr (ctename : list Byte.byte) (ctequery : Query)
| SetOperationStmt (op : Z) (all : bool) (larg rarg : Node)
| RangeTblFunction (funcexpr : Node)
| TableFunc (docexpr rowexpr colexprs : Node)
| TableSampleClause (tsmhandler : Z) (args repeatable : Node)
| Other (tag : Z)
with NodeList : Type :=
| LNil
| LCons (n : Node) (rest : NodeList)
with WhenList : Type :=
| WNil
| WCons (expr result : Node) (rest : WhenList)
with Query : Type :=
| mkQuery (commandType : Z) (cteList : Node) (rtable : RangeTable)
          (jointree targetList onConflict returningList groupClause groupingSets
           havingQual windowClause distinctClause sortClause limitOffset
           limitCount setOperations : Node)
with RangeTable : Type :=
| RNil
| RCons (rte : RangeTblEntry) (rest : RangeTable)
with RangeTblEntry : Type :=
| RTE_RELATION (relid : Z) (tablesample : Node)
| RTE_SUBQUERY (subquery : Query)
| RTE_JOIN (jointype : Z)
| RTE_FUNCTION (functions : Node)
| RTE_TABLEFUNC (tablefunc : Node)
| RTE_VALUES (values_lists : Node)
| RTE_CTE (ctename : list Byte.byte) (ctelevelsup : Z)
| RTE_NAMEDTUPLESTORE (enrname : list Byte.byte)
| RTE_OTHER (rtekind : Z).

(** The RTE kinds with a case in [JumbleRangeTable], as [parsenodes.h]
    numbers them. *)
Definition rtekind (rte : RangeTblEntry) : Z :=
  match rte with
  | RTE_RELATION _ _ => 0
  | RTE_SUBQUERY _ => 1
  | RTE_JOIN _ => 2
  | RTE_FUNCTION _ => 3
  | RTE_TABLEFUNC _ => 4
  | RTE_VALUES _ => 5
  | RTE_CTE _ _ => 6
  | RTE_NAMEDTUPLESTORE _ => 7
  | RTE_OTHER k => k
  end.

Definition PARAM_EXTERN : Z := 0.

Section Jumble.
(** [JUMBLE_SIZE] and the hash are the host's; so are the numbers of the
    node tags and [check_stack_depth], which is asked here at every nesting
    depth of the walk whether the stack still has room. *)
Variable JUMBLE_SIZE : Z.
Variable hash_any_extended : list Byte.byte -> Z.
Variable NodeTag_value : NodeTag -> Z.
Variable stack_has_room : nat -> bool.

(** The [while] loop of [AppendJumble]; [item] holds the [size] bytes that
    are left to append. *)
Fixpoint AppendJumble_loop (fuel : nat) (jumble : list Byte.byte) (jumble_len : Z)
    (item : list Byte.byte) : result (list Byte.byte * Z) :=
  match item with
  | [] => Ok (jumble, jumble_len)
  | _ :: _ =>
      match fuel with
      | O => OutOfFuel
      | S fuel' =>
          '(jumble, jumble_len) ←
            (if JUMBLE_SIZE <=? jumble_len
             then
               full ← of_option (mem_read jumble 0 JUMBLE_SIZE);
               let start_hash := hash_any_extended full in
               jumble ← of_option (mem_write jumble 0 (encode_le 8 start_hash));
               Ok (jumble, 8)
             else Ok (jumble, jumble_len));
          let size := Z.of_nat (length item) in
          let part_size := Z.min size (uint64 (JUMBLE_SIZE - jumble_len)) in
          jumble ← of_option (mem_write jumble jumble_len
                                (take (Z.to_nat part_size) item));
          AppendJumble_loop fuel' jumble (uint64 (jumble_len + part_size))
            (drop (Z.to_nat part_size) item)
      end
  end.

(** [AppendJumble(jstate, item, size)], with [item] the [size] bytes.  A
    pass of the loop that appends nothing is followed by passes that append
    nothing, so a loop that has not ended after [size] passes never ends. *)
Definition AppendJumble (item : list Byte.byte) : J unit := fun js log =>
  match AppendJumble_loop (length item) (jumble js) (jumble_len js) item with
  | Ok (jumble, jumble_len) =>
      JOk () (mkJumbleState jumble jumble_len (clocations js)
                (clocations_buf_size js) (highest_extern_param_id js)) log
  | SegFault => JFault
  | OutOfFuel => JNoFuel
  end.

(** [APP_JUMB(item)] for an [item] of [w] bytes, and [APP_JUMB_STRING(str)]. *)
Definition APP_JUMB (w : nat) (item : Z) : J unit := AppendJumble (encode_le w item).
Definition APP_JUMB_BOOL (item : bool) : J unit :=
  AppendJumble (encode_le 1 (if item then 1 else 0)).
Definition APP_JUMB_STRING (str : list Byte.byte) : J unit :=
  AppendJumble (str ++ [Byte.x00]).

Definition jelog (lvl : elevel) (msg : string) (arg : Z) : J unit := fun js log =>
  match lvl with
  | ERROR => JError msg arg js log
  | INFO => JOk () js (log ++ [(INFO, msg, arg)])
  end.

Definition check_stack_depth (depth : nat) : J unit :=
  if stack_has_room depth then mret ()
  else jelog ERROR "stack depth limit exceeded" 0.

(** [RecordConstLocation] *)
Definition RecordConstLocation (location : Z) : J unit := fun js log =>
  (* -1 indicates unknown or undefined location *)
  if 0 <=? location then
    let count := Z.of_nat (length (clocations js)) in
    (* enlarge array if needed *)
    let buf_size :=
      if clocations_buf_size js <=? count
      then int32 (clocations_buf_size js * 2) else clocations_buf_size js in
    JOk () (mkJumbleState (jumble js) (jumble_len js)
              (clocations js ++ [mkLocationLen location (-1)])
              buf_size (highest_extern_param_id js)) log
  else JOk () js log.

Definition track_extern_param (paramkind paramid : Z) : J unit := fun js log =>
  if (paramkind =? PARAM_EXTERN) && (highest_extern_param_id js <? paramid)
  then JOk () (mkJumbleState (jumble js) (jumble_len js) (clocations js)
                 (clocations_buf_size js) paramid) log
  else JOk () js log.

Definition nodeTag (node : Node) : option NodeTag :=
  match node with
  | Null | Other _ => None
  | Var _ _ _ => Some T_Var
  | Const _ _ => Some T_Const
  | Param _ _ _ => Some T_Param
  | Aggref _ _ _ _ _ _ => Some T_Aggref
  | GroupingFunc _ => Some T_GroupingFunc
  | WindowFunc _ _ _ _ => Some T_WindowFunc
  | SubscriptingRef _ _ _ _ => Some T_SubscriptingRef
  | FuncExpr _ _ => Some T_FuncExpr
  | NamedArgExpr _ _ => Some T_NamedArgExpr
  | OpExpr _ _ => Some T_OpExpr
  | DistinctExpr _ _ => Some T_DistinctExpr
  | NullIfExpr _ _ => Some T_NullIfExpr
  | ScalarArrayOpExpr _ _ _ => Some T_ScalarArrayOpExpr
  | BoolExpr _ _ => Some T_BoolExpr
  | SubLink _ _ _ _ => Some T_SubLink
  | FieldSelect _ _ => Some T_FieldSelect
  | FieldStore _ _ => Some T_FieldStore
  | RelabelType _ _ => Some T_RelabelType
  | CoerceViaIO _ _ => Some T_CoerceViaIO
  | ArrayCoerceExpr _ _ _ => Some T_ArrayCoerceExpr
  | ConvertRowtypeExpr _ _ => Some T_ConvertRowtypeExpr
  | CollateExpr _ _ => Some T_CollateExpr
  | CaseExpr _ _ _ => Some T_CaseExpr
  | CaseTestExpr _ => Some T_CaseTestExpr
  | ArrayExpr _ => Some T_ArrayExpr
  | RowExpr _ => Some T_RowExpr
  | RowCompareExpr _ _ _ => Some T_RowCompareExpr
  | CoalesceExpr _ => Some T_CoalesceExpr
  | MinMaxExpr _ _ => Some T_MinMaxExpr
  | SQLValueFunction _ _ => Some T_SQLValueFunction
  | XmlExpr _ _ _ => Some T_XmlExpr
  | NullTest _ _ => Some T_NullTest
  | BooleanTest _ _ => Some T_BooleanTest
  | CoerceToDomain _ _ => Some T_CoerceToDomain
  | CoerceToDomainValue _ => Some T_CoerceToDomainValue
  | SetToDefault _ => Some T_SetToDefault
  | CurrentOfExpr _ _ _ => Some T_CurrentOfExpr
  | NextValueExpr _ _ => Some T_NextValueExpr
  | InferenceElem _ _ _ => Some T_InferenceElem
  | TargetEntry _ _ _ => Some T_TargetEntry
  | RangeTblRef _ => Some T_RangeTblRef
  | JoinExpr _ _ _ _ _ _ => Some T_JoinExpr
  | FromExpr _ _ => Some T_FromExpr
  | OnConflictExpr _ _ _ _ _ _ _ _ => Some T_OnConflictExpr
  | List _ => Some T_List
  | IntList _ => Some T_IntList
  | SortGroupClause _ _ _ _ => Some T_SortGroupClause
  | GroupingSet _ => Some T_GroupingSet
  | WindowClause _ _ _ _ _ _ => Some T_WindowClause
  | CommonTableExpr _ _ => Some T_CommonTableExpr
  | SetOperationStmt _ _ _ _ => Some T_SetOperationStmt
  | RangeTblFunction _ => Some T_RangeTblFunction
  | TableFunc _ _ _ => Some T_TableFunc
  | TableSampleClause _ _ _ => Some T_TableSampleClause
  end.

(** [node->type], the number that is jumbled first. *)
Definition node_type (node : Node) : Z :=
  match node with
  | Other tag => tag
  | _ => match nodeTag node with Some t => NodeTag_value t | None => 0 end
  end.

(** [foreach(temp, list) APP_JUMB(lfirst_int(temp))] *)
Fixpoint JumbleInts (ints : list Z) : J unit :=
  match ints with
  | [] => mret ()
  | i :: rest => _ ← APP_JUMB 4 i; JumbleInts rest
  end.

(** [JumbleExpr], [JumbleQuery] and [JumbleRangeTable]; [depth] counts the
    calls of the three that are on the stack.  [JumbleList], [JumbleWhens]
    and [JumbleEntries] are the [foreach] loops, and [JumbleEntry] is the
    body of the loop over the range table. *)
Fixpoint JumbleExpr (depth : nat) (node : Node) {struct node} : J unit :=
  match node with
  | Null => mret ()
  | _ =>
    (* Guard against stack overflow due to overly complex expressions *)
    _ ← check_stack_depth depth;
    _ ← APP_JUMB 4 (node_type node);
    match node with
    | Null => mret ()
    | Var varno varattno varlevelsup =>
        _ ← APP_JUMB 4 varno; _ ← APP_JUMB 2 varattno; APP_JUMB 4 varlevelsup
    | Const consttype location =>
        (* We jumble only the constant's type, not its value *)
        _ ← APP_JUMB 4 consttype;
        RecordConstLocation location
    | Param paramkind paramid paramtype =>
        _ ← APP_JUMB 4 paramkind; _ ← APP_JUMB 4 paramid; _ ← APP_JUMB 4 paramtype;
        track_extern_param paramkind paramid
    | Aggref aggfnoid aggdirectargs args aggorder aggdistinct aggfilter =>
        _ ← APP_JUMB 4 aggfnoid;
        _ ← JumbleExpr (S depth) aggdirectargs;
        _ ← JumbleExpr (S depth) args;
        _ ← JumbleExpr (S depth) aggorder;
        _ ← JumbleExpr (S depth) aggdistinct;
        JumbleExpr (S depth) aggfilter
    | GroupingFunc refs => JumbleExpr (S depth) refs
    | WindowFunc winfnoid winref args aggfilter =>
        _ ← APP_JUMB 4 winfnoid; _ ← APP_JUMB 4 winref;
        _ ← JumbleExpr (S depth) args;
        JumbleExpr (S depth) aggfilter
    | SubscriptingRef refupperindexpr reflowerindexpr refexpr refassgnexpr =>
        _ ← JumbleExpr (S depth) refupperindexpr;
        _ ← JumbleExpr (S depth) reflowerindexpr;
        _ ← JumbleExpr (S depth) refexpr;
        JumbleExpr (S depth) refassgnexpr
    | FuncExpr funcid args => _ ← APP_JUMB 4 funcid; JumbleExpr (S depth) args
    | NamedArgExpr argnumber arg => _ ← APP_JUMB 4 argnumber; JumbleExpr (S depth) arg
    | OpExpr opno args | DistinctExpr opno args | NullIfExpr opno args =>
        _ ← APP_JUMB 4 opno; JumbleExpr (S depth) args
    | ScalarArrayOpExpr opno useOr args =>
        _ ← APP_JUMB 4 opno; _ ← APP_JUMB_BOOL useOr; JumbleExpr (S depth) args
    | BoolExpr boolop args => _ ← APP_JUMB 4 boolop; JumbleExpr (S depth) args
    | SubLink subLinkType subLinkId testexpr subselect =>
        _ ← APP_JUMB 4 subLinkType; _ ← APP_JUMB 4 subLinkId;
        _ ← JumbleExpr (S depth) testexpr;
        JumbleQuery (S depth) subselect
    | FieldSelect fieldnum arg => _ ← APP_JUMB 2 fieldnum; JumbleExpr (S depth) arg
    | FieldStore arg newvals =>
        _ ← JumbleExpr (S depth) arg; JumbleExpr (S depth) newvals
    | RelabelType resulttype arg => _ ← APP_JUMB 4 resulttype; JumbleExpr (S depth) arg
    | CoerceViaIO resulttype arg => _ ← APP_JUMB 4 resulttype; JumbleExpr (S depth) arg
    | ArrayCoerceExpr resulttype arg elemexpr =>
        _ ← APP_JUMB 4 resulttype;
        _ ← JumbleExpr (S depth) arg; JumbleExpr (S depth) elemexpr
    | ConvertRowtypeExpr resulttype arg =>
        _ ← APP_JUMB 4 resulttype; JumbleExpr (S depth) arg
    | CollateExpr collOid arg => _ ← APP_JUMB 4 collOid; JumbleExpr (S depth) arg
    | CaseExpr arg args defresult =>
        _ ← JumbleExpr (S depth) arg;
        _ ← JumbleWhens depth args;
        JumbleExpr (S depth) defresult
    | CaseTestExpr typeId => APP_JUMB 4 typeId
    | ArrayExpr elements => JumbleExpr (S depth) elements
    | RowExpr args => JumbleExpr (S depth) args
    | RowCompareExpr rctype largs rargs =>
        _ ← APP_JUMB 4 rctype;
        _ ← JumbleExpr (S depth) largs; JumbleExpr (S depth) rargs
    | CoalesceExpr args => JumbleExpr (S depth) args
    | MinMaxExpr op args => _ ← APP_JUMB 4 op; JumbleExpr (S depth) args
    | SQLValueFunction op typmod =>
        _ ← APP_JUMB 4 op;
        (* type is fully determined by op *)
        APP_JUMB 4 typmod
    | XmlExpr op named_args args =>
        _ ← APP_JUMB 4 op;
        _ ← JumbleExpr (S depth) named_args; JumbleExpr (S depth) args
    | NullTest nulltesttype arg => _ ← APP_JUMB 4 nulltesttype; JumbleExpr (S depth) arg
    | BooleanTest booltesttype arg =>
        _ ← APP_JUMB 4 booltesttype; JumbleExpr (S depth) arg
    | CoerceToDomain resulttype arg =>
        _ ← APP_JUMB 4 resulttype; JumbleExpr (S depth) arg
    | CoerceToDomainValue typeId => APP_JUMB 4 typeId
    | SetToDefault typeId => APP_JUMB 4 typeId
    | CurrentOfExpr cvarno cursor_name cursor_param =>
        _ ← APP_JUMB 4 cvarno;
        _ ← match cursor_name with
            | Some name => APP_JUMB_STRING name
            | None => mret ()
            end;
        APP_JUMB 4 cursor_param
    | NextValueExpr seqid typeId => _ ← APP_JUMB 4 seqid; APP_JUMB 4 typeId
    | InferenceElem infercollid inferopclass expr =>
        _ ← APP_JUMB 4 infercollid; _ ← APP_JUMB 4 inferopclass;
        JumbleExpr (S depth) expr
    | TargetEntry resno ressortgroupref expr =>
        _ ← APP_JUMB 2 resno; _ ← APP_JUMB 4 ressortgroupref;
        JumbleExpr (S depth) expr
    | RangeTblRef rtindex => APP_JUMB 4 rtindex
    | JoinExpr jointype isNatural rtindex larg rarg quals =>
        _ ← APP_JUMB 4 jointype; _ ← APP_JUMB_BOOL isNatural; _ ← APP_JUMB 4 rtindex;
        _ ← JumbleExpr (S depth) larg;
        _ ← JumbleExpr (S depth) rarg;
        JumbleExpr (S depth) quals
    | FromExpr fromlist quals =>
        _ ← JumbleExpr (S depth) fromlist; JumbleExpr (S depth) quals
    | OnConflictExpr action arbiterElems arbiterWhere onConflictSet onConflictWhere
        constraint exclRelIndex exclRelTlist =>
        _ ← APP_JUMB 4 action;
        _ ← JumbleExpr (S depth) arbiterElems;
        _ ← JumbleExpr (S depth) arbiterWhere;
        _ ← JumbleExpr (S depth) onConflictSet;
        _ ← JumbleExpr (S depth) onConflictWhere;
        _ ← APP_JUMB 4 constraint; _ ← APP_JUMB 4 exclRelIndex;
        JumbleExpr (S depth) exclRelTlist
    | List elems => JumbleList depth elems
    | IntList ints => JumbleInts ints
    | SortGroupClause tleSortGroupRef eqop sortop nulls_first =>
        _ ← APP_JUMB 4 tleSortGroupRef; _ ← APP_JUMB 4 eqop; _ ← APP_JUMB 4 sortop;
        APP_JUMB_BOOL nulls_first
    | GroupingSet content => JumbleExpr (S depth) content
    | WindowClause winref frameOptions partitionClause orderClause startOffset
        endOffset =>
        _ ← APP_JUMB 4 winref; _ ← APP_JUMB 4 frameOptions;
        _ ← JumbleExpr (S depth) partitionClause;
        _ ← JumbleExpr (S depth) orderClause;
        _ ← JumbleExpr (S depth) startOffset;
        JumbleExpr (S depth) endOffset
    | CommonTableExpr ctename ctequery =>
        (* we store the string name because RTE_CTE RTEs need it *)
        _ ← APP_JUMB_STRING ctename;
        JumbleQuery (S depth) ctequery
    | SetOperationStmt op all larg rarg =>
        _ ← APP_JUMB 4 op; _ ← APP_JUMB_BOOL all;
        _ ← JumbleExpr (S depth) larg; JumbleExpr (S depth) rarg
    | RangeTblFunction funcexpr => JumbleExpr (S depth) funcexpr
    | TableFunc docexpr rowexpr colexprs =>
        _ ← JumbleExpr (S depth) docexpr;
        _ ← JumbleExpr (S depth) rowexpr;
        JumbleExpr (S depth) colexprs
    | TableSampleClause tsmhandler args repeatable =>
        _ ← APP_JUMB 4 tsmhandler;
        _ ← JumbleExpr (S depth) args; JumbleExpr (S depth) repeatable
    | Other tag =>
        (* Only a warning, since we can stumble along anyway *)
        jelog INFO "unrecognized node type: %d" tag
    end
  end
with JumbleList (depth : nat) (elems : NodeList) {struct elems} : J unit :=
  match elems with
  | LNil => mret ()
  | LCons n rest => _ ← JumbleExpr (S depth) n; JumbleList depth rest
  end
with JumbleWhens (depth : nat) (whens : WhenList) {struct whens} : J unit :=
  match whens with
  | WNil => mret ()
  | WCons expr result rest =>
      _ ← JumbleExpr (S depth) expr;
      _ ← JumbleExpr (S depth) result;
      JumbleWhens depth rest
  end
with JumbleQuery (depth : nat) (query : Query) {struct query} : J unit :=
  match query with
  | mkQuery commandType cteList rtable jointree targetList onConflict returningList
      groupClause groupingSets havingQual windowClause distinctClause sortClause
      limitOffset limitCount setOperations =>
      _ ← APP_JUMB 4 commandType;
      (* resultRelation is usually predictable from commandType *)
      _ ← JumbleExpr (S depth) cteList;
      _ ← JumbleEntries (S depth) rtable;
      _ ← JumbleExpr (S depth) jointree;
      _ ← JumbleExpr (S depth) targetList;
      _ ← JumbleExpr (S depth) onConflict;
      _ ← JumbleExpr (S depth) returningList;
      _ ← JumbleExpr (S depth) groupClause;
      _ ← JumbleExpr (S depth) groupingSets;
      _ ← JumbleExpr (S depth) havingQual;
      _ ← JumbleExpr (S depth) windowClause;
      _ ← JumbleExpr (S depth) distinctClause;
      _ ← JumbleExpr (S depth) sortClause;
      _ ← JumbleExpr (S depth) limitOffset;
      _ ← JumbleExpr (S depth) limitCount;
      (* we ignore rowMarks *)
      JumbleExpr (S depth) setOperations
  end
with JumbleEntries (depth : nat) (rtable : RangeTable) {struct rtable} : J unit :=
  match rtable with
  | RNil => mret ()
  | RCons rte rest => _ ← JumbleEntry depth rte; JumbleEntries depth rest
  end
with JumbleEntry (depth : nat) (rte : RangeTblEntry) {struct rte} : J unit :=
  _ ← APP_JUMB 4 (rtekind rte);
  match rte with
  | RTE_RELATION relid tablesample =>
      _ ← APP_JUMB 4 relid; JumbleExpr (S depth) tablesample
  | RTE_SUBQUERY subquery => JumbleQuery (S depth) subquery
  | RTE_JOIN jointype => APP_JUMB 4 jointype
  | RTE_FUNCTION functions => JumbleExpr (S depth) functions
  | RTE_TABLEFUNC tablefunc => JumbleExpr (S depth) tablefunc
  | RTE_VALUES values_lists => JumbleExpr (S depth) values_lists
  | RTE_CTE ctename ctelevelsup =>
      (* Depending on the CTE name here isn't ideal, but it's the only info
         we have to identify the referenced WITH item *)
      _ ← APP_JUMB_STRING ctename; APP_JUMB 4 ctelevelsup
  | RTE_NAMEDTUPLESTORE enrname => APP_JUMB_STRING enrname
  | RTE_OTHER kind => jelog ERROR "unrecognized RTE kind: %d" kind
  end.

(** [JumbleRangeTable(jstate, rtable)], the loop [JumbleEntries] in a frame
    of its own. *)
Definition JumbleRangeTable (depth : nat) (rtable : RangeTable) : J unit :=
  JumbleEntries depth rtable.

(** [get_query_id]: a fresh workspace, the walk, and the hash of the bytes
    of the jumble that are in use.  [buffer] is what [palloc] returns for
    the jumble, [JUMBLE_SIZE] bytes of any content. *)
Definition get_query_id (buffer : list Byte.byte) (query : Query)
  : jresult Z :=
  let js := mkJumbleState buffer 0 [] 32 0 in
  match JumbleQuery 0 query js [] with
  | JOk _ js' log =>
      match mem_read (jumble js') 0 (jumble_len js') with
      | Some used => JOk (uint64 (hash_any_extended used)) js' log
      | None => JFault
      end
  | JError msg arg js' log => JError msg arg js' log
  | JFault => JFault
  | JNoFuel => JNoFuel
  end.


(** The live part of the jumble buffer. *)
Definition jumble_used (js : pgssJumbleState) : list Byte.byte :=
  take (Z.to_nat (jumble_len js)) (jumble js).

(** The buffer has its [JUMBLE_SIZE] bytes and the length is within it. *)
Definition jumble_wf (js : pgssJumbleState) : Prop :=
  Z.of_nat (length (jumble js)) = JUMBLE_SIZE /\
  0 <= jumble_len js <= JUMBLE_SIZE.

(** Folding, one byte at a time: a byte that finds the accumulator full is
    appended to the hash of the accumulator instead. *)
Fixpoint fold_append (acc item : list Byte.byte) : list Byte.byte :=
  match item with
  | [] => acc
  | b :: rest =>
      let acc :=
        if JUMBLE_SIZE <=? Z.of_nat (length acc)
        then encode_le 8 (hash_any_extended acc) else acc in
      fold_append (acc ++ [b]) rest
  end.

End Jumble.

(** No range-table entry of the tree is of a kind that [JumbleRangeTable]
    has no case for. *)
Fixpoint node_rtes_known (node : Node) : bool :=
  match node with
  | Null | Var _ _ _ | Const _ _ | Param _ _ _ | CaseTestExpr _
  | SQLValueFunction _ _ | CoerceToDomainValue _ | SetToDefault _
  | CurrentOfExpr _ _ _ | NextValueExpr _ _ | RangeTblRef _ | IntList _
  | SortGroupClause _ _ _ _ | Other _ => true
  | Aggref _ a b c d e =>
      node_rtes_known a && node_rtes_known b && node_rtes_known c
      && node_rtes_known d && node_rtes_known e
  | GroupingFunc a | FuncExpr _ a | NamedArgExpr _ a | OpExpr _ a
  | DistinctExpr _ a | NullIfExpr _ a | ScalarArrayOpExpr _ _ a | BoolExpr _ a
  | FieldSelect _ a | RelabelType _ a | CoerceViaIO _ a | ConvertRowtypeExpr _ a
  | CollateExpr _ a | ArrayExpr a | RowExpr a | CoalesceExpr a | MinMaxExpr _ a
  | NullTest _ a | BooleanTest _ a | CoerceToDomain _ a | InferenceElem _ _ a
  | TargetEntry _ _ a | GroupingSet a | RangeTblFunction a => node_rtes_known a
  | WindowFunc _ _ a b | FieldStore a b | ArrayCoerceExpr _ a b
  | RowCompareExpr _ a b | XmlExpr _ a b | FromExpr a b
  | SetOperationStmt _ _ a b | TableSampleClause _ a b =>
      node_rtes_known a && node_rtes_known b
  | SubscriptingRef a b c d | WindowClause _ _ a b c d =>
      node_rtes_known a && node_rtes_known b && node_rtes_known c
      && node_rtes_known d
  | SubLink _ _ a q => node_rtes_known a && query_rtes_known q
  | CaseExpr a ws d => node_rtes_known a && whens_rtes_known ws && node_rtes_known d
  | JoinExpr _ _ _ a b c | TableFunc a b c =>
      node_rtes_known a && node_rtes_known b && node_rtes_known c
  | OnConflictExpr _ a b c d _ _ e =>
      node_rtes_known a && node_rtes_known b && node_rtes_known c
      && node_rtes_known d && node_rtes_known e
  | List l => list_rtes_known l
  | CommonTableExpr _ q => query_rtes_known q
  end
with list_rtes_known (l : NodeList) : bool :=
  match l with
  | LNil => true
  | LCons n rest => node_rtes_known n && list_rtes_known rest
  end
with whens_rtes_known (ws : WhenList) : bool :=
  match ws with
  | WNil => true
  | WCons e r rest => node_rtes_known e && node_rtes_known r && whens_rtes_known rest
  end
with query_rtes_known (q : Query) : bool :=
  match q with
  | mkQuery _ cte rt a b c d e f g h i j k l m =>
      node_rtes_known cte && table_rtes_known rt
      && node_rtes_known a && node_rtes_known b && node_rtes_known c
      && node_rtes_known d && node_rtes_known e && node_rtes_known f
      && node_rtes_known g && node_rtes_known h && node_rtes_known i
      && node_rtes_known j && node_rtes_known k && node_rtes_known l
      && node_rtes_known m
  end
with table_rtes_known (rt : RangeTable) : bool :=
  match rt with
  | RNil => true
  | RCons rte rest => rte_known rte && table_rtes_known rest
  end
with rte_known (rte : RangeTblEntry) : bool :=
  match rte with
  | RTE_RELATION _ a | RTE_FUNCTION a | RTE_TABLEFUNC a | RTE_VALUES a =>
      node_rtes_known a
  | RTE_SUBQUERY q => query_rtes_known q
  | RTE_JOIN _ | RTE_CTE _ _ | RTE_NAMEDTUPLESTORE _ => true
  | RTE_OTHER _ => false
  end.

(** The lines [l'] are the lines [l] followed by notices only. *)
Definition notices_added (l l' : jumble_log) : Prop :=
  exists added, l' = l ++ added /\ Forall (fun line => line.1.1 = INFO) added.

(** What the walk meets in a tree besides the fields it jumbles: a
    constant, with its location, or a node whose tag [JumbleExpr] has no
    case for. *)
Inductive walk_event : Type :=
| Constant (location : Z)
| Unrecognized (tag : Z).

(** The constants and the unrecognized nodes of a tree, all of them, in the
    order of the tree. *)
Fixpoint node_events (node : Node) : list walk_event :=
  match node with
  | Null | Var _ _ _ | Param _ _ _ | CaseTestExpr _
  | SQLValueFunction _ _ | CoerceToDomainValue _ | SetToDefault _
  | CurrentOfExpr _ _ _ | NextValueExpr _ _ | RangeTblRef _ | IntList _
  | SortGroupClause _ _ _ _ => []
  | Const _ location => [Constant location]
  | Other tag => [Unrecognized tag]
  | Aggref _ a b c d e =>
      node_events a ++ node_events b ++ node_events c ++ node_events d
      ++ node_events e
  | GroupingFunc a | FuncExpr _ a | NamedArgExpr _ a | OpExpr _ a
  | DistinctExpr _ a | NullIfExpr _ a | ScalarArrayOpExpr _ _ a | BoolExpr _ a
  | FieldSelect _ a | RelabelType _ a | CoerceViaIO _ a | ConvertRowtypeExpr _ a
  | CollateExpr _ a | ArrayExpr a | RowExpr a | CoalesceExpr a | MinMaxExpr _ a
  | NullTest _ a | BooleanTest _ a | CoerceToDomain _ a | InferenceElem _ _ a
  | TargetEntry _ _ a | GroupingSet a | RangeTblFunction a => node_events a
  | WindowFunc _ _ a b | FieldStore a b | ArrayCoerceExpr _ a b
  | RowCompareExpr _ a b | XmlExpr _ a b | FromExpr a b
  | SetOperationStmt _ _ a b | TableSampleClause _ a b =>
      node_events a ++ node_events b
  | SubscriptingRef a b c d | WindowClause _ _ a b c d =>
      node_events a ++ node_events b ++ node_events c ++ node_events d
  | SubLink _ _ a q => node_events a ++ query_events q
  | CaseExpr a ws d => node_events a ++ whens_events ws ++ node_events d
  | JoinExpr _ _ _ a b c | TableFunc a b c =>
      node_events a ++ node_events b ++ node_events c
  | OnConflictExpr _ a b c d _ _ e =>
      node_events a ++ node_events b ++ node_events c ++ node_events d
      ++ node_events e
  | List l => list_events l
  | CommonTableExpr _ q => query_events q
  end
with list_events (l : NodeList) : list walk_event :=
  match l with
  | LNil => []
  | LCons n rest => node_events n ++ list_events rest
  end
with whens_events (ws : WhenList) : list walk_event :=
  match ws with
  | WNil => []
  | WCons e r rest => node_events e ++ node_events r ++ whens_events rest
  end
with query_events (q : Query) : list walk_event :=
  match q with
  | mkQuery _ cte rt a b c d e f g h i j k l m =>
      node_events cte ++ table_events rt
      ++ node_events a ++ node_events b ++ node_events c
      ++ node_events d ++ node_events e ++ node_events f
      ++ node_events g ++ node_events h ++ node_events i
      ++ node_events j ++ node_events k ++ node_events l
      ++ node_events m
  end
with table_events (rt : RangeTable) : list walk_event :=
  match rt with
  | RNil => []
  | RCons rte rest => rte_events rte ++ table_events rest
  end
with rte_events (rte : RangeTblEntry) : list walk_event :=
  match rte with
  | RTE_RELATION _ a | RTE_FUNCTION a | RTE_TABLEFUNC a | RTE_VALUES a =>
      node_events a
  | RTE_SUBQUERY q => query_events q
  | RTE_JOIN _ | RTE_CTE _ _ | RTE_NAMEDTUPLESTORE _ | RTE_OTHER _ => []
  end.

(** What is recorded of the constants met: those with a known location,
    each with the length -1. *)
Definition recorded_constants (events : list walk_event) : list pgssLocationLen :=
  omap (fun e => match e with
                 | Constant location =>
                     if 0 <=? location then Some (mkLocationLen location (-1)) else None
                 | Unrecognized _ => None
                 end) events.

(** The notices for the unrecognized nodes met. *)
Definition notices (events : list walk_event) : jumble_log :=
  omap (fun e => match e with
                 | Unrecognized tag => Some (INFO, "unrecognized node type: %d"%string, tag)
                 | Constant _ => None
                 end) events.

(** What a step of the walk does on a tree with the events [events]: when
    every range-table entry of the tree is [known], the step returns, leaves
    the buffer within its bounds, has logged one notice for each
    unrecognized node and recorded each constant with a known location, in
    the order of the tree; otherwise it raises the error for the
    range-table entry, with notices as the only new log lines. *)
Definition walk_spec (JUMBLE_SIZE : Z) (m : J unit) (known : bool)
    (events : list walk_event) : Prop :=
  forall js log,
    jumble_wf JUMBLE_SIZE js ->
    if known then
      exists js',
        m js log = JOk () js' (log ++ notices events) /\
        jumble_wf JUMBLE_SIZE js' /\
        clocations js' = clocations js ++ recorded_constants events
    else
      exists kind js' log',
        m js log = JError "unrecognized RTE kind: %d" kind js' log' /\
        notices_added log log'.

(** ** Concrete configurations and states *)

Definition txt (s : string) : list Byte.byte := String.list_byte_of_string s.

(** Two buckets with a ring of 64 bytes each, texts of at most 8 bytes. *)
Definition conf8 : pgsm_conf Q :=
  {| PGSM_MAX := 4; PGSM_MAX_BUCKETS := 2; PGSM_BUCKET_TIME := 60;
     PGSM_QUERY_MAX_LEN := 8; PGSM_NORMALIZED_QUERY := true;
     PGSM_RESPOSE_TIME_LOWER_BOUND := 1; PGSM_RESPOSE_TIME_STEP := 1;
     MAX_RESPONSE_BUCKET := 10; MAX_REL_LEN := 16;
     query_buf_size_bucket := 64;
     USAGE_INIT := 1%Q; USAGE_EXEC := fun _ => 1%Q;
     hash_any_extended := fun bs => Z.of_nat (length bs) |}.

(** The same with texts of at most 100 bytes. *)
Definition conf100 : pgsm_conf Q :=
  {| PGSM_MAX := 4; PGSM_MAX_BUCKETS := 2; PGSM_BUCKET_TIME := 60;
     PGSM_QUERY_MAX_LEN := 100; PGSM_NORMALIZED_QUERY := true;
     PGSM_RESPOSE_TIME_LOWER_BOUND := 1; PGSM_RESPOSE_TIME_STEP := 1;
     MAX_RESPONSE_BUCKET := 10; MAX_REL_LEN := 16;
     query_buf_size_bucket := 64;
     USAGE_INIT := 1%Q; USAGE_EXEC := fun _ => 1%Q;
     hash_any_extended := fun bs => Z.of_nat (length bs) |}.

(** The state after start-up: empty tables but for the two buckets, zeroed
    rings. *)
Definition st_init : state Q :=
  mkState 0%Q 0 0 [0; 0] [0; 0] [mkFifo 0 0; mkFifo 0 0]
    [replicate 64 Byte.x00; replicate 64 Byte.x00]
    ∅ ∅ ∅
    (<[0 := mkBucketEntry (replicate 10 0) 0]>
       (<[1 := mkBucketEntry (replicate 10 0) 0]> ∅))
    ∅ [].

(** [st_init] after ["SELECT 1"] was stored under fingerprint 7 in bucket 0. *)
Definition st_one : state Q :=
  Eval vm_compute in
    match store_query conf8 1 st_init 7 (txt "SELECT 1") 8 with
    | Ok s => s
    | _ => st_init
    end.

(** [st_init] after two texts of four bytes were stored in bucket 0, whose
    ring then has its head at 40. *)
Definition st_forty : state Q :=
  Eval vm_compute in
    match store_query conf8 1 st_init 7 (txt "SHOW") 4 with
    | Ok s => match store_query conf8 2 s 8 (txt "LOAD") 4 with
              | Ok s' => s'
              | _ => st_init
              end
    | _ => st_init
    end.

(** The host at second [t], for user 10 of database 5 on 127.0.0.1. *)
Definition host_at (t : Z) : host := mkHost t (t * 1000000) 10 5 2130706433 6.

Definition one_block : Blocks Q := mkBlocks 1 0 0 0 0 0 0 0 0 0 0%Q 0%Q.

(** The state a call leaves, [st_init] if the call has no result. *)
Definition state_of (r : result (state Q)) : state Q :=
  match r with Ok s => s | _ => st_init end.

(** An execution of [text] with fingerprint [id] that took [ms] milliseconds,
    recorded at second [t].  The bytes behind the statement, which a call at
    execution time does not read, are not given. *)
Definition record_at (conf : pgsm_conf Q) (t : Z) (st : state Q) (text : string)
    (id : Z) (ms : Q) : result (state Q) :=
  pgss_store conf 5 (host_at t) st (txt text) id
    (Z.of_nat (length (txt text))) true ms 1 one_block None 0%Q 0%Q.

(** Three calls, 100 seconds apart: into bucket 0, into bucket 1, and into
    bucket 0 again. *)
Definition st_t0 : state Q := state_of (record_at conf8 0 st_init "SELECT 1" 7 (3 # 2)).
Definition st_t100 : state Q := state_of (record_at conf8 100 st_t0 "SELECT 2" 8 (3 # 2)).
Definition st_t200 : state Q := state_of (record_at conf8 200 st_t100 "SELECT 2" 8 (3 # 2)).

(** Two statements recorded into bucket 0, which then holds its share of
    the [PGSM_MAX = 4] entries. *)
Definition st_two : state Q := state_of (record_at conf8 1 st_t0 "SELECT 2" 8 (3 # 2)).

(** [conf8] over binary64. *)
Definition conf8_float : pgsm_conf float :=
  {| PGSM_MAX := 4; PGSM_MAX_BUCKETS := 2; PGSM_BUCKET_TIME := 60;
     PGSM_QUERY_MAX_LEN := 8; PGSM_NORMALIZED_QUERY := true;
     PGSM_RESPOSE_TIME_LOWER_BOUND := 1; PGSM_RESPOSE_TIME_STEP := 1;
     MAX_RESPONSE_BUCKET := 10; MAX_REL_LEN := 16;
     query_buf_size_bucket := 64;
     USAGE_INIT := 1%float; USAGE_EXEC := fun _ => 1%float;
     hash_any_extended := fun bs => Z.of_nat (length bs) |}.

(** A host for the jumble: a buffer of 1024 bytes, a toy hash, all the node
    tags numbered 100 but for three, and a stack that always has room. *)
Definition toy_hash (bs : list Byte.byte) : Z :=
  foldl (fun h b => (31 * h + Z_of_byte b) mod 2 ^ 64) 7 bs.

Definition toy_tags (t : NodeTag) : Z :=
  match t with
  | T_Var => 101
  | T_Const => 102
  | T_List => 140
  | _ => 100
  end.

Definition fresh_jumble : pgssJumbleState :=
  mkJumbleState (replicate 1024 Byte.x00) 0 [] 32 0.

(** [SELECT] with nothing but a target list and a range table. *)
Definition query_of (targetList : Node) (rtable : RangeTable) : Query :=
  mkQuery 1 Null rtable Null targetList Null Null Null Null Null Null Null Null
    Null Null Null.

(** ** The accounting of the entries of a bucket *)

Section BucketAccounting.
Context {D : Type} (conf : pgsm_conf D).

(** The number of entries of the statistics table whose key carries the
    bucket id [b]. *)
Definition bucket_population (st : state D) (b : Z) : Z :=
  Z.of_nat (size (filter (fun kv : pgssHashKey * pgssEntry D => key_bucket_id kv.1 = b)
                    (pgss_hash st))).

(** The share of the table that one bucket may fill, as [entry_alloc]
    compares it with [bucket_entry]. *)
Definition bucket_share : Z := uint64 (PGSM_MAX conf ÷ PGSM_MAX_BUCKETS conf).

(** [bucket_entry] holds, for every bucket, the number of entries of that
    bucket, and no bucket holds more than its share. *)
Definition counts_wf (st : state D) : Prop :=
  forall b, 0 <= b < PGSM_MAX_BUCKETS conf ->
    bucket_entry st !! Z.to_nat b = Some (bucket_population st b) /\
    bucket_population st b <= bucket_share.

Definition store_inv (st : state D) : Prop := buckets_wf conf st /\ counts_wf st.

End BucketAccounting.

(** ** The extremes of a sequence of durations *)

(** [min_time] is the smallest and [max_time] the largest of the durations
    [p]. *)
Definition extremes (p : list Q) (t : CallTime Q) : Prop :=
  min_time t ∈ p /\ Forall (fun x => (min_time t <= x)%Q) p /\
  max_time t ∈ p /\ Forall (fun x => (x <= max_time t)%Q) p.

(** ** Sorting the constant locations *)

(** [comp_location]: comparator for qsorting [pgssLocationLen] structs by
    location. *)
Definition comp_location (a b : pgssLocationLen) : Z :=
  let l := location a in
  let r := location b in
  if l <? r then -1
  else if l >? r then 1
  else 0.

(** ** The relation names kept for a statement *)

Section ObjectEntries.
Context {D : Type} (conf : pgsm_conf D).

(** [add_object_entry(queryid, objects)], with [objects] the bytes of the C
    string; [HASH_ENTER] is taken to find room in shared memory. *)
Definition add_object_entry (queryid : Z) (objects : list Byte.byte) (st : state D)
  : state D :=
  match pgss_object_hash st !! queryid with
  | Some _ => st
  | None =>
      set_pgss_object_hash
        (<[queryid := take (Z.to_nat (MAX_REL_LEN conf - 1)) objects]>
           (pgss_object_hash st)) st
  end.

End ObjectEntries.

(** ** The text of the statement within the source string

    A C string is given by the bytes in front of its terminating NUL, and a
    pointer into it by its offset. *)

(** [s[i]] for a C string [s]: the byte at [i], the NUL behind the last
    byte, and nothing further on. *)
Definition c_char (s : list Byte.byte) (i : Z) : result Byte.byte :=
  if i =? Z.of_nat (length s) then Ok Byte.x00 else array_get s i.

(** [strlen(s + p)] *)
Definition c_strlen (s : list Byte.byte) (p : Z) : result Z :=
  if (0 <=? p) && (p <=? Z.of_nat (length s))
  then Ok (Z.of_nat (length s) - p)
  else SegFault.

Section StatementText.
(** [scanner_isspace] is the lexer's. *)
Variable scanner_isspace : Byte.byte -> bool.

(** [while (query_len > 0 && scanner_isspace(query[0])) query++,
    query_location++, query_len--;] with [query] at offset [p] of [src]. *)
Fixpoint skip_leading_space (fuel : nat) (src : list Byte.byte)
    (p query_location query_len : Z) : result (Z * Z * Z) :=
  match fuel with
  | O => OutOfFuel
  | S fuel' =>
      if 0 <? query_len then
        c ← c_char src p;
        if scanner_isspace c
        then skip_leading_space fuel' src (p + 1) (int32 (query_location + 1))
               (int32 (query_len - 1))
        else Ok (p, query_location, query_len)
      else Ok (p, query_location, query_len)
  end.

(** [while (query_len > 0 && scanner_isspace(query[query_len - 1]))
    query_len--;] *)
Fixpoint skip_trailing_space (fuel : nat) (src : list Byte.byte)
    (p query_len : Z) : result Z :=
  match fuel with
  | O => OutOfFuel
  | S fuel' =>
      if 0 <? query_len then
        c ← c_char src (p + (query_len - 1));
        if scanner_isspace c
        then skip_trailing_space fuel' src p (int32 (query_len - 1))
        else Ok query_len
      else Ok query_len
  end.

(** The part of [pgss_store] that confines its attention to the statement
    within the source string [src] and discards the white space around it:
    the offset of [query] in [src], [query_location] and [query_len] as the
    rest of the function finds them. *)
Definition pgss_store_text (fuel : nat) (src : list Byte.byte)
    (query_location query_len : Z) : result (Z * Z * Z) :=
  '(p, query_location, query_len) ←
    (* First apply starting offset, unless it's -1 (unknown). *)
    (if 0 <=? query_location then
       let p := query_location in
       (* Length of 0 (or -1) means "rest of string" *)
       if query_len <=? 0
       then len ← c_strlen src p; Ok (p, query_location, int32 len)
       else Ok (p, query_location, query_len)
     else
       (* If query location is unknown, distrust query_len as well *)
       len ← c_strlen src 0; Ok (0, 0, int32 len));
  '(p, query_location, query_len) ←
    skip_leading_space fuel src p query_location query_len;
  query_len ← skip_trailing_space fuel src p query_len;
  Ok (p, query_location, query_len).

(** The statement that the caller points at, as an offset and a length. *)
Definition statement_span (src : list Byte.byte) (query_location query_len : Z)
  : Z * Z :=
  if 0 <=? query_location
  then (query_location,
        if query_len <=? 0 then Z.of_nat (length src) - query_location
        else query_len)
  else (0, Z.of_nat (length src)).

End StatementText.

(** ** Texts made with [sprintf] *)

Section Printed.
(** What [sprintf] writes for ["%d"], without the terminating NUL. *)
Variable sprintf_d : Z -> list Byte.byte.

(** [snprintf(tmp, 10, ...)]: at most 9 bytes and a NUL are written. *)
Definition snprintf_10 (s : list Byte.byte) : list Byte.byte := take 9 s.

(** [strcat(str, tmp)] into [char str[1024]]. *)
Definition strcat_1024 (str tmp : list Byte.byte) : result (list Byte.byte) :=
  if Z.of_nat (length str + length tmp + 1) <=? 1024
  then Ok (str ++ tmp) else SegFault.

(** The [for] loop of [array_get_datum], with [n] passes to go. *)
Fixpoint array_get_datum_loop (n : nat) (arr : list Z) (j : Z) (first : bool)
    (str : list Byte.byte) : result (list Byte.byte) :=
  match n with
  | O => Ok str
  | S n' =>
      v ← array_get arr j;
      let tmp :=
        if first then snprintf_10 (sprintf_d v)
        else snprintf_10 (txt ", " ++ sprintf_d v) in
      str ← strcat_1024 str tmp;
      array_get_datum_loop n' arr (j + 1) false str
  end.

(** [array_get_datum(arr)]: the C string that is made into a text datum. *)
Definition array_get_datum (arr : list Z) : result (list Byte.byte) :=
  array_get_datum_loop 10 arr 0 true [].

(** The numbers of [l] as ["%d"] prints them, with [", "] in between. *)
Fixpoint joined_ints (first : bool) (l : list Z) : list Byte.byte :=
  match l with
  | [] => []
  | v :: l' =>
      (if first then sprintf_d v else txt ", " ++ sprintf_d v) ++ joined_ints false l'
  end.

(** The [for] loop of [generate_normalized_query] over the constant
    locations [locs], from index [i] on. *)
Fixpoint generate_normalized_query_loop (query : list Byte.byte)
    (query_loc highest : Z) (locs : list pgssLocationLen) (i : Z)
    (norm_query : list Byte.byte) (quer_loc n_quer_loc last_off last_tok_len : Z)
  : result (list Byte.byte * Z * Z) :=
  match locs with
  | [] => Ok (norm_query, quer_loc, n_quer_loc)
  | loc :: locs' =>
      (* Adjust recorded location if we're dealing with partial string *)
      let off := int32 (location loc - query_loc) in
      let tok_len := length_of_constant loc in
      if tok_len <? 0
      then (* ignore any duplicates *)
        generate_normalized_query_loop query query_loc highest locs' (i + 1)
          norm_query quer_loc n_quer_loc last_off last_tok_len
      else
        (* Copy next chunk (what precedes the next constant) *)
        let len_to_wrt := int32 (int32 (off - last_off) - last_tok_len) in
        chunk ← of_option (mem_read query quer_loc len_to_wrt);
        norm_query ← of_option (mem_write norm_query n_quer_loc chunk);
        let n_quer_loc := int32 (n_quer_loc + len_to_wrt) in
        (* And insert a param symbol in place of the constant token *)
        let symbol := txt "$" ++ sprintf_d (int32 (int32 (i + 1) + highest)) in
        norm_query ← of_option (mem_write norm_query n_quer_loc (symbol ++ [Byte.x00]));
        let n_quer_loc := int32 (n_quer_loc + Z.of_nat (length symbol)) in
        generate_normalized_query_loop query query_loc highest locs' (i + 1)
          norm_query (int32 (off + tok_len)) n_quer_loc off tok_len
  end.

(** [generate_normalized_query] from the point where
    [fill_in_constant_lengths] has returned: [jstate] holds the locations
    sorted, with the lengths that the host's lexer has found.  [buffer] is
    what [palloc] returns for [norm_query], [norm_query_buflen + 1] bytes of
    any content.  The result is the buffer and the length stored in
    [*query_len_p]. *)
Definition generate_normalized_query (buffer : list Byte.byte)
    (jstate : pgssJumbleState) (query : list Byte.byte) (query_loc query_len : Z)
  : result (list Byte.byte * Z) :=
  '(norm_query, quer_loc, n_quer_loc) ←
    generate_normalized_query_loop query query_loc (highest_extern_param_id jstate)
      (clocations jstate) 0 buffer 0 0 0 0;
  (* Copy over the remaining bytes of the original query string *)
  let len_to_wrt := int32 (query_len - quer_loc) in
  chunk ← of_option (mem_read query quer_loc len_to_wrt);
  norm_query ← of_option (mem_write norm_query n_quer_loc chunk);
  let n_quer_loc := int32 (n_quer_loc + len_to_wrt) in
  norm_query ← of_option (mem_write norm_query n_quer_loc [Byte.x00]);
  Ok (norm_query, n_quer_loc).

(** [norm_query_buflen] *)
Definition norm_query_buflen (jstate : pgssJumbleState) (query_len : Z) : Z :=
  int32 (query_len + int32 (Z.of_nat (length (clocations jstate)) * 10)).

End Printed.

(** A statement in pieces: each piece is a stretch of text and the constant
    that follows it, and [rest] is the text behind the last constant. *)
Definition pieces_text (pieces : list (list Byte.byte * list Byte.byte))
    (rest : list Byte.byte) : list Byte.byte :=
  concat (map (fun piece => piece.1 ++ piece.2) pieces) ++ rest.

(** The locations and the lengths of the constants of the pieces, the first
    piece starting at [start]. *)
Fixpoint pieces_locations (start : Z) (pieces : list (list Byte.byte * list Byte.byte))
  : list pgssLocationLen :=
  match pieces with
  | [] => []
  | (text, const) :: pieces' =>
      mkLocationLen (start + Z.of_nat (length text)) (Z.of_nat (length const))
      :: pieces_locations (start + Z.of_nat (length text) + Z.of_nat (length const))
           pieces'
  end.

(** The pieces with the constants replaced by parameter symbols numbered
    from [i]. *)
Fixpoint pieces_normalized (sprintf_d : Z -> list Byte.byte) (i : Z)
    (pieces : list (list Byte.byte * list Byte.byte)) (rest : list Byte.byte)
  : list Byte.byte :=
  match pieces with
  | [] => rest
  | (text, _) :: pieces' =>
      text ++ txt "$" ++ sprintf_d i ++ pieces_normalized sprintf_d (i + 1) pieces' rest
  end.

(** ["%d"] for a C [int]. *)
Fixpoint decimal_digits (fuel : nat) (n : Z) (acc : list Byte.byte) : list Byte.byte :=
  match fuel with
  | O => acc
  | S fuel' =>
      let acc := byte_of_Z (48 + n mod 10) :: acc in
      if n / 10 =? 0 then acc else decimal_digits fuel' (n / 10) acc
  end.

Definition decimal (z : Z) : list Byte.byte :=
  if z <? 0 then txt "-" ++ decimal_digits 10 (- z) [] else decimal_digits 10 z [].

(** White space as the lexer sees it. *)
Definition is_space (b : Byte.byte) : bool :=
  match b with
  | Byte.x20 | Byte.x09 | Byte.x0a | Byte.x0d | Byte.x0c => true
  | _ => false
  end.

(** ** What a walk records *)

(** A step of the walk keeps [R] between the jumble state it finds and the
    one it leaves, whether it returns or raises an error. *)
Definition walk_keeps (R : pgssJumbleState -> pgssJumbleState -> Prop) (m : J unit)
  : Prop :=
  forall js log,
    match m js log with
    | JOk _ js' _ | JError _ _ js' _ => R js js'
    | JFault | JNoFuel => True
    end.

(** A location as [RecordConstLocation] enters it: known, and with a length
    that is still to be found. *)
Definition location_pending (l : pgssLocationLen) : Prop :=
  0 <= location l /\ length_of_constant l = -1.

(** [js'] has the constant locations of [js], in their order, followed by
    pending ones, and its highest external parameter is not below that of
    [js]. *)
Definition constants_recorded (js js' : pgssJumbleState) : Prop :=
  (exists added, clocations js' = clocations js ++ added /\
                 Forall location_pending added) /\
  highest_extern_param_id js <= highest_extern_param_id js'.

(** ** The bucket and the key of a record call *)

Section CallKey.
Context {D : Type} (conf : pgsm_conf D).

Global Instance window_elapsed_dec (hst : host) (st : state D) :
  Decision (window_elapsed conf hst st).
Proof. unfold window_elapsed. apply _. Defined.

(** Whether the call made at the host's time rotates the bucket. *)
Definition rotates (hst : host) (st : state D) : bool :=
  bool_decide (window_elapsed conf hst st).

(** The bucket the call writes to: the next one if it rotates. *)
Definition bucket_of_call (hst : host) (st : state D) : Z :=
  if rotates hst st
  then (current_wbucket st + 1) mod PGSM_MAX_BUCKETS conf
  else current_wbucket st.

(** The fingerprint the call records under: the one it is given, or the
    hash of the statement's text for a utility statement. *)
Definition fingerprint_of_call (query : list Byte.byte) (queryId query_len : Z) : Z :=
  if queryId =? 0
  then hash_any_extended conf (take (Z.to_nat query_len) query)
  else queryId.

Definition key_of_call (hst : host) (st : state D) (query : list Byte.byte)
    (queryId query_len : Z) : pgssHashKey :=
  mkHashKey (GetUserId hst) (MyDatabaseId hst)
    (fingerprint_of_call query queryId query_len) (bucket_of_call hst st).

End CallKey.

(** [conf100] with [pgsm_normalized_query] off: the texts are stored as they
    were written. *)
Definition conf100_raw : pgsm_conf Q :=
  {| PGSM_MAX := 4; PGSM_MAX_BUCKETS := 2; PGSM_BUCKET_TIME := 60;
     PGSM_QUERY_MAX_LEN := 100; PGSM_NORMALIZED_QUERY := false;
     PGSM_RESPOSE_TIME_LOWER_BOUND := 1; PGSM_RESPOSE_TIME_STEP := 1;
     MAX_RESPONSE_BUCKET := 10; MAX_REL_LEN := 16;
     query_buf_size_bucket := 64;
     USAGE_INIT := 1%Q; USAGE_EXEC := fun _ => 1%Q;
     hash_any_extended := fun bs => Z.of_nat (length bs) |}.

(** ** Statements that differ in their constants only *)

(** The tree with the location of every constant taken away (-1, unknown).
    The model of a [Const] holds its type and its location, which is all
    that the walk reads of it: two statements whose trees are equal after
    this differ in their constants only. *)
Fixpoint strip_node (node : Node) : Node :=
  match node with
  | Null => Null
  | Var a b c => Var a b c
  | Const consttype _ => Const consttype (-1)
  | Param a b c => Param a b c
  | Aggref f a b c d e =>
      Aggref f (strip_node a) (strip_node b) (strip_node c) (strip_node d) (strip_node e)
  | GroupingFunc a => GroupingFunc (strip_node a)
  | WindowFunc f r a b => WindowFunc f r (strip_node a) (strip_node b)
  | SubscriptingRef a b c d =>
      SubscriptingRef (strip_node a) (strip_node b) (strip_node c) (strip_node d)
  | FuncExpr f a => FuncExpr f (strip_node a)
  | NamedArgExpr n a => NamedArgExpr n (strip_node a)
  | OpExpr o a => OpExpr o (strip_node a)
  | DistinctExpr o a => DistinctExpr o (strip_node a)
  | NullIfExpr o a => NullIfExpr o (strip_node a)
  | ScalarArrayOpExpr o u a => ScalarArrayOpExpr o u (strip_node a)
  | BoolExpr o a => BoolExpr o (strip_node a)
  | SubLink t i a q => SubLink t i (strip_node a) (strip_query q)
  | FieldSelect n a => FieldSelect n (strip_node a)
  | FieldStore a b => FieldStore (strip_node a) (strip_node b)
  | RelabelType t a => RelabelType t (strip_node a)
  | CoerceViaIO t a => CoerceViaIO t (strip_node a)
  | ArrayCoerceExpr t a b => ArrayCoerceExpr t (strip_node a) (strip_node b)
  | ConvertRowtypeExpr t a => ConvertRowtypeExpr t (strip_node a)
  | CollateExpr c a => CollateExpr c (strip_node a)
  | CaseExpr a ws d => CaseExpr (strip_node a) (strip_whens ws) (strip_node d)
  | CaseTestExpr t => CaseTestExpr t
  | ArrayExpr a => ArrayExpr (strip_node a)
  | RowExpr a => RowExpr (strip_node a)
  | RowCompareExpr t a b => RowCompareExpr t (strip_node a) (strip_node b)
  | CoalesceExpr a => CoalesceExpr (strip_node a)
  | MinMaxExpr o a => MinMaxExpr o (strip_node a)
  | SQLValueFunction o t => SQLValueFunction o t
  | XmlExpr o a b => XmlExpr o (strip_node a) (strip_node b)
  | NullTest t a => NullTest t (strip_node a)
  | BooleanTest t a => BooleanTest t (strip_node a)
  | CoerceToDomain t a => CoerceToDomain t (strip_node a)
  | CoerceToDomainValue t => CoerceToDomainValue t
  | SetToDefault t => SetToDefault t
  | CurrentOfExpr v n p => CurrentOfExpr v n p
  | NextValueExpr s t => NextValueExpr s t
  | InferenceElem c o a => InferenceElem c o (strip_node a)
  | TargetEntry n r a => TargetEntry n r (strip_node a)
  | RangeTblRef i => RangeTblRef i
  | JoinExpr t n i a b c => JoinExpr t n i (strip_node a) (strip_node b) (strip_node c)
  | FromExpr a b => FromExpr (strip_node a) (strip_node b)
  | OnConflictExpr act a b c d con idx e =>
      OnConflictExpr act (strip_node a) (strip_node b) (strip_node c) (strip_node d)
        con idx (strip_node e)
  | List l => List (strip_list l)
  | IntList ints => IntList ints
  | SortGroupClause r e s n => SortGroupClause r e s n
  | GroupingSet a => GroupingSet (strip_node a)
  | WindowClause r f a b c d =>
      WindowClause r f (strip_node a) (strip_node b) (strip_node c) (strip_node d)
  | CommonTableExpr n q => CommonTableExpr n (strip_query q)
  | SetOperationStmt o all a b => SetOperationStmt o all (strip_node a) (strip_node b)
  | RangeTblFunction a => RangeTblFunction (strip_node a)
  | TableFunc a b c => TableFunc (strip_node a) (strip_node b) (strip_node c)
  | TableSampleClause h a b => TableSampleClause h (strip_node a) (strip_node b)
  | Other tag => Other tag
  end
with strip_list (l : NodeList) : NodeList :=
  match l with
  | LNil => LNil
  | LCons n rest => LCons (strip_node n) (strip_list rest)
  end
with strip_whens (ws : WhenList) : WhenList :=
  match ws with
  | WNil => WNil
  | WCons e r rest => WCons (strip_node e) (strip_node r) (strip_whens rest)
  end
with strip_query (q : Query) : Query :=
  match q with
  | mkQuery ct cte rt a b c d e f g h i j k l m =>
      mkQuery ct (strip_node cte) (strip_table rt)
        (strip_node a) (strip_node b) (strip_node c) (strip_node d) (strip_node e)
        (strip_node f) (strip_node g) (strip_node h) (strip_node i) (strip_node j)
        (strip_node k) (strip_node l) (strip_node m)
  end
with strip_table (rt : RangeTable) : RangeTable :=
  match rt with
  | RNil => RNil
  | RCons rte rest => RCons (strip_rte rte) (strip_table rest)
  end
with strip_rte (rte : RangeTblEntry) : RangeTblEntry :=
  match rte with
  | RTE_RELATION r a => RTE_RELATION r (strip_node a)
  | RTE_SUBQUERY q => RTE_SUBQUERY (strip_query q)
  | RTE_JOIN t => RTE_JOIN t
  | RTE_FUNCTION a => RTE_FUNCTION (strip_node a)
  | RTE_TABLEFUNC a => RTE_TABLEFUNC (strip_node a)
  | RTE_VALUES a => RTE_VALUES (strip_node a)
  | RTE_CTE n l => RTE_CTE n l
  | RTE_NAMEDTUPLESTORE n => RTE_NAMEDTUPLESTORE n
  | RTE_OTHER k => RTE_OTHER k
  end.

(** The jumble states [js1] and [js2] hold the same bytes and the same
    highest external parameter. *)
Definition same_jumble (js1 js2 : pgssJumbleState) : Prop :=
  jumble js1 = jumble js2 /\ jumble_len js1 = jumble_len js2 /\
  highest_extern_param_id js1 = highest_extern_param_id js2.

(** Two steps of the walk that do the same to the jumble and to the log. *)
Definition walk_alike (m1 m2 : J unit) : Prop :=
  forall js1 js2 log,
    same_jumble js1 js2 ->
    match m1 js1 log, m2 js2 log with
    | JOk _ js1' log1, JOk _ js2' log2 => same_jumble js1' js2' /\ log1 = log2
    | JError msg1 arg1 js1' log1, JError msg2 arg2 js2' log2 =>
        msg1 = msg2 /\ arg1 = arg2 /\ same_jumble js1' js2' /\ log1 = log2
    | JFault, JFault | JNoFuel, JNoFuel => True
    | _, _ => False
    end.

(** The fingerprint of a statement, if [get_query_id] returns one. *)
Definition query_fingerprint (JUMBLE_SIZE : Z) (hash_any_extended : list Byte.byte -> Z)
    (NodeTag_value : NodeTag -> Z) (stack_has_room : nat -> bool)
    (buffer : list Byte.byte) (query : Query) : option Z :=
  match get_query_id JUMBLE_SIZE hash_any_extended NodeTag_value stack_has_room
          buffer query with
  | JOk id _ _ => Some id
  | _ => None
  end.

(** * Properties

    ** Machine integers and memory *)

Lemma uint64_small z : 0 <= z < 2 ^ 64 -> uint64 z = z.
Proof. intros H. unfold uint64. now apply Z.mod_small. Qed.

Lemma int64_small z : - 2 ^ 63 <= z < 2 ^ 63 -> int64 z = z.
Proof. intros H. unfold int64. rewrite Z.mod_small; lia. Qed.

Lemma int32_small z : - 2 ^ 31 <= z < 2 ^ 31 -> int32 z = z.
Proof. intros H. unfold int32. rewrite Z.mod_small; lia. Qed.

Lemma Z_of_byte_of_Z z : Z_of_byte (byte_of_Z z) = z mod 256.
Proof.
  unfold Z_of_byte, byte_of_Z.
  assert (Hr : 0 <= z mod 256 < 256) by (apply Z.mod_pos_bound; lia).
  destruct (Byte.of_N (Z.to_N (z mod 256))) as [b|] eqn:E.
  - apply Byte.to_of_N in E. rewrite E. lia.
  - apply Byte.of_N_None_iff in E. lia.
Qed.

Lemma length_encode_le n v : length (encode_le n v) = n.
Proof. revert v. induction n as [|n IH]; intros v; simpl; [done|]. by rewrite IH. Qed.

Lemma decode_encode_le n v :
  0 <= v < 256 ^ Z.of_nat n -> decode_le (encode_le n v) = v.
Proof.
  revert v. induction n as [|n IH]; intros v Hv.
  - simpl in *. lia.
  - cbn [encode_le decode_le]. rewrite Z_of_byte_of_Z.
    rewrite IH.
    + pose proof (Z.div_mod v 256). lia.
    + rewrite Nat2Z.inj_succ, Z.pow_succ_r in Hv by lia.
      split; [apply Z.div_pos; lia|].
      apply Z.div_lt_upper_bound; lia.
Qed.

Lemma length_mem_write buf off src buf' :
  mem_write buf off src = Some buf' -> length buf' = length buf.
Proof.
  unfold mem_write. destruct (_ && _) eqn:E; [|done].
  intros [= <-]. apply andb_true_iff in E as [E1 E2].
  apply Z.leb_le in E1, E2.
  rewrite !length_app, length_take, length_drop. lia.
Qed.

(** Reading back what was just written. *)
Lemma mem_read_write_same buf off src buf' :
  mem_write buf off src = Some buf' ->
  mem_read buf' off (Z.of_nat (length src)) = Some src.
Proof.
  intros Hw. pose proof (length_mem_write _ _ _ _ Hw) as Hl.
  unfold mem_write in Hw. destruct (_ && _) eqn:E; [|done].
  injection Hw as <-. apply andb_true_iff in E as [E1 E2].
  apply Z.leb_le in E1, E2.
  unfold mem_read.
  assert ((0 <=? off) && (0 <=? Z.of_nat (length src))
          && (off + Z.of_nat (length src)
              <=? Z.of_nat (length (take (Z.to_nat off) buf ++ src
                    ++ drop (Z.to_nat off + length src)%nat buf))) = true) as ->.
  { rewrite Hl. apply andb_true_iff; split; [apply andb_true_iff; split|];
      apply Z.leb_le; lia. }
  f_equal. rewrite Nat2Z.id.
  rewrite drop_app_length'; [|rewrite length_take; lia].
  by rewrite take_app_length.
Qed.

(** A write leaves the bytes before it and the bytes after it as they were. *)
Lemma mem_read_write_before buf off src buf' o n :
  mem_write buf off src = Some buf' ->
  0 <= o -> 0 <= n -> o + n <= off ->
  mem_read buf' o n = mem_read buf o n.
Proof.
  intros Hw Ho Hn Hon. pose proof (length_mem_write _ _ _ _ Hw) as Hl.
  unfold mem_write in Hw. destruct (_ && _) eqn:E; [|done].
  injection Hw as <-. apply andb_true_iff in E as [E1 E2].
  apply Z.leb_le in E1, E2.
  unfold mem_read. rewrite Hl.
  destruct (_ && _) eqn:E; [|done]. f_equal.
  rewrite !take_drop_commute.
  rewrite take_app_le by (rewrite length_take; lia).
  rewrite take_take. f_equal. f_equal. lia.
Qed.


(** ** The text ring *)

Section TextRingFacts.
Context {D : Type} (conf : pgsm_conf D).

Lemma ring_holds_le buf hd p recs : ring_holds buf hd p recs -> p <= hd.
Proof. induction 1; lia. Qed.

Lemma locate_query_loop_holds buf hd p recs queryid copy :
  0 < query_buf_size_bucket conf < 2 ^ 31 ->
  0 <= hd < query_buf_size_bucket conf ->
  ring_holds buf hd p recs ->
  forall fuel query, (length recs < fuel)%nat ->
    locate_query_loop conf fuel buf hd queryid copy p query
    = Ok (scan queryid copy recs query).
Proof.
  intros Hsz Hhd Hring.
  induction Hring as [|p id text recs Hp Hid Htext Hrid Hrlen Hrtext Hrest IH];
    intros fuel query Hfuel.
  - destruct fuel as [|fuel]; [simpl in Hfuel; lia|].
    simpl. rewrite uint64_small by lia. by rewrite Z.eqb_refl.
  - destruct fuel as [|fuel]; [simpl in Hfuel; lia|].
    pose proof (ring_holds_le _ _ _ _ Hrest) as Hle.
    assert (Hlen : 0 < Z.of_nat (length text)) by (destruct text; [done|simpl; lia]).
    cbn [locate_query_loop scan].
    rewrite (uint64_small hd) by lia.
    destruct (Z.eqb_spec hd p) as [->|_]; [lia|].
    rewrite Hrid. cbn [of_option mbind result_bind].
    rewrite (uint64_small (p + 8)) by lia.
    rewrite Hrlen. cbn [of_option mbind result_bind].
    rewrite !decode_encode_le by (simpl; lia).
    destruct (Z.eqb_spec (Z.of_nat (length text)) 0) as [?|_]; [lia|].
    rewrite (uint64_small (p + 16)) by lia.
    rewrite Hrtext.
    rewrite (uint64_small (16 + _)) by lia.
    rewrite (uint64_small (p + _)) by lia.
    rewrite (uint64_small (query_buf_size_bucket conf)) by lia.
    rewrite Z.mod_small by lia.
    replace (p + (16 + Z.of_nat (length text))) with (p + 16 + Z.of_nat (length text)) by lia.
    destruct copy; cbn [of_option mbind result_bind];
      (destruct (id =? queryid); [done|]); apply IH; simpl in Hfuel; lia.
Qed.


Lemma ring_holds_extend buf buf' hd p recs id text :
  ring_holds buf hd p recs ->
  0 <= hd ->
  (forall o n, 0 <= o -> 0 <= n -> o + n <= hd ->
               mem_read buf' o n = mem_read buf o n) ->
  0 <= id < 2 ^ 64 ->
  text <> [] ->
  mem_read buf' hd 8 = Some (encode_le 8 id) ->
  mem_read buf' (hd + 8) 8 = Some (encode_le 8 (Z.of_nat (length text))) ->
  mem_read buf' (hd + 16) (Z.of_nat (length text)) = Some text ->
  ring_holds buf' (hd + 16 + Z.of_nat (length text)) p (recs ++ [(id, text)]).
Proof.
  intros Hring Hhd Hsame Hid Htext Hr1 Hr2 Hr3.
  induction Hring as [|p id0 text0 recs Hp Hid0 Htext0 Hrid Hrlen Hrtext Hrest IH].
  - simpl. apply ring_holds_cons; try done; [lia|]. apply ring_holds_nil.
  - pose proof (ring_holds_le _ _ _ _ Hrest) as Hle.
    simpl. apply ring_holds_cons; try done; try lia.
    + rewrite Hsame; [done|lia..].
    + rewrite Hsame; [done|lia..].
    + rewrite Hsame; [done|lia..].
Qed.

Lemma scan_absent queryid copy recs query :
  queryid ∉ recs.*1 -> (scan queryid copy recs query).1 = 0.
Proof.
  revert query. induction recs as [|[id text] recs IH]; intros query Hnot; [done|].
  simpl. rewrite fmap_cons, not_elem_of_cons in Hnot. destruct Hnot as [Hne Hnot].
  destruct (Z.eqb_spec id queryid) as [->|_]; [done|]. by apply IH.
Qed.

Lemma scan_app_fresh queryid recs text query :
  queryid ∉ recs.*1 ->
  scan queryid true (recs ++ [(queryid, text)]) query = (queryid, Some text).
Proof.
  revert query. induction recs as [|[id t] recs IH]; intros query Hnot.
  - simpl. by rewrite Z.eqb_refl.
  - simpl. rewrite fmap_cons, not_elem_of_cons in Hnot. destruct Hnot as [Hne Hnot].
    destruct (Z.eqb_spec id queryid) as [->|_]; [done|]. by apply IH.
Qed.

Lemma locate_query_wf st b hd recs fuel queryid copy :
  0 < query_buf_size_bucket conf < 2 ^ 31 ->
  ring_wf conf st b hd recs ->
  (length recs < fuel)%nat ->
  locate_query conf fuel st b queryid copy = Ok (scan queryid copy recs None).
Proof.
  intros Hsz (tl & buf & Hb & Hfifo & Hbuf & Hlen & Htl & Hhd & Hring) Hfuel.
  unfold locate_query, array_get.
  destruct (Z.leb_spec 0 b) as [_|?]; [|lia].
  rewrite Hfifo, Hbuf. cbn [of_option mbind result_bind FIFO_HEAD FIFO_TAIL].
  pose proof (ring_holds_le _ _ _ _ Hring).
  rewrite uint64_small by lia.
  by apply locate_query_loop_holds.
Qed.

Lemma store_query_fresh st hd recs fuel queryid query query_len :
  let n := if uint64 (PGSM_QUERY_MAX_LEN conf) <? query_len
           then uint64 (PGSM_QUERY_MAX_LEN conf) else query_len in
  0 < query_buf_size_bucket conf < 2 ^ 31 ->
  ring_wf conf st (current_wbucket st) hd recs ->
  0 < queryid < 2 ^ 64 ->
  queryid ∉ recs.*1 ->
  0 < n <= Z.of_nat (length query) ->
  hd + n + 16 < query_buf_size_bucket conf ->
  (length recs < fuel)%nat ->
  exists st',
    store_query conf fuel st queryid query query_len = Ok st' /\
    current_wbucket st' = current_wbucket st /\
    elog st' = elog st /\
    ring_wf conf st' (current_wbucket st) (hd + n + 16)
      (recs ++ [(queryid, take (Z.to_nat n) query)]).
Proof.
  intros n Hsz Hwf Hid Hfresh Hn Hfit Hfuel.
  pose proof Hwf as (tl & buf & Hb & Hfifo & Hbuf & Hlen & Htl & Hhd & Hring).
  unfold store_query. fold n.
  rewrite (locate_query_wf _ _ hd recs) by done.
  cbn [mbind result_bind]. rewrite scan_absent by done.
  destruct (Z.eqb_spec 0 queryid) as [?|_]; [lia|].
  unfold array_get. destruct (Z.leb_spec 0 (current_wbucket st)) as [_|?]; [|lia].
  rewrite Hfifo, Hbuf. cbn [of_option mbind result_bind FIFO_HEAD FIFO_TAIL].
  rewrite uint64_small by lia. rewrite int32_small by lia.
  destruct (Z.leb_spec (query_buf_size_bucket conf) (hd + n + 8 + 8)) as [?|_]; [lia|].
  destruct (Z.eqb_spec (hd + n + 8 + 8) hd) as [?|_]; [lia|].
  destruct (mem_write buf hd (encode_le 8 queryid)) as [buf1|] eqn:Hw1; cycle 1.
  { unfold mem_write in Hw1. rewrite length_encode_le in Hw1.
    destruct (Z.leb_spec 0 hd); [|lia].
    destruct (Z.leb_spec (hd + Z.of_nat 8) (Z.of_nat (length buf))); [done|lia]. }
  pose proof (length_mem_write _ _ _ _ Hw1) as Hl1.
  cbn [of_option mbind result_bind].
  destruct (mem_write buf1 (hd + 8) (encode_le 8 n)) as [buf2|] eqn:Hw2; cycle 1.
  { unfold mem_write in Hw2. rewrite length_encode_le in Hw2.
    destruct (Z.leb_spec 0 (hd + 8)); [|lia].
    destruct (Z.leb_spec (hd + 8 + Z.of_nat 8) (Z.of_nat (length buf1))); [done|lia]. }
  pose proof (length_mem_write _ _ _ _ Hw2) as Hl2.
  cbn [of_option mbind result_bind].
  assert (Hrq : mem_read query 0 n = Some (take (Z.to_nat n) query)).
  { unfold mem_read. destruct (Z.leb_spec 0 n); [|lia].
    destruct (Z.leb_spec (0 + n) (Z.of_nat (length query))); [|lia]. done. }
  rewrite Hrq. cbn [of_option mbind result_bind].
  set (text := take (Z.to_nat n) query).
  assert (Htxl : Z.of_nat (length text) = n).
  { subst text. rewrite length_take. lia. }
  destruct (mem_write buf2 (hd + 16) text) as [buf3|] eqn:Hw3; cycle 1.
  { unfold mem_write in Hw3.
    destruct (Z.leb_spec 0 (hd + 16)); [|lia].
    destruct (Z.leb_spec (hd + 16 + Z.of_nat (length text)) (Z.of_nat (length buf2)));
      [done|lia]. }
  pose proof (length_mem_write _ _ _ _ Hw3) as Hl3.
  cbn [of_option mbind result_bind].
  pose proof (lookup_lt_Some _ _ _ Hfifo) as Hlt1.
  pose proof (lookup_lt_Some _ _ _ Hbuf) as Hlt2.
  unfold array_set.
  destruct (Z.leb_spec 0 (current_wbucket st)) as [_|?]; [|lia].
  destruct (Z.ltb_spec (current_wbucket st) (Z.of_nat (length (pgss_qbuf st))))
    as [_|?]; [|lia].
  destruct (Z.ltb_spec (current_wbucket st) (Z.of_nat (length (query_fifo st))))
    as [_|?]; [|lia].
  cbn [andb mbind result_bind].
  eexists. split; [reflexivity|]. split; [done|]. split; [done|].
  exists tl, buf3. split; [done|].
  cbn [query_fifo pgss_qbuf set_query_fifo set_pgss_qbuf].
  split. { rewrite list_lookup_insert_eq by done. do 2 f_equal. lia. }
  split. { by rewrite list_lookup_insert_eq. }
  split; [lia|]. split; [done|]. split; [lia|].
  replace (hd + n + 16) with (hd + 16 + Z.of_nat (length text)) by lia.
  apply ring_holds_extend with (buf := buf); try done; try lia.
  - intros o m Ho Hm Hom.
    rewrite (mem_read_write_before _ _ _ _ _ _ Hw3) by lia.
    rewrite (mem_read_write_before _ _ _ _ _ _ Hw2) by lia.
    by rewrite (mem_read_write_before _ _ _ _ _ _ Hw1) by lia.
  - subst text. intros Hnil. rewrite Hnil in Htxl. simpl in Htxl. lia.
  - rewrite (mem_read_write_before _ _ _ _ _ _ Hw3) by lia.
    rewrite (mem_read_write_before _ _ _ _ _ _ Hw2) by lia.
    pose proof (mem_read_write_same _ _ _ _ Hw1) as Hs.
    by rewrite length_encode_le in Hs.
  - rewrite (mem_read_write_before _ _ _ _ _ _ Hw3) by lia.
    pose proof (mem_read_write_same _ _ _ _ Hw2) as Hs.
    rewrite length_encode_le in Hs. by rewrite Htxl.
  - apply (mem_read_write_same _ _ _ _ Hw3).
Qed.


(** C1 (amended): in a ring that holds well-formed records, storing a
    non-empty text of at most [PGSM_QUERY_MAX_LEN] bytes under a non-zero
    fingerprint that is not in the ring yet, while the record still fits
    before the end of the buffer, writes the record, and [locate_query] in
    the same bucket then returns the fingerprint and exactly that text. *)
Theorem store_then_locate_returns_text st hd recs fuel queryid query :
  ring_conf_ok conf ->
  ring_wf conf st (current_wbucket st) hd recs ->
  0 < queryid < 2 ^ 64 ->
  queryid ∉ recs.*1 ->
  query <> [] ->
  Z.of_nat (length query) <= PGSM_QUERY_MAX_LEN conf ->
  hd + Z.of_nat (length query) + 16 < query_buf_size_bucket conf ->
  (length recs < fuel)%nat ->
  exists st',
    store_query conf fuel st queryid query (Z.of_nat (length query)) = Ok st' /\
    locate_query conf (S fuel) st' (current_wbucket st) queryid true
    = Ok (queryid, Some query).
Proof.
  intros [Hsz Hmax] Hwf Hid Hfresh Hne Hlen Hfit Hfuel.
  assert (Hn : (if uint64 (PGSM_QUERY_MAX_LEN conf) <? Z.of_nat (length query)
                then uint64 (PGSM_QUERY_MAX_LEN conf)
                else Z.of_nat (length query)) = Z.of_nat (length query)).
  { rewrite uint64_small by lia.
    destruct (Z.ltb_spec (PGSM_QUERY_MAX_LEN conf) (Z.of_nat (length query))); [lia|done]. }
  destruct (store_query_fresh st hd recs fuel queryid query (Z.of_nat (length query)))
    as (st' & Hst & Hcur & _ & Hwf'); try done.
  - rewrite Hn. destruct query; [done|]. simpl. lia.
  - by rewrite Hn.
  - exists st'. split; [done|].
    rewrite Hn, Nat2Z.id, firstn_all in Hwf'.
    rewrite (locate_query_wf _ _ _ _ _ _ _ Hsz Hwf')
      by (rewrite length_app; simpl; lia).
    by rewrite scan_app_fresh.
Qed.

(** C10: a text longer than [PGSM_QUERY_MAX_LEN] is stored cut to its first
    [PGSM_QUERY_MAX_LEN] bytes: the record holds the cut text, and
    [locate_query] returns it, not the text that was passed. *)
Theorem store_truncates_long_text st hd recs fuel queryid query :
  ring_conf_ok conf ->
  ring_wf conf st (current_wbucket st) hd recs ->
  0 < queryid < 2 ^ 64 ->
  queryid ∉ recs.*1 ->
  0 < PGSM_QUERY_MAX_LEN conf < Z.of_nat (length query) ->
  hd + PGSM_QUERY_MAX_LEN conf + 16 < query_buf_size_bucket conf ->
  (length recs < fuel)%nat ->
  let cut := take (Z.to_nat (PGSM_QUERY_MAX_LEN conf)) query in
  exists st',
    store_query conf fuel st queryid query (Z.of_nat (length query)) = Ok st' /\
    ring_wf conf st' (current_wbucket st) (hd + PGSM_QUERY_MAX_LEN conf + 16)
      (recs ++ [(queryid, cut)]) /\
    locate_query conf (S fuel) st' (current_wbucket st) queryid true
    = Ok (queryid, Some cut) /\
    cut <> query.
Proof.
  intros [Hsz Hmax] Hwf Hid Hfresh Hlen Hfit Hfuel cut.
  assert (Hn : (if uint64 (PGSM_QUERY_MAX_LEN conf) <? Z.of_nat (length query)
                then uint64 (PGSM_QUERY_MAX_LEN conf)
                else Z.of_nat (length query)) = PGSM_QUERY_MAX_LEN conf).
  { rewrite uint64_small by lia.
    destruct (Z.ltb_spec (PGSM_QUERY_MAX_LEN conf) (Z.of_nat (length query))); [done|lia]. }
  destruct (store_query_fresh st hd recs fuel queryid query (Z.of_nat (length query)))
    as (st' & Hst & Hcur & _ & Hwf'); try done.
  - rewrite Hn. lia.
  - by rewrite Hn.
  - rewrite Hn in Hwf'. fold cut in Hwf'.
    exists st'. split; [done|]. split; [done|]. split.
    + rewrite (locate_query_wf _ _ _ _ _ _ _ Hsz Hwf')
        by (rewrite length_app; simpl; lia).
      by rewrite scan_app_fresh.
    + intros Heq. apply (f_equal length) in Heq.
      subst cut. rewrite length_take in Heq. lia.
Qed.

End TextRingFacts.

Lemma st_one_ring_wf (conf : pgsm_conf Q) :
  query_buf_size_bucket conf = 64 ->
  ring_wf conf st_one 0 24 [(7, txt "SELECT 1")].
Proof.
  intros Hsz. exists 0, (default [] (pgss_qbuf st_one !! 0%nat)).
  rewrite Hsz. repeat split; try done.
  apply ring_holds_cons; try done.
  exact (ring_holds_nil _ 24).
Qed.

Lemma store_then_locate_returns_text_witness :
  exists st',
    store_query conf8 2 st_one 9 (txt "SELECT 2") 8 = Ok st' /\
    locate_query conf8 3 st' 0 9 true = Ok (9, Some (txt "SELECT 2")).
Proof.
  apply (store_then_locate_returns_text conf8 st_one 24 [(7, txt "SELECT 1")]
           2%nat 9 (txt "SELECT 2")).
  - split; simpl; lia.
  - by apply st_one_ring_wf.
  - lia.
  - by vm_compute; intros [?|?]%elem_of_cons; [|set_solver].
  - done.
  - simpl. lia.
  - simpl. lia.
  - simpl. lia.
Defined.

(** C1, as stated, fails: a store that writes its record without any
    capacity warning can be followed by a find that does not return the text
    that was passed, because the text was cut (first part) or because it was
    empty (second part). *)
Lemma store_then_locate_counterexample :
  (exists st',
     store_query conf8 2 st_one 9 (txt "SELECT 22") 9 = Ok st' /\
     elog st' = [] /\
     locate_query conf8 3 st' 0 9 true = Ok (9, Some (txt "SELECT 2")) /\
     txt "SELECT 2" <> txt "SELECT 22") /\
  (exists st',
     store_query conf8 2 st_one 9 [] 0 = Ok st' /\
     elog st' = [] /\
     query_fifo st' !! 0%nat = Some (mkFifo 40 0) /\
     locate_query conf8 3 st' 0 9 true = Ok (0, Some (txt "SELECT 1"))).
Proof.
  split.
  - eexists. split; [vm_compute; reflexivity|]. by repeat split.
  - eexists. split; [vm_compute; reflexivity|]. by repeat split.
Qed.

Lemma store_truncates_long_text_witness :
  exists st',
    store_query conf8 2 st_one 9 (txt "SELECT 22") 9 = Ok st' /\
    ring_wf conf8 st' 0 48 [(7, txt "SELECT 1"); (9, txt "SELECT 2")] /\
    locate_query conf8 3 st' 0 9 true = Ok (9, Some (txt "SELECT 2")) /\
    txt "SELECT 2" <> txt "SELECT 22".
Proof.
  apply (store_truncates_long_text conf8 st_one 24 [(7, txt "SELECT 1")]
           2%nat 9 (txt "SELECT 22")).
  - split; simpl; lia.
  - by apply st_one_ring_wf.
  - lia.
  - by vm_compute; intros [?|?]%elem_of_cons; [|set_solver].
  - simpl. lia.
  - simpl. lia.
  - simpl. lia.
Defined.

(** C10, as stated, fails for stores that the amended claim leaves out.  A
    text longer than the maximum that is stored under a fingerprint the ring
    holds already is not written, and the find returns the text stored
    first, which is not the cut text (first part).  With the head at 40 of 64
    bytes the record of the cut text ends at the end of the buffer: the head
    wraps onto the tail without a log line, and the find returns nothing
    (second part). *)
Lemma store_long_text_not_returned :
  (exists st',
     store_query conf8 2 st_one 7 (txt "UPDATE t SET x = 1") 18 = Ok st' /\
     st' = st_one /\
     locate_query conf8 3 st' 0 7 true = Ok (7, Some (txt "SELECT 1")) /\
     take 8 (txt "UPDATE t SET x = 1") = txt "UPDATE t" /\
     txt "SELECT 1" <> txt "UPDATE t") /\
  (exists st',
     query_fifo st_forty !! 0%nat = Some (mkFifo 40 0) /\
     store_query conf8 3 st_forty 9 (txt "SELECT 22") 9 = Ok st' /\
     elog st' = [] /\
     query_fifo st' !! 0%nat = Some (mkFifo 0 0) /\
     locate_query conf8 4 st' 0 9 true = Ok (0, None)).
Proof.
  split.
  - eexists. split; [vm_compute; reflexivity|]. by repeat split.
  - eexists. split; [by vm_compute|]. split; [vm_compute; reflexivity|].
    by repeat split.
Qed.

(** C2, on the code: with 24 of 64 bytes in use, a store whose record ends
    exactly at the end of the buffer is not rejected.  The record is written,
    no warning is logged, and the head wraps to 0, onto the tail: the ring
    then reads as empty and the text stored before is lost. *)
Lemma store_query_laps_tail :
  exists st',
    store_query conf100 2 st_one 9 (txt "SELECT 333333333333333333") 24 = Ok st' /\
    elog st' = [] /\
    query_fifo st_one !! 0%nat = Some (mkFifo 24 0) /\
    query_fifo st' !! 0%nat = Some (mkFifo 0 0) /\
    pgss_qbuf st' <> pgss_qbuf st_one /\
    locate_query conf100 3 st_one 0 7 true = Ok (7, Some (txt "SELECT 1")) /\
    locate_query conf100 3 st' 0 7 true = Ok (0, None).
Proof.
  eexists. split; [vm_compute; reflexivity|]. by repeat split.
Qed.

(** One byte more and the record is written past the end of the ring. *)
Lemma store_query_writes_past_end :
  store_query conf100 2 st_one 9 (txt "SELECT 3333333333333333333") 25 = SegFault.
Proof. reflexivity. Qed.

(** The only store that [store_query] rejects as "buffer full" is one into a
    ring whose head is at 0: the wrapped [next] is compared with the head. *)
Lemma store_query_full_only_at_zero {D} (conf : pgsm_conf D) fuel st queryid
    query query_len st' fifo :
  ring_conf_ok conf ->
  query_fifo st !! Z.to_nat (current_wbucket st) = Some fifo ->
  0 <= FIFO_HEAD fifo < query_buf_size_bucket conf ->
  0 <= query_len ->
  store_query conf fuel st queryid query query_len = Ok st' ->
  elog st' <> elog st ->
  FIFO_HEAD fifo = 0.
Proof.
  intros [Hsz Hmax] Hfifo Hhd Hlen. unfold store_query.
  destruct (locate_query _ _ _ _ _ _) as [found| |]; cbn [mbind result_bind]; try done.
  destruct (found.1 =? queryid); [congruence|].
  unfold array_get. destruct (0 <=? current_wbucket st); [|by cbn].
  rewrite Hfifo. cbn [of_option mbind result_bind].
  destruct (pgss_qbuf st !! _) as [buf|]; cbn [of_option mbind result_bind]; [|done].
  rewrite (uint64_small (PGSM_QUERY_MAX_LEN conf)) by lia.
  set (n := if PGSM_QUERY_MAX_LEN conf <? query_len then _ else _).
  assert (Hn : 0 <= n < 2 ^ 31).
  { subst n. destruct (Z.ltb_spec (PGSM_QUERY_MAX_LEN conf) query_len); lia. }
  rewrite uint64_small by lia.
  set (next := int32 _).
  assert (Hnext : next <> FIFO_HEAD fifo).
  { subst next. unfold int32.
    destruct (Z.lt_ge_cases (FIFO_HEAD fifo + n + 8 + 8) (2 ^ 31)).
    - rewrite Z.mod_small; lia.
    - replace (FIFO_HEAD fifo + n + 8 + 8 + 2 ^ 31)
        with ((FIFO_HEAD fifo + n + 8 + 8 - 2 ^ 31) + 1 * 2 ^ 32) by lia.
      rewrite Z.mod_add by lia. rewrite Z.mod_small; lia. }
  destruct (Z.eqb_spec (if query_buf_size_bucket conf <=? next then 0 else next)
              (FIFO_HEAD fifo)) as [Heq|_].
  - intros _ _. destruct (query_buf_size_bucket conf <=? next); [done|]. by destruct Hnext.
  - destruct (mem_write buf _ _); cbn [of_option mbind result_bind]; [|done].
    destruct (mem_write _ _ _); cbn [of_option mbind result_bind]; [|done].
    destruct (mem_read _ _ _); cbn [of_option mbind result_bind]; [|done].
    destruct (mem_write _ _ _); cbn [of_option mbind result_bind]; [|done].
    destruct (array_set (pgss_qbuf st) _ _); cbn [mbind result_bind]; try done.
    destruct (array_set (query_fifo st) _ _); cbn [mbind result_bind]; try done.
    intros [= <-] Hne. exfalso. apply Hne. reflexivity.
Qed.

(** ** The statistics store *)

Section HashTables.
Context `{Countable K} {V : Type}.

(** Removing the listed entries, each under its own key. *)
Lemma lookup_foldl_delete (l : list (K * V)) (m : gmap K V) (k : K) :
  foldl (fun h e => delete e.1 h) m l !! k
  = if decide (k ∈ l.*1) then None else m !! k.
Proof.
  revert m. induction l as [|[k0 v0] l IH]; intros m; [done|].
  cbn [foldl]. rewrite IH. rewrite fmap_cons. cbn [fst].
  destruct (decide (k ∈ l.*1)) as [Hin|Hnin].
  - rewrite decide_True; [done|]. apply elem_of_cons. by right.
  - destruct (decide (k = k0)) as [->|Hne].
    + rewrite decide_True; [|apply elem_of_cons; by left]. apply lookup_delete_eq.
    + rewrite decide_False.
      * by apply lookup_delete_ne.
      * rewrite elem_of_cons. by intros [?|?].
Qed.

Lemma elem_of_filter_map_to_list (p : K -> bool) (m : gmap K V) (k : K) :
  k ∈ (List.filter (fun e => p e.1) (map_to_list m)).*1
  <-> is_Some (m !! k) /\ p k = true.
Proof.
  rewrite list_elem_of_fmap. split.
  - intros ([k' v] & -> & Hin). apply list_elem_of_In, filter_In in Hin as [Hin Hp].
    apply list_elem_of_In, elem_of_map_to_list in Hin. by split; [eexists|].
  - intros [[v Hv] Hp]. exists (k, v). split; [done|].
    apply list_elem_of_In, filter_In. split; [|done].
    by apply list_elem_of_In, elem_of_map_to_list.
Qed.

(** The two passes of [entry_dealloc] over one table. *)
Lemma lookup_dealloc (p : K -> bool) (m : gmap K V) (k : K) :
  foldl (fun h e => delete e.1 h) m
    (List.filter (fun e => p e.1) (map_to_list m)) !! k
  = if p k then None else m !! k.
Proof.
  rewrite lookup_foldl_delete.
  destruct (decide _) as [Hin|Hnin].
  - apply elem_of_filter_map_to_list in Hin as [_ ->]. done.
  - destruct (p k) eqn:Hp; [|done].
    destruct (m !! k) as [v|] eqn:Hk; [|done].
    destruct Hnin. apply elem_of_filter_map_to_list. by split; [eexists|].
Qed.

(** A loop that removes every entry under its own key leaves nothing. *)
Lemma foldl_delete_all (m : gmap K V) :
  foldl (fun h e => delete e.1 h) m (map_to_list m) = ∅.
Proof.
  apply map_eq. intros k. rewrite lookup_foldl_delete, lookup_empty.
  destruct (decide _) as [|Hnin]; [done|].
  destruct (m !! k) as [v|] eqn:Hk; [|done].
  destruct Hnin. apply list_elem_of_fmap. exists (k, v). split; [done|].
  by apply elem_of_map_to_list.
Qed.

End HashTables.

Section Rotation.
Context {D : Type} {DD : Double D} (conf : pgsm_conf D).

Lemma entry_dealloc_spec (b : Z) (st : state D) :
  0 <= b < Z.of_nat (length (bucket_entry st)) ->
  b < 2 ^ 31 ->
  exists st',
    entry_dealloc b st = Ok st' /\
    (forall k, pgss_hash st' !! k
               = if key_bucket_id k =? b then None else pgss_hash st !! k) /\
    (forall k, pgss_agghash st' !! k
               = if agg_bucket_id k =? b then None else pgss_agghash st !! k) /\
    bucket_entry st' = <[Z.to_nat b := 0]> (bucket_entry st) /\
    current_wbucket st' = current_wbucket st /\
    prev_bucket_usec st' = prev_bucket_usec st /\
    bucket_overflow st' = bucket_overflow st /\
    query_fifo st' = query_fifo st /\
    pgss_qbuf st' = pgss_qbuf st /\
    pgss_object_hash st' = pgss_object_hash st /\
    pgss_buckethash st' = pgss_buckethash st /\
    pgss_waiteventshash st' = pgss_waiteventshash st /\
    elog st' = elog st /\
    cur_median_usage st' = cur_median_usage st.
Proof.
  intros Hb Hb31. unfold entry_dealloc, array_set.
  destruct (Z.leb_spec 0 b) as [_|?]; [|lia].
  destruct (Z.ltb_spec b (Z.of_nat (length (bucket_entry st)))) as [_|?]; [|lia].
  cbn [andb mbind result_bind]. eexists. split; [reflexivity|].
  cbn. rewrite uint64_small by lia.
  destruct (Z.ltb_spec b 0) as [?|_]; [lia|].
  repeat split.
  - intros k.
    rewrite (lookup_dealloc (fun k => (key_bucket_id k =? b) || false)).
    by rewrite orb_false_r.
  - intros k.
    rewrite (lookup_dealloc (fun k => (agg_bucket_id k =? b) || false)).
    by rewrite orb_false_r.
Qed.

Lemma get_next_wbucket_rotates (hst : host) (st : state D) :
  buckets_wf conf st ->
  window_elapsed conf hst st ->
  let b := (current_wbucket st + 1) mod PGSM_MAX_BUCKETS conf in
  exists st',
    get_next_wbucket conf hst st = Ok (b, st') /\
    (forall k, pgss_hash st' !! k
               = if key_bucket_id k =? b then None else pgss_hash st !! k) /\
    (forall k, pgss_agghash st' !! k
               = if agg_bucket_id k =? b then None else pgss_agghash st !! k) /\
    query_fifo st' !! Z.to_nat b = Some (mkFifo 0 0) /\
    bucket_entry st' !! Z.to_nat b = Some 0 /\
    prev_bucket_usec st' = uint64 (tv_sec hst) /\
    resp_calls <$> pgss_buckethash st' !! b = resp_calls <$> pgss_buckethash st !! b /\
    current_wbucket st' = current_wbucket st /\
    pgss_object_hash st' = pgss_object_hash st.
Proof.
  intros (Hmax & Hcur & Hlen1 & Hlen2 & Hlen3 & Hbk) Hel b.
  assert (Hb : 0 <= b < PGSM_MAX_BUCKETS conf) by (apply Z.mod_pos_bound; lia).
  unfold get_next_wbucket. unfold window_elapsed in Hel.
  destruct (Z.ltb_spec (uint64 (PGSM_BUCKET_TIME conf))
              (uint64 (uint64 (tv_sec hst) - prev_bucket_usec st))) as [_|?]; [|lia].
  rewrite (uint64_small (current_wbucket st + 1)) by lia.
  rewrite (uint64_small (PGSM_MAX_BUCKETS conf)) by lia.
  assert (Hbeq : (if current_wbucket st + 1 =? PGSM_MAX_BUCKETS conf
                  then 0 else current_wbucket st + 1) = b).
  { subst b. destruct (Z.eqb_spec (current_wbucket st + 1) (PGSM_MAX_BUCKETS conf)) as [->|?].
    - by rewrite Z.mod_same by lia.
    - rewrite Z.mod_small; lia. }
  rewrite Hbeq. rewrite int32_small by lia.
  destruct (entry_dealloc_spec b st) as (st1 & -> & Hh & Ha & Hbe & Hc & Hp & Ho & Hf & Hq
                                          & Hobj & Hbh & Hw & Hlog); [lia..|].
  cbn [mbind result_bind]. unfold array_set. rewrite Hf.
  destruct (Z.leb_spec 0 b) as [_|?]; [|lia].
  destruct (Z.ltb_spec b (Z.of_nat (length (query_fifo st)))) as [_|?]; [|lia].
  cbn [andb mbind result_bind].
  cbn [pgss_buckethash set_prev_bucket_usec set_query_fifo].
  rewrite Hbh. destruct (Hbk b Hb) as [be Hbe'].
  rewrite Hbe'. cbn [of_option mbind result_bind].
  eexists. split; [reflexivity|]. cbn.
  repeat split; try done.
  - apply list_lookup_insert_eq. lia.
  - rewrite Hbe. apply list_lookup_insert_eq. lia.
  - by rewrite lookup_insert_eq.
Qed.

(** C3 (amended): when the bucket window has elapsed, the first part of a
    record call moves the current bucket once, to the next id modulo the
    number of buckets, however long ago the last rotation was.  No
    statistics entry and no rollup entry of the reused bucket is left, the
    entries of the other buckets stay, the bucket's text ring has head and
    tail 0, and the time of the rotation is the host's.  The response-time
    histogram of the bucket is as it was. *)
Theorem rotation_advances_once_and_evicts (hst : host) (st : state D)
    (query : list Byte.byte) (queryId query_len : Z) :
  buckets_wf conf st ->
  window_elapsed conf hst st ->
  let b := (current_wbucket st + 1) mod PGSM_MAX_BUCKETS conf in
  exists key reset tables_name st',
    pgss_store_key conf hst st query queryId query_len
    = Ok (key, reset, tables_name, st') /\
    key_bucket_id key = b /\
    current_wbucket st' = b /\
    (forall k, key_bucket_id k = b -> pgss_hash st' !! k = None) /\
    (forall k, key_bucket_id k <> b -> pgss_hash st' !! k = pgss_hash st !! k) /\
    (forall k, agg_bucket_id k = b -> pgss_agghash st' !! k = None) /\
    (forall k, agg_bucket_id k <> b -> pgss_agghash st' !! k = pgss_agghash st !! k) /\
    query_fifo st' !! Z.to_nat b = Some (mkFifo 0 0) /\
    prev_bucket_usec st' = uint64 (tv_sec hst) /\
    resp_calls <$> pgss_buckethash st' !! b = resp_calls <$> pgss_buckethash st !! b.
Proof.
  intros Hwf Hel b. unfold pgss_store_key.
  set (qid := if queryId =? 0 then _ else queryId).
  set (st0 := match pgss_object_hash st !! qid with
              | Some name => (_, set_pgss_object_hash _ st)
              | None => ([], st)
              end).
  assert (Hst0 : exists o, st0.2 = set_pgss_object_hash o st).
  { subst st0. destruct (pgss_object_hash st !! qid); [by eexists|].
    exists (pgss_object_hash st). by destruct st. }
  destruct st0 as [tn st0]. destruct Hst0 as [o Hst0]. cbn [snd] in Hst0. subst st0.
  destruct (get_next_wbucket_rotates hst (set_pgss_object_hash o st))
    as (st1 & Hg & Hh & Ha & Hf & _ & Hp & Hr & Hc & _); [done..|].
  cbn [current_wbucket pgss_hash pgss_agghash pgss_buckethash
       set_pgss_object_hash] in Hg, Hh, Ha, Hf, Hr, Hc.
  fold b in Hg, Hh, Ha, Hf, Hr. rewrite Hg. cbn [mbind result_bind].
  do 4 eexists. split; [reflexivity|]. cbn [key_bucket_id].
  split; [done|].
  destruct (Z.eqb_spec b (current_wbucket st1)) as [Heq|Hne]; cbn [negb];
    (split; [done|]);
    cbn [pgss_hash pgss_agghash pgss_buckethash query_fifo prev_bucket_usec
         set_current_wbucket];
    repeat split; try done.
  all: intros k Hk; rewrite ?Hh, ?Ha.
  all: try (by rewrite Hk, Z.eqb_refl).
  all: try (by destruct (Z.eqb_spec (key_bucket_id k) b)).
  all: by destruct (Z.eqb_spec (agg_bucket_id k) b).
Qed.

End Rotation.

Lemma st_t200_buckets_wf : buckets_wf conf8 st_t200.
Proof.
  unfold buckets_wf. change (PGSM_MAX_BUCKETS conf8) with 2.
  split; [lia|].
  split; [by vm_compute|].
  split; [by vm_compute|].
  split; [by vm_compute|].
  split; [by vm_compute|].
  intros b Hb.
  assert (b = 0 \/ b = 1) as [-> | ->] by lia; vm_compute; by eexists.
Qed.

Lemma rotation_advances_once_and_evicts_witness :
  exists key reset tables_name st',
    pgss_store_key conf8 (host_at 300) st_t200 (txt "SELECT 3") 9 8
    = Ok (key, reset, tables_name, st') /\
    current_wbucket st_t200 = 0 /\
    current_wbucket st' = 1 /\
    query_fifo st' !! 1%nat = Some (mkFifo 0 0).
Proof.
  destruct (rotation_advances_once_and_evicts conf8 (host_at 300) st_t200
              (txt "SELECT 3") 9 8)
    as (key & reset & tn & st' & Hk & _ & Hc & _ & _ & _ & _ & Hf & _).
  - exact st_t200_buckets_wf.
  - by vm_compute.
  - exists key, reset, tn, st'. by repeat split.
Defined.

(** C3, as stated, fails: bucket 1 was written at second 100 and is reused
    by the call at second 300.  Its histogram still counts the call of second
    100 after the rotation, and after the whole call it counts both. *)
Lemma rotation_keeps_histogram :
  resp_calls <$> pgss_buckethash st_t200 !! 1 = Some [0; 1; 0; 0; 0; 0; 0; 0; 0; 0] /\
  (exists key reset tables_name st',
     pgss_store_key conf8 (host_at 300) st_t200 (txt "SELECT 3") 9 8
     = Ok (key, reset, tables_name, st') /\
     current_wbucket st' = 1 /\
     resp_calls <$> pgss_buckethash st' !! 1 = Some [0; 1; 0; 0; 0; 0; 0; 0; 0; 0]) /\
  (exists st',
     record_at conf8 300 st_t200 "SELECT 3" 9 (1 # 2) = Ok st' /\
     current_wbucket st' = 1 /\
     resp_calls <$> pgss_buckethash st' !! 1 = Some [1; 1; 0; 0; 0; 0; 0; 0; 0; 0]).
Proof.
  split; [by vm_compute|]. split.
  - do 4 eexists. split; [vm_compute; reflexivity|]. by vm_compute.
  - eexists. split; [vm_compute; reflexivity|]. by vm_compute.
Qed.

Section Capacity.
Context {D : Type} {DD : Double D} (conf : pgsm_conf D).

(** What [entry_alloc] does when there is no room. *)
Lemma entry_alloc_at_capacity (st : state D) key enc sticky n ov :
  0 <= current_wbucket st ->
  bucket_entry st !! Z.to_nat (current_wbucket st) = Some n ->
  bucket_overflow st !! Z.to_nat (current_wbucket st) = Some ov ->
  uint64 (PGSM_MAX conf ÷ PGSM_MAX_BUCKETS conf) <= n \/
  PGSM_MAX conf <= Z.of_nat (size (pgss_hash st)) ->
  entry_alloc conf st key enc sticky
  = Ok (None,
        if uint64 (PGSM_MAX conf ÷ PGSM_MAX_BUCKETS conf) <=? n
        then set_bucket_overflow
               (<[Z.to_nat (current_wbucket st) := uint64 (ov + 1)]> (bucket_overflow st)) st
        else st).
Proof.
  intros Hcur Hn Hov Hcap. unfold entry_alloc, array_get, array_set.
  destruct (Z.leb_spec 0 (current_wbucket st)) as [_|?]; [|lia].
  rewrite Hn. cbn [of_option mbind result_bind].
  destruct (Z.leb_spec (uint64 (PGSM_MAX conf ÷ PGSM_MAX_BUCKETS conf)) n) as [_|Hlt].
  - rewrite Hov. cbn [of_option mbind result_bind].
    pose proof (lookup_lt_Some _ _ _ Hov).
    destruct (Z.ltb_spec (current_wbucket st) (Z.of_nat (length (bucket_overflow st))))
      as [_|?]; [|lia].
    done.
  - destruct Hcap as [?|Hcap]; [lia|].
    by destruct (Z.leb_spec (PGSM_MAX conf) (Z.of_nat (size (pgss_hash st)))) as [_|?]; [|lia].
Qed.

(** C4: a record call whose key is not in the table, made when the current
    bucket holds its share of entries or the table holds [PGSM_MAX] entries,
    creates nothing and returns normally.  The statistics table, the rollup
    table, the histograms, the text rings and the log are as they were when
    the entry was looked up; of all the state only the overflow counter of
    the current bucket changes, by one, and only when the bucket's share is
    reached. *)
Theorem store_at_capacity_drops (fuel : nat) (hst : host) (st st1 : state D)
    (query : list Byte.byte) (queryId query_len : Z) (kind : bool)
    (total_time : D) (nrows : Z) (bufusage : Blocks D)
    (jstate : option (list Byte.byte)) (utime stime : D)
    (key : pgssHashKey) (reset : bool) (tables_name : list Byte.byte) (n ov : Z) :
  is_Some (pgss_qbuf st !! Z.to_nat (current_wbucket st)) ->
  pgss_store_key conf hst st query queryId query_len
  = Ok (key, reset, tables_name, st1) ->
  pgss_hash st1 !! key = None ->
  0 <= current_wbucket st1 ->
  bucket_entry st1 !! Z.to_nat (current_wbucket st1) = Some n ->
  bucket_overflow st1 !! Z.to_nat (current_wbucket st1) = Some ov ->
  uint64 (PGSM_MAX conf ÷ PGSM_MAX_BUCKETS conf) <= n \/
  PGSM_MAX conf <= Z.of_nat (size (pgss_hash st1)) ->
  exists st',
    pgss_store conf fuel hst st query queryId query_len kind total_time nrows
      bufusage jstate utime stime = Ok st' /\
    pgss_hash st' = pgss_hash st1 /\
    pgss_agghash st' = pgss_agghash st1 /\
    pgss_buckethash st' = pgss_buckethash st1 /\
    pgss_qbuf st' = pgss_qbuf st1 /\
    query_fifo st' = query_fifo st1 /\
    bucket_entry st' = bucket_entry st1 /\
    current_wbucket st' = current_wbucket st1 /\
    elog st' = elog st1 /\
    bucket_overflow st'
    = (if uint64 (PGSM_MAX conf ÷ PGSM_MAX_BUCKETS conf) <=? n
       then <[Z.to_nat (current_wbucket st1) := uint64 (ov + 1)]> (bucket_overflow st1)
       else bucket_overflow st1).
Proof.
  intros [buf Hbuf] Hkey Hnone Hcur Hn Hov Hcap.
  unfold pgss_store. rewrite Hbuf, Hkey. cbn [mbind result_bind].
  unfold pgss_store_entry. rewrite Hnone.
  destruct jstate as [norm|];
    rewrite (entry_alloc_at_capacity st1 key _ _ n ov) by done;
    cbn [mbind result_bind]; eexists; (split; [reflexivity|]);
    by destruct (uint64 (PGSM_MAX conf ÷ PGSM_MAX_BUCKETS conf) <=? n).
Qed.

End Capacity.

Lemma store_at_capacity_drops_witness :
  exists st',
    record_at conf8 2 st_two "SELECT 3" 9 (3 # 2) = Ok st' /\
    pgss_hash st' = pgss_hash st_two /\
    bucket_overflow st_two = [0; 0] /\
    bucket_overflow st' = [1; 0].
Proof.
  destruct (store_at_capacity_drops conf8 5 (host_at 2) st_two st_two
              (txt "SELECT 3") 9 8 true (3 # 2) 1 one_block None 0%Q 0%Q
              (mkHashKey 10 5 9 0) false [] 2 0)
    as (st' & Hst & Hh & _ & _ & _ & _ & _ & _ & _ & Hov).
  - by vm_compute; eexists.
  - by vm_compute.
  - by vm_compute.
  - by vm_compute.
  - by vm_compute.
  - by vm_compute.
  - left. by vm_compute.
  - exists st'. split; [exact Hst|]. split; [exact Hh|]. split; [by vm_compute|].
    rewrite Hov. by vm_compute.
Defined.

Section Reset.
Context {D : Type} {DD : Double D} (conf : pgsm_conf D).

(** [entry_reset] ends only if the bucket table and the wait-event table are
    empty already: with an entry in either, the key it passes to
    [hash_search] is read through a [NULL] pointer. *)
Lemma entry_reset_null_key (st : state D) :
  pgss_buckethash st <> ∅ \/ pgss_waiteventshash st <> ∅ ->
  entry_reset st = SegFault.
Proof.
  intros Hne. unfold entry_reset. cbv zeta.
  destruct (map_to_list (pgss_buckethash st)) as [|e l] eqn:Eb; [|done].
  apply map_to_list_empty_iff in Eb. destruct Hne as [?|Hw]; [done|].
  cbn [fold_result mbind result_bind].
  destruct (map_to_list (pgss_waiteventshash st)) as [|e l] eqn:Ew; [|done].
  by apply map_to_list_empty_iff in Ew.
Qed.

(** The first two loops, which use the entry at hand, empty their tables. *)
Lemma entry_reset_empty_tables (st : state D) :
  pgss_buckethash st = ∅ ->
  pgss_waiteventshash st = ∅ ->
  exists st',
    entry_reset st = Ok st' /\
    pgss_hash st' = ∅ /\ pgss_agghash st' = ∅ /\
    pgss_buckethash st' = ∅ /\ pgss_waiteventshash st' = ∅ /\
    current_wbucket st' = 0.
Proof.
  intros Hb Hw. unfold entry_reset.
  rewrite Hb, Hw, map_to_list_empty. cbn [fold_result mbind result_bind].
  eexists. split; [reflexivity|]. cbn.
  by rewrite !foldl_delete_all.
Qed.

End Reset.

(** C8, on the code: after start-up the bucket table has an entry for every
    bucket, and [entry_reset] does not return; the bucket table and the
    wait-event table are never emptied. *)
Lemma entry_reset_after_startup :
  entry_reset st_init = SegFault /\
  entry_reset st_t200 = SegFault.
Proof. split; by vm_compute. Qed.

(** ** The response-time histogram *)

Lemma Q_ltb_lt (x y : Q) : d_ltb x y = true <-> (x < y)%Q.
Proof.
  cbn [d_ltb Q_Double]. rewrite Qlt_alt. by destruct (x ?= y)%Q.
Qed.

Lemma Q_ltb_ge (x y : Q) : d_ltb x y = false <-> (y <= x)%Q.
Proof.
  rewrite <- not_true_iff_false, Q_ltb_lt. split.
  - apply Qnot_lt_le.
  - apply Qle_not_lt.
Qed.

Section Histogram.
Context (conf : pgsm_conf Q).
Hypothesis Hok : resp_conf_ok conf.

Lemma resp_edge_int32 i :
  0 <= i <= MAX_RESPONSE_BUCKET conf ->
  int32 (PGSM_RESPOSE_TIME_LOWER_BOUND conf + int32 (PGSM_RESPOSE_TIME_STEP conf * i))
  = resp_edge conf i.
Proof.
  destruct Hok as (Hmax & Hstep & Hlow & Hsm & Htop). unfold resp_edge in *.
  intros Hi.
  assert (0 <= PGSM_RESPOSE_TIME_STEP conf * i
          <= PGSM_RESPOSE_TIME_STEP conf * MAX_RESPONSE_BUCKET conf) by nia.
  rewrite (int32_small (_ * _)) by lia. rewrite int32_small; lia.
Qed.

Lemma resp_edge_mono i j : i <= j -> resp_edge conf i <= resp_edge conf j.
Proof. destruct Hok as (_ & Hstep & _). unfold resp_edge. nia. Qed.

(** The loop stops at the first cell whose edge is above the duration. *)
Lemma resp_loop_spec n i (t : Q) :
  0 <= i -> i + Z.of_nat n <= MAX_RESPONSE_BUCKET conf ->
  match resp_loop conf n i t with
  | Some j => i <= j < i + Z.of_nat n /\ (t < inject_Z (resp_edge conf j))%Q /\
              forall k, i <= k < j -> (inject_Z (resp_edge conf k) <= t)%Q
  | None => forall k, i <= k < i + Z.of_nat n -> (inject_Z (resp_edge conf k) <= t)%Q
  end.
Proof.
  revert i. induction n as [|n IH]; intros i Hi Hn.
  - cbn [resp_loop]. intros k Hk. lia.
  - cbn [resp_loop]. rewrite resp_edge_int32 by lia.
    destruct (d_ltb t _) eqn:E.
    + apply Q_ltb_lt in E. split; [lia|]. split; [done|]. intros k Hk. lia.
    + apply Q_ltb_ge in E. specialize (IH (i + 1)).
      destruct (resp_loop conf n (i + 1) t) as [j|].
      * destruct IH as (Hj & Hlt & Hbelow); [lia..|].
        split; [lia|]. split; [done|]. intros k Hk.
        destruct (Z.eq_dec k i) as [->|]; [done|]. apply Hbelow. lia.
      * intros k Hk. destruct (Z.eq_dec k i) as [->|]; [done|]. apply IH; lia.
Qed.

(** A duration from the edge of the last cell of the loop up to the edge
    the catch-all test uses is counted in no cell. *)
Lemma resp_cells_gap (t : Q) :
  (inject_Z (resp_edge conf (MAX_RESPONSE_BUCKET conf - 2)) <= t)%Q ->
  (t <= inject_Z (resp_edge conf (MAX_RESPONSE_BUCKET conf)))%Q ->
  resp_cells conf t = [].
Proof.
  intros Hlo Hhi. pose proof Hok as (Hmax & _).
  unfold resp_cells.
  pose proof (resp_loop_spec (Z.to_nat (MAX_RESPONSE_BUCKET conf - 1)) 0 t) as Hl.
  destruct (resp_loop _ _ _ _) as [j|].
  - destruct Hl as (Hj & Hlt & _); [lia..|]. exfalso.
    apply (Qlt_irrefl t). eapply Qlt_le_trans; [exact Hlt|].
    eapply Qle_trans; [|exact Hlo]. rewrite <- Zle_Qle. apply resp_edge_mono. lia.
  - rewrite resp_edge_int32 by lia. cbn [d_of_Z Q_Double].
    by apply Q_ltb_ge in Hhi as ->.
Qed.

(** Below that edge a duration is counted once, in the cell above the
    greatest edge that is not above it; a duration on an edge goes to the
    higher cell. *)
Lemma resp_cells_below (t : Q) :
  (t < inject_Z (resp_edge conf (MAX_RESPONSE_BUCKET conf - 2)))%Q ->
  exists j,
    resp_cells conf t = [j] /\
    0 <= j <= MAX_RESPONSE_BUCKET conf - 2 /\
    (t < inject_Z (resp_edge conf j))%Q /\
    (0 < j -> (inject_Z (resp_edge conf (j - 1)) <= t)%Q).
Proof.
  intros Hlt. pose proof Hok as (Hmax & _).
  unfold resp_cells.
  pose proof (resp_loop_spec (Z.to_nat (MAX_RESPONSE_BUCKET conf - 1)) 0 t) as Hl.
  assert (Hcatch : d_ltb (inject_Z (resp_edge conf (MAX_RESPONSE_BUCKET conf))) t = false).
  { apply Q_ltb_ge. apply Qlt_le_weak. eapply Qlt_le_trans; [exact Hlt|].
    rewrite <- Zle_Qle. apply resp_edge_mono. lia. }
  rewrite resp_edge_int32 by lia. cbn [d_of_Z Q_Double]. rewrite Hcatch.
  destruct (resp_loop _ _ _ _) as [j|].
  - destruct Hl as (Hj & Hltj & Hbelow); [lia..|].
    exists j. split; [done|]. split; [lia|]. split; [done|].
    intros Hpos. apply Hbelow. lia.
  - exfalso. apply (Qlt_irrefl t). eapply Qlt_le_trans; [exact Hlt|].
    apply Hl; lia.
Qed.

(** Above the top edge a duration is counted once, in the last cell. *)
Lemma resp_cells_above (t : Q) :
  (inject_Z (resp_edge conf (MAX_RESPONSE_BUCKET conf)) < t)%Q ->
  resp_cells conf t = [MAX_RESPONSE_BUCKET conf - 1].
Proof.
  intros Hgt. pose proof Hok as (Hmax & _).
  unfold resp_cells.
  pose proof (resp_loop_spec (Z.to_nat (MAX_RESPONSE_BUCKET conf - 1)) 0 t) as Hl.
  rewrite resp_edge_int32 by lia. cbn [d_of_Z Q_Double].
  apply Q_ltb_lt in Hgt as Hgt'. rewrite Hgt'.
  destruct (resp_loop _ _ _ _) as [j|]; [|done].
  destruct Hl as (Hj & Hltj & _); [lia..|]. exfalso.
  apply (Qlt_irrefl t). eapply Qlt_trans; [exact Hltj|].
  eapply Qle_lt_trans; [|exact Hgt]. rewrite <- Zle_Qle. apply resp_edge_mono. lia.
Qed.

End Histogram.

Lemma conf8_resp_ok : resp_conf_ok conf8.
Proof. unfold resp_conf_ok, resp_edge. cbn. lia. Qed.

(** C6, on the code: with ten cells, floor 1 and step 1, the durations 9,
    9.5 and 11 milliseconds are counted in no cell, in exact arithmetic and
    in binary64 alike; 8 goes to cell 8 and 12 to the last cell. *)
Lemma resp_cells_skips_durations :
  resp_cells conf8 (9 # 1) = [] /\
  resp_cells conf8 (19 # 2) = [] /\
  resp_cells conf8 (11 # 1) = [] /\
  resp_cells conf8_float 9%float = [] /\
  resp_cells conf8_float 9.5%float = [] /\
  resp_cells conf8_float 11%float = [] /\
  resp_cells conf8 (8 # 1) = [8] /\
  resp_cells conf8 (12 # 1) = [9].
Proof. repeat split; by vm_compute. Qed.

(** ** Mean and variance *)

Section WelfordRun.
Context {D : Type} {DD : Double D} (conf : pgsm_conf D).

Lemma update_counters_time (hst : host) (kind : bool) (x : D) (c : Counters D) (n : Z) :
  calls (kget kind (c_calls c)) = n ->
  (0 <= n < 2 ^ 63 - 1)%Z ->
  let c' := update_counters conf hst kind x 0 zero_blocks (d_of_Z 0) (d_of_Z 0) [] c in
  calls (kget kind (c_calls c')) = (n + 1)%Z /\
  kget kind (c_time c') = update_time (n + 1)%Z x (kget kind (c_time c)).
Proof.
  intros Hn Hr c'. subst c'. unfold update_counters, update_calls.
  rewrite Hn. rewrite !(int64_small (n + 1)) by lia.
  by destruct kind.
Qed.

(** The timing of a kind is updated by [update_time] alone. *)
Lemma record_times_welford_run (hst : host) (kind : bool) (l : list D) :
  forall c : Counters D,
  0 <= calls (kget kind (c_calls c)) ->
  calls (kget kind (c_calls c)) + Z.of_nat (length l) < 2 ^ 63 ->
  kget kind (c_time (record_times conf hst kind l c))
  = welford_run (calls (kget kind (c_calls c))) l (kget kind (c_time c)).
Proof.
  induction l as [|x l IH]; intros c H0 Hlen; [done|].
  cbn [record_times foldl welford_run]. cbn [length] in Hlen.
  destruct (update_counters_time hst kind x c _ eq_refl) as [Hc Ht]; [lia|].
  set (c1 := update_counters _ _ _ _ _ _ _ _ _ c) in *.
  fold (record_times conf hst kind l c1).
  rewrite IH, Hc, Ht; [done|lia..].
Qed.

End WelfordRun.

Section Welford.
Context (conf : pgsm_conf Q).

Local Open Scope Q_scope.

Lemma d_sum_snoc (p : list Q) (x : Q) : d_sum (p ++ [x]) = d_sum p + x.
Proof. unfold d_sum. by rewrite foldl_snoc. Qed.

Lemma sum_sq_dev_snoc (m : Q) (p : list Q) (x : Q) :
  sum_sq_dev m (p ++ [x]) = sum_sq_dev m p + (x - m) * (x - m).
Proof. unfold sum_sq_dev. by rewrite foldl_snoc. Qed.

Lemma sum_sq_snoc (p : list Q) (x : Q) : sum_sq (p ++ [x]) = sum_sq p + x * x.
Proof. unfold sum_sq. by rewrite foldl_snoc. Qed.

Lemma sum_sq_dev_expand (m : Q) (l : list Q) :
  sum_sq_dev m l
  == sum_sq l - 2 * m * d_sum l + inject_Z (Z.of_nat (length l)) * m * m.
Proof.
  induction l as [|x p IH] using rev_ind.
  - unfold sum_sq_dev, sum_sq, d_sum.
    cbn [foldl length d_of_Z Q_Double]. change (inject_Z (Z.of_nat 0)) with 0.
    change (inject_Z 0) with 0. ring.
  - rewrite sum_sq_dev_snoc, sum_sq_snoc, d_sum_snoc, length_app, IH.
    cbn [length]. rewrite Nat2Z.inj_add, inject_Z_plus.
    change (inject_Z (Z.of_nat 1)) with 1. ring.
Qed.

Lemma update_time_inv (p : list Q) (n : Z) (t : CallTime Q) (x : Q) :
  welford_inv p n t ->
  welford_inv (p ++ [x]) (n + 1) (update_time (n + 1)%Z x t).
Proof.
  intros [Hn Hinv]. split; [rewrite length_app; cbn [length]; lia|].
  destruct t as [total mn mx mean sv]. cbn [mean_time sum_var_time] in Hinv.
  destruct p as [|y p].
  - subst n. change (Z.of_nat (length (@nil Q)) + 1)%Z with 1%Z.
    cbn [app update_time Z.eqb Pos.eqb mean_time sum_var_time].
    unfold d_sum, sum_sq. cbn [foldl d_of_Z d_add Q_Double].
    change (inject_Z 1) with 1. change (inject_Z 0) with 0.
    split; [ring|]. rewrite Hinv. ring.
  - destruct Hinv as [Hmean Hsv].
    assert (Hnpos : (0 < n)%Z) by (subst n; cbn [length]; lia).
    cbn [update_time]. destruct (Z.eqb_spec (n + 1) 1) as [?|_]; [lia|].
    cbn [app]. change (y :: p ++ [x]) with ((y :: p) ++ [x]).
    cbn [mean_time sum_var_time d_add d_sub d_mul d_div d_of_Z Q_Double].
    rewrite d_sum_snoc, sum_sq_snoc, <- Hmean, Hsv, inject_Z_plus.
    change (inject_Z 1) with 1.
    assert (Hne : ~ inject_Z n + 1 == 0).
    { change 1 with (inject_Z 1). rewrite <- inject_Z_plus. change 0 with (inject_Z 0).
      rewrite inject_Z_injective. lia. }
    split; field; exact Hne.
Qed.

Lemma welford_run_inv (l : list Q) : forall (p : list Q) (n : Z) (t : CallTime Q),
  welford_inv p n t ->
  welford_inv (p ++ l) (n + Z.of_nat (length l))%Z (welford_run n l t).
Proof.
  induction l as [|x l IH]; intros p n t Hinv.
  - cbn. by rewrite app_nil_r, Z.add_0_r.
  - cbn [welford_run length].
    rewrite (assoc_L app p [x] l : p ++ x :: l = (p ++ [x]) ++ l).
    replace (n + Z.of_nat (S (length l)))%Z with (n + 1 + Z.of_nat (length l))%Z by lia.
    apply IH. by apply update_time_inv.
Qed.

(** In exact arithmetic the mean and the variance accumulator kept by
    [update_time] are those of the direct computation. *)
Lemma welford_run_matches_two_pass (l : list Q) :
  l <> [] ->
  let t := welford_run 0 l zero_time in
  mean_time t == two_pass_mean l /\ sum_var_time t == two_pass_ssd l.
Proof.
  intros Hne t.
  pose proof (welford_run_inv l [] 0%Z zero_time) as Hinv.
  cbn [app] in Hinv.
  destruct Hinv as [Hn Hinv]; [split; [done|cbn; reflexivity]|].
  fold t in Hinv. destruct l as [|x l]; [done|]. destruct Hinv as [Hmean Hsv].
  rewrite Z.add_0_l in Hmean, Hsv.
  set (n := Z.of_nat (length (x :: l))) in *.
  assert (Hnz : ~ inject_Z n == 0).
  { change 0 with (inject_Z 0). rewrite inject_Z_injective. subst n. cbn [length]. lia. }
  assert (Hm : mean_time t == two_pass_mean (x :: l)).
  { unfold two_pass_mean. cbn [d_div d_of_Z Q_Double]. fold n. rewrite <- Hmean.
    field. exact Hnz. }
  split; [exact Hm|].
  unfold two_pass_ssd. rewrite sum_sq_dev_expand, <- Hm, <- Hmean. fold n.
  rewrite Hsv. ring.
Qed.

(** The same of the counters of an entry. *)
Lemma welford_matches_two_pass_exact (hst : host) (kind : bool) (l : list Q) :
  l <> [] ->
  (Z.of_nat (length l) < 2 ^ 63)%Z ->
  let t := kget kind (c_time (record_times conf hst kind l zero_counters)) in
  mean_time t == two_pass_mean l /\ sum_var_time t == two_pass_ssd l.
Proof.
  intros Hne Hlen t. subst t.
  rewrite record_times_welford_run by (destruct kind; cbn; lia).
  replace (calls (kget kind (c_calls zero_counters))) with 0%Z by (by destruct kind).
  replace (kget kind (c_time (@zero_counters Q _))) with (@zero_time Q _)
    by (by destruct kind).
  by apply welford_run_matches_two_pass.
Qed.

End Welford.

(** ** Mean and variance in binary64 *)

Section TrackedDoubles.




















End TrackedDoubles.




(** ** The query jumble *)

Section JumbleFacts.
Variable JUMBLE_SIZE : Z.
Variable hash_any_extended : list Byte.byte -> Z.
Hypothesis HJS : 8 < JUMBLE_SIZE < 2 ^ 63.

Local Abbreviation fold_append := (fold_append JUMBLE_SIZE hash_any_extended).
Local Abbreviation jumble_wf := (jumble_wf JUMBLE_SIZE).

(** Bytes that fit are appended as they are. *)
Lemma fold_append_chunk chunk acc rest :
  Z.of_nat (length acc + length chunk) <= JUMBLE_SIZE ->
  fold_append acc (chunk ++ rest) = fold_append (acc ++ chunk) rest.
Proof.
  revert acc. induction chunk as [|b chunk IH]; intros acc Hlen.
  - by rewrite app_nil_r.
  - cbn [app fold_append]. cbn [length] in Hlen.
    destruct (Z.leb_spec JUMBLE_SIZE (Z.of_nat (length acc))) as [?|_]; [lia|].
    rewrite IH; [by rewrite <- app_assoc|].
    rewrite length_app. cbn [length]. lia.
Qed.

Lemma AppendJumble_loop_spec fuel : forall item jumble len,
  Z.of_nat (length jumble) = JUMBLE_SIZE ->
  0 <= len <= JUMBLE_SIZE ->
  (length item <= fuel)%nat ->
  exists jumble' len',
    AppendJumble_loop JUMBLE_SIZE hash_any_extended fuel jumble len item
    = Ok (jumble', len') /\
    Z.of_nat (length jumble') = JUMBLE_SIZE /\
    0 <= len' <= JUMBLE_SIZE /\
    take (Z.to_nat len') jumble' = fold_append (take (Z.to_nat len) jumble) item.
Proof.
  induction fuel as [|fuel IH]; intros item jumble len Hsz Hlen Hfuel;
    (destruct item as [|b rest0]; [by exists jumble, len|]);
    [cbn [length] in Hfuel; lia|].
  cbn [AppendJumble_loop].
  set (acc := take (Z.to_nat len) jumble).
  assert (Hacc : Z.of_nat (length acc) = len) by (subst acc; rewrite length_take; lia).
  set (acc1 := if JUMBLE_SIZE <=? Z.of_nat (length acc)
               then encode_le 8 (hash_any_extended acc) else acc).
  assert (Hstep : exists jumble1 len1,
             (if JUMBLE_SIZE <=? len
              then full ← of_option (mem_read jumble 0 JUMBLE_SIZE);
                   jumble0 ← of_option (mem_write jumble 0
                                          (encode_le 8 (hash_any_extended full)));
                   Ok (jumble0, 8)
              else Ok (jumble, len)) = Ok (jumble1, len1) /\
             Z.of_nat (length jumble1) = JUMBLE_SIZE /\
             0 <= len1 < JUMBLE_SIZE /\
             take (Z.to_nat len1) jumble1 = acc1).
  { subst acc1. rewrite Hacc.
    destruct (Z.leb_spec JUMBLE_SIZE len) as [Hfull|Hroom].
    - assert (len = JUMBLE_SIZE) as -> by lia.
      assert (Hall : acc = jumble).
      { subst acc. apply take_ge. lia. }
      unfold mem_read.
      destruct (Z.leb_spec 0 JUMBLE_SIZE) as [_|?]; [|lia].
      destruct (Z.leb_spec (0 + JUMBLE_SIZE) (Z.of_nat (length jumble))) as [_|?]; [|lia].
      cbn [andb Z.leb Z.compare of_option mbind result_bind].
      change (drop (Z.to_nat 0) jumble) with jumble.
      fold acc. rewrite Hall.
      destruct (mem_write jumble 0 (encode_le 8 (hash_any_extended jumble)))
        as [jumble1|] eqn:Hw; cycle 1.
      { unfold mem_write in Hw. rewrite length_encode_le in Hw.
        destruct (Z.leb_spec (0 + Z.of_nat 8) (Z.of_nat (length jumble))); [done|lia]. }
      cbn [of_option mbind result_bind].
      exists jumble1, 8. split; [done|].
      pose proof (length_mem_write _ _ _ _ Hw) as Hl.
      split; [lia|]. split; [lia|].
      pose proof (mem_read_write_same _ _ _ _ Hw) as Hr.
      rewrite length_encode_le in Hr. unfold mem_read in Hr.
      destruct (_ && _) in Hr; [|done]. by injection Hr.
    - exists jumble, len. by repeat split; try lia. }
  destruct Hstep as (jumble1 & len1 & -> & Hsz1 & Hlen1 & Hacc1).
  cbn [mbind result_bind].
  rewrite (uint64_small (JUMBLE_SIZE - len1)) by lia.
  set (part := Z.min (Z.of_nat (length (b :: rest0))) (JUMBLE_SIZE - len1)).
  assert (Hpart : 1 <= part <= Z.of_nat (length (b :: rest0)) /\ len1 + part <= JUMBLE_SIZE).
  { subst part. cbn [length]. lia. }
  destruct Hpart as [Hp1 Hp2].
  destruct (Z.to_nat part) as [|p] eqn:Hp; [lia|].
  cbn [take drop].
  set (chunk := b :: take p rest0).
  assert (Hchunk : Z.of_nat (length chunk) = part).
  { subst chunk. cbn [length] in *. rewrite length_take. lia. }
  destruct (mem_write jumble1 len1 chunk) as [jumble2|] eqn:Hw; cycle 1.
  { unfold mem_write in Hw.
    destruct (Z.leb_spec 0 len1); [|lia].
    destruct (Z.leb_spec (len1 + Z.of_nat (length chunk)) (Z.of_nat (length jumble1)));
      [done|lia]. }
  cbn [of_option mbind result_bind].
  pose proof (length_mem_write _ _ _ _ Hw) as Hl2.
  rewrite (uint64_small (len1 + part)) by lia.
  destruct (IH (drop p rest0) jumble2 (len1 + part)) as (jumble' & len' & Hrun & Hsz' & Hlen' & Hused).
  { lia. }
  { lia. }
  { rewrite length_drop. cbn [length] in Hfuel. lia. }
  exists jumble', len'. split; [exact Hrun|]. split; [done|]. split; [done|].
  rewrite Hused. cbn [fold_append]. fold acc1.
  assert (Htake2 : take (Z.to_nat (len1 + part)) jumble2 = acc1 ++ chunk).
  { unfold mem_write in Hw. destruct (_ && _) in Hw; [|done]. injection Hw as <-.
    rewrite <- Hacc1.
    set (used := take (Z.to_nat len1) jumble1).
    set (after := drop _ jumble1).
    transitivity (take (length (used ++ chunk)) ((used ++ chunk) ++ after)).
    - f_equal.
      + subst used. rewrite length_app, length_take. lia.
      + by rewrite <- app_assoc.
    - apply take_app_length. }
  rewrite Htake2. subst chunk.
  replace (acc1 ++ b :: take p rest0) with ((acc1 ++ [b]) ++ take p rest0)
    by (by rewrite <- app_assoc).
  rewrite <- fold_append_chunk.
  - by rewrite take_drop.
  - rewrite length_app, length_take. cbn [length] in *.
    assert (Z.of_nat (length acc1) = len1).
    { rewrite <- Hacc1, length_take. lia. }
    lia.
Qed.

(** What [AppendJumble] does to a well-formed state. *)
Lemma AppendJumble_bounded_fold_aux (item : list Byte.byte) (js : pgssJumbleState)
    (log : jumble_log) :
  jumble_wf js ->
  exists js',
    AppendJumble JUMBLE_SIZE hash_any_extended item js log = JOk () js' log /\
    jumble_wf js' /\
    jumble_used js' = fold_append (jumble_used js) item /\
    clocations js' = clocations js /\
    clocations_buf_size js' = clocations_buf_size js /\
    highest_extern_param_id js' = highest_extern_param_id js.
Proof.
  intros [Hsz Hlen]. unfold AppendJumble.
  destruct (AppendJumble_loop_spec (length item) item (jumble js) (jumble_len js))
    as (jumble' & len' & -> & Hsz' & Hlen' & Hused); [done..|].
  eexists. split; [reflexivity|].
  split; [by split|]. split; [exact Hused|]. done.
Qed.

(** C9: [AppendJumble] returns for every item, whatever its size, leaves the
    buffer at its [JUMBLE_SIZE] bytes and the length within it, and the
    bytes in use afterwards are those of folding the item into the bytes in
    use before: bytes that fit are appended as they are, and a byte that
    finds the buffer full is appended to the hash of the whole buffer.
    Nothing else of the state and no log line changes. *)
Theorem AppendJumble_bounded_fold (item : list Byte.byte) (js : pgssJumbleState)
    (log : jumble_log) :
  jumble_wf js ->
  exists js',
    AppendJumble JUMBLE_SIZE hash_any_extended item js log = JOk () js' log /\
    jumble_wf js' /\
    jumble_used js' = fold_append (jumble_used js) item /\
    clocations js' = clocations js /\
    clocations_buf_size js' = clocations_buf_size js /\
    highest_extern_param_id js' = highest_extern_param_id js.
Proof. apply AppendJumble_bounded_fold_aux. Qed.

End JumbleFacts.

Lemma fresh_jumble_wf : jumble_wf 1024 fresh_jumble.
Proof. split; [by vm_compute|]. cbn. lia. Qed.

Lemma AppendJumble_bounded_fold_witness :
  exists js',
    AppendJumble 1024 toy_hash (replicate 1500 Byte.x61) fresh_jumble [] = JOk () js' [] /\
    jumble_wf 1024 js' /\
    jumble_used js' = fold_append 1024 toy_hash [] (replicate 1500 Byte.x61).
Proof.
  destruct (AppendJumble_bounded_fold 1024 toy_hash ltac:(lia) (replicate 1500 Byte.x61)
              fresh_jumble [] fresh_jumble_wf) as (js' & Hrun & Hwf & Hused & _).
  exists js'. split; [exact Hrun|]. split; [exact Hwf|]. exact Hused.
Defined.

Scheme Node_mut := Induction for Node Sort Prop
  with NodeList_mut := Induction for NodeList Sort Prop
  with WhenList_mut := Induction for WhenList Sort Prop
  with Query_mut := Induction for Query Sort Prop
  with RangeTable_mut := Induction for RangeTable Sort Prop
  with RangeTblEntry_mut := Induction for RangeTblEntry Sort Prop.

Combined Scheme tree_mutind from Node_mut, NodeList_mut, WhenList_mut, Query_mut,
  RangeTable_mut, RangeTblEntry_mut.

Lemma notices_added_refl (l : jumble_log) : notices_added l l.
Proof. exists []. by rewrite app_nil_r. Qed.

Lemma notices_added_trans (l1 l2 l3 : jumble_log) :
  notices_added l1 l2 -> notices_added l2 l3 -> notices_added l1 l3.
Proof.
  intros (a & -> & Ha) (b & -> & Hb). exists (a ++ b).
  split; [by rewrite app_assoc|]. by apply Forall_app.
Qed.

Lemma notices_app (e1 e2 : list walk_event) :
  notices (e1 ++ e2) = notices e1 ++ notices e2.
Proof. apply omap_app. Qed.

Lemma recorded_constants_app (e1 e2 : list walk_event) :
  recorded_constants (e1 ++ e2) = recorded_constants e1 ++ recorded_constants e2.
Proof. apply omap_app. Qed.

Lemma notices_are_notices (l : jumble_log) (events : list walk_event) :
  notices_added l (l ++ notices events).
Proof.
  exists (notices events). split; [done|].
  unfold notices. induction events as [|[loc|tag] events IH]; cbn [omap list_omap].
  - constructor.
  - exact IH.
  - by constructor.
Qed.

Section JumbleWalk.
Variable JUMBLE_SIZE : Z.
Variable hash_any_extended : list Byte.byte -> Z.
Variable NodeTag_value : NodeTag -> Z.
Variable stack_has_room : nat -> bool.
Hypothesis HJS : 8 < JUMBLE_SIZE < 2 ^ 63.
Hypothesis Hstack : forall depth, stack_has_room depth = true.

Local Abbreviation wspec := (walk_spec JUMBLE_SIZE).

Lemma wspec_eq (m : J unit) (known known' : bool) (events events' : list walk_event) :
  wspec m known events -> known = known' -> events = events' ->
  wspec m known' events'.
Proof. by intros H <- <-. Qed.

(** A step that changes neither the recorded constants nor the log. *)
Lemma wspec_quiet (m : J unit) :
  (forall js log, jumble_wf JUMBLE_SIZE js ->
     exists js', m js log = JOk () js' log /\ jumble_wf JUMBLE_SIZE js' /\
                 clocations js' = clocations js) ->
  wspec m true [].
Proof.
  intros Hm js log Hwf. destruct (Hm js log Hwf) as (js' & Hrun & Hwf' & Hc).
  exists js'. cbn. by rewrite !app_nil_r.
Qed.

Lemma wspec_ret : wspec (mret ()) true [].
Proof. apply wspec_quiet. intros js log Hwf. by exists js. Qed.

Lemma wspec_bind (m : J unit) (k : unit -> J unit) (known1 known2 : bool)
    (events1 events2 : list walk_event) :
  wspec m known1 events1 -> (forall u, wspec (k u) known2 events2) ->
  wspec (m ≫= k) (known1 && known2) (events1 ++ events2).
Proof.
  intros Hm Hk js log Hwf. specialize (Hm js log Hwf).
  unfold mbind, J_bind. destruct known1; cbn [andb].
  - destruct Hm as (js1 & -> & Hwf1 & Hc1).
    specialize (Hk () js1 (log ++ notices events1) Hwf1).
    destruct known2.
    + destruct Hk as (js2 & -> & Hwf2 & Hc2). exists js2.
      rewrite notices_app, recorded_constants_app, Hc2, Hc1, !app_assoc. done.
    + destruct Hk as (kind & js2 & log2 & -> & Hlog). exists kind, js2, log2.
      split; [done|].
      eapply notices_added_trans; [apply notices_are_notices|exact Hlog].
  - destruct Hm as (kind & js1 & log1 & -> & Hlog). by exists kind, js1, log1.
Qed.

Lemma wspec_AppendJumble item :
  wspec (AppendJumble JUMBLE_SIZE hash_any_extended item) true [].
Proof.
  apply wspec_quiet. intros js log Hwf.
  destruct (AppendJumble_bounded_fold_aux JUMBLE_SIZE hash_any_extended HJS item js log Hwf)
    as (js' & Hrun & Hwf' & _ & Hc & _).
  by exists js'.
Qed.

Lemma wspec_APP_JUMB w item :
  wspec (APP_JUMB JUMBLE_SIZE hash_any_extended w item) true [].
Proof. apply wspec_AppendJumble. Qed.

Lemma wspec_APP_JUMB_BOOL item :
  wspec (APP_JUMB_BOOL JUMBLE_SIZE hash_any_extended item) true [].
Proof. apply wspec_AppendJumble. Qed.

Lemma wspec_APP_JUMB_STRING str :
  wspec (APP_JUMB_STRING JUMBLE_SIZE hash_any_extended str) true [].
Proof. apply wspec_AppendJumble. Qed.

Lemma wspec_RecordConstLocation loc :
  wspec (RecordConstLocation loc) true [Constant loc].
Proof.
  intros js log Hwf. unfold RecordConstLocation, recorded_constants.
  cbn [notices omap list_omap].
  destruct (0 <=? loc); eexists; rewrite !app_nil_r; (split; [reflexivity|]);
    (split; [exact Hwf|done]).
Qed.

Lemma wspec_track_extern_param kind id :
  wspec (track_extern_param kind id) true [].
Proof.
  apply wspec_quiet. intros js log Hwf. unfold track_extern_param.
  destruct (_ && _); eexists; (split; [reflexivity|]); by split.
Qed.

Lemma wspec_unrecognized_node tag :
  wspec (jelog INFO "unrecognized node type: %d" tag) true [Unrecognized tag].
Proof. intros js log Hwf. exists js. cbn. by rewrite app_nil_r. Qed.

Lemma wspec_unrecognized_rte kind :
  wspec (jelog ERROR "unrecognized RTE kind: %d" kind) false [].
Proof.
  intros js log Hwf. exists kind, js, log. split; [done|]. apply notices_added_refl.
Qed.

Lemma wspec_check_stack_depth depth :
  wspec (check_stack_depth stack_has_room depth) true [].
Proof. unfold check_stack_depth. rewrite Hstack. apply wspec_ret. Qed.

Lemma wspec_JumbleInts ints :
  wspec (JumbleInts JUMBLE_SIZE hash_any_extended ints) true [].
Proof.
  induction ints as [|i ints IH]; cbn [JumbleInts]; [apply wspec_ret|].
  apply (wspec_bind _ _ true true [] []); [apply wspec_APP_JUMB|]. by intros [].
Qed.

Local Abbreviation jExpr :=
  (JumbleExpr JUMBLE_SIZE hash_any_extended NodeTag_value stack_has_room).
Local Abbreviation jList :=
  (JumbleList JUMBLE_SIZE hash_any_extended NodeTag_value stack_has_room).
Local Abbreviation jWhens :=
  (JumbleWhens JUMBLE_SIZE hash_any_extended NodeTag_value stack_has_room).
Local Abbreviation jQuery :=
  (JumbleQuery JUMBLE_SIZE hash_any_extended NodeTag_value stack_has_room).
Local Abbreviation jEntries :=
  (JumbleEntries JUMBLE_SIZE hash_any_extended NodeTag_value stack_has_room).
Local Abbreviation jEntry :=
  (JumbleEntry JUMBLE_SIZE hash_any_extended NodeTag_value stack_has_room).

Ltac wspec_walk :=
  repeat lazymatch goal with
    | |- wspec (mret _) _ _ => apply wspec_ret
    | |- wspec (mbind _ _) _ _ => eapply wspec_bind; [|intros []]
    | |- wspec (APP_JUMB _ _ _ _) _ _ => apply wspec_APP_JUMB
    | |- wspec (APP_JUMB_BOOL _ _ _) _ _ => apply wspec_APP_JUMB_BOOL
    | |- wspec (APP_JUMB_STRING _ _ _) _ _ => apply wspec_APP_JUMB_STRING
    | |- wspec (RecordConstLocation _) _ _ => apply wspec_RecordConstLocation
    | |- wspec (track_extern_param _ _) _ _ => apply wspec_track_extern_param
    | |- wspec (jelog INFO _ _) _ _ => apply wspec_unrecognized_node
    | |- wspec (jelog ERROR _ _) _ _ => apply wspec_unrecognized_rte
    | |- wspec (check_stack_depth _ _) _ _ => apply wspec_check_stack_depth
    | |- wspec (JumbleInts _ _ _) _ _ => apply wspec_JumbleInts
    | IH : forall depth, wspec (_ depth ?t) _ _ |- wspec (_ _ ?t) _ _ => apply IH
    end.

Lemma Jumble_walk_spec :
  (forall node depth,
     wspec (jExpr depth node) (node_rtes_known node) (node_events node)) /\
  (forall l depth, wspec (jList depth l) (list_rtes_known l) (list_events l)) /\
  (forall ws depth, wspec (jWhens depth ws) (whens_rtes_known ws) (whens_events ws)) /\
  (forall q depth, wspec (jQuery depth q) (query_rtes_known q) (query_events q)) /\
  (forall rt depth, wspec (jEntries depth rt) (table_rtes_known rt) (table_events rt)) /\
  (forall rte depth, wspec (jEntry depth rte) (rte_known rte) (rte_events rte)).
Proof.
  apply tree_mutind;
    cbn [JumbleExpr JumbleList JumbleWhens JumbleQuery JumbleEntries JumbleEntry
         node_rtes_known list_rtes_known whens_rtes_known query_rtes_known
         table_rtes_known rte_known
         node_events list_events whens_events query_events table_events rte_events];
    intros; try (destruct cursor_name);
    (eapply wspec_eq;
     [wspec_walk
     |cbn [andb]; rewrite ?andb_true_r, ?andb_assoc; reflexivity
     |cbn [app]; rewrite ?app_nil_r; reflexivity]).
Qed.

End JumbleWalk.

(** C7 (amended): a node whose tag [JumbleExpr] has no case for adds its tag
    to the jumble and one notice to the log (first part), and the walk goes
    on with what follows the node (second part).  The walk of a tree in
    which every range-table entry is of a kind that [JumbleRangeTable] has a
    case for returns, with the buffer within its bounds, and has then logged
    one notice for every unrecognized node of the tree and recorded every
    constant of the tree that has a known location, those behind an
    unrecognized node too (third part).  A tree with a range-table entry of
    any other kind raises an error (fourth part), once the kind of the entry
    is jumbled, and the entries after it are not walked (fifth part). *)
Theorem unrecognized_node_skipped_rte_raises (JUMBLE_SIZE : Z)
    (hash_any_extended : list Byte.byte -> Z) (NodeTag_value : NodeTag -> Z)
    (stack_has_room : nat -> bool) :
  8 < JUMBLE_SIZE < 2 ^ 63 ->
  (forall depth, stack_has_room depth = true) ->
  (forall tag depth js log,
     jumble_wf JUMBLE_SIZE js ->
     exists js',
       JumbleExpr JUMBLE_SIZE hash_any_extended NodeTag_value stack_has_room
         depth (Other tag) js log
       = JOk () js' (log ++ [(INFO, "unrecognized node type: %d"%string, tag)]) /\
       jumble_wf JUMBLE_SIZE js' /\
       jumble_used js'
       = fold_append JUMBLE_SIZE hash_any_extended (jumble_used js) (encode_le 4 tag)) /\
  (forall tag rest depth js log,
     jumble_wf JUMBLE_SIZE js ->
     exists js1,
       jumble_wf JUMBLE_SIZE js1 /\
       jumble_used js1
       = fold_append JUMBLE_SIZE hash_any_extended (jumble_used js) (encode_le 4 tag) /\
       clocations js1 = clocations js /\
       JumbleList JUMBLE_SIZE hash_any_extended NodeTag_value stack_has_room
         depth (LCons (Other tag) rest) js log
       = JumbleList JUMBLE_SIZE hash_any_extended NodeTag_value stack_has_room
           depth rest js1 (log ++ [(INFO, "unrecognized node type: %d"%string, tag)])) /\
  (forall query depth js log,
     query_rtes_known query = true ->
     jumble_wf JUMBLE_SIZE js ->
     exists js',
       JumbleQuery JUMBLE_SIZE hash_any_extended NodeTag_value stack_has_room
         depth query js log = JOk () js' (log ++ notices (query_events query)) /\
       jumble_wf JUMBLE_SIZE js' /\
       clocations js' = clocations js ++ recorded_constants (query_events query)) /\
  (forall query depth js log,
     query_rtes_known query = false ->
     jumble_wf JUMBLE_SIZE js ->
     exists kind js' log',
       JumbleQuery JUMBLE_SIZE hash_any_extended NodeTag_value stack_has_room
         depth query js log = JError "unrecognized RTE kind: %d" kind js' log' /\
       notices_added log log') /\
  (forall kind rest depth js log,
     jumble_wf JUMBLE_SIZE js ->
     exists js',
       JumbleRangeTable JUMBLE_SIZE hash_any_extended NodeTag_value stack_has_room
         depth (RCons (RTE_OTHER kind) rest) js log
       = JError "unrecognized RTE kind: %d" kind js' log /\
       jumble_used js'
       = fold_append JUMBLE_SIZE hash_any_extended (jumble_used js) (encode_le 4 kind)).
Proof.
  intros HJS Hstack.
  destruct (Jumble_walk_spec JUMBLE_SIZE hash_any_extended NodeTag_value
              stack_has_room HJS Hstack) as (_ & _ & _ & Hquery & _).
  split; [|split; [|split; [|split]]].
  - intros tag depth js log Hwf.
    destruct (AppendJumble_bounded_fold_aux JUMBLE_SIZE hash_any_extended HJS
                (encode_le 4 tag) js log Hwf) as (js' & Hrun & Hwf' & Hused & _).
    exists js'. split; [|by split].
    cbn [JumbleExpr]. unfold check_stack_depth. rewrite Hstack.
    unfold mbind, J_bind, mret, J_ret, APP_JUMB. cbn [node_type].
    by rewrite Hrun.
  - intros tag rest depth js log Hwf.
    destruct (AppendJumble_bounded_fold_aux JUMBLE_SIZE hash_any_extended HJS
                (encode_le 4 tag) js log Hwf) as (js1 & Hrun & Hwf1 & Hused & Hc & _).
    exists js1. split; [done|]. split; [done|]. split; [done|].
    cbn [JumbleList JumbleExpr]. unfold check_stack_depth. rewrite Hstack.
    unfold mbind, J_bind, mret, J_ret, APP_JUMB. cbn [node_type].
    by rewrite Hrun.
  - intros query depth js log Hknown Hwf.
    specialize (Hquery query depth js log Hwf). by rewrite Hknown in Hquery.
  - intros query depth js log Hknown Hwf.
    specialize (Hquery query depth js log Hwf). by rewrite Hknown in Hquery.
  - intros kind rest depth js log Hwf.
    destruct (AppendJumble_bounded_fold_aux JUMBLE_SIZE hash_any_extended HJS
                (encode_le 4 kind) js log Hwf) as (js' & Hrun & Hwf' & Hused & _).
    exists js'. split; [|done].
    unfold JumbleRangeTable. cbn [JumbleEntries JumbleEntry rtekind].
    unfold mbind, J_bind, APP_JUMB. by rewrite Hrun.
Qed.

(** A constant behind an unrecognized node is recorded. *)
Lemma unrecognized_node_skipped_rte_raises_witness :
  exists js',
    JumbleQuery 1024 toy_hash toy_tags (fun _ => true) 0
      (query_of (List (LCons (Other 999) (LCons (Const 23 7) LNil))) RNil)
      fresh_jumble []
    = JOk () js' [(INFO, "unrecognized node type: %d"%string, 999)] /\
    jumble_wf 1024 js' /\
    clocations js' = [mkLocationLen 7 (-1)].
Proof.
  destruct (unrecognized_node_skipped_rte_raises 1024 toy_hash toy_tags (fun _ => true))
    as (_ & _ & Hwalk & _).
  - lia.
  - done.
  - apply (Hwalk (query_of (List (LCons (Other 999) (LCons (Const 23 7) LNil))) RNil)
             0%nat fresh_jumble []); [by vm_compute|exact fresh_jumble_wf].
Defined.

(** C7, as stated, fails for range-table entries: the walk of a query whose
    range table has an entry of kind 8, for which [JumbleRangeTable] has no
    case, ends with the error, and [get_query_id] yields no fingerprint; an
    unrecognized node in the target list is passed with a notice. *)
Lemma unrecognized_rte_aborts :
  (exists js' log',
     JumbleQuery 1024 toy_hash toy_tags (fun _ => true) 0
       (query_of (List (LCons (Other 999) LNil)) (RCons (RTE_OTHER 8) RNil))
       fresh_jumble [] = JError "unrecognized RTE kind: %d" 8 js' log') /\
  (exists js' log',
     get_query_id 1024 toy_hash toy_tags (fun _ => true) (replicate 1024 Byte.x00)
       (query_of (List (LCons (Other 999) LNil)) (RCons (RTE_OTHER 8) RNil))
     = JError "unrecognized RTE kind: %d" 8 js' log') /\
  (exists id js',
     get_query_id 1024 toy_hash toy_tags (fun _ => true) (replicate 1024 Byte.x00)
       (query_of (List (LCons (Other 999) LNil)) RNil)
     = JOk id js' [(INFO, "unrecognized node type: %d"%string, 999)]).
Proof.
  split; [|split]; do 2 eexists; vm_compute; reflexivity.
Qed.

(** ** The text ring: what a scan returns and what a store leaves alone *)

Section TextRingScan.
Context {D : Type} (conf : pgsm_conf D).

Lemma scan_found queryid copy recs more query :
  queryid ∈ recs.*1 ->
  scan queryid copy (recs ++ more) query = scan queryid copy recs query /\
  (scan queryid copy recs query).1 = queryid.
Proof.
  revert query. induction recs as [|[id text] recs IH]; intros query Hin.
  - by apply elem_of_nil in Hin.
  - simpl. destruct (Z.eqb_spec id queryid) as [->|Hne]; [done|].
    apply IH. rewrite fmap_cons, elem_of_cons in Hin. by destruct Hin.
Qed.

Lemma scan_first_match queryid pre text post query :
  queryid ∉ pre.*1 ->
  scan queryid true (pre ++ (queryid, text) :: post) query = (queryid, Some text).
Proof.
  revert query. induction pre as [|[id t] pre IH]; intros query Hnot.
  - simpl. by rewrite Z.eqb_refl.
  - simpl. rewrite fmap_cons, not_elem_of_cons in Hnot. destruct Hnot as [Hne Hnot].
    destruct (Z.eqb_spec id queryid) as [->|_]; [done|]. by apply IH.
Qed.

Lemma scan_no_match queryid copy recs query :
  queryid ∉ recs.*1 ->
  scan queryid copy recs query
  = (0, if copy then match last recs with Some r => Some r.2 | None => query end
        else query).
Proof.
  revert query. induction recs as [|[id text] recs IH]; intros query Hnot.
  - simpl. by destruct copy.
  - simpl. rewrite fmap_cons, not_elem_of_cons in Hnot. destruct Hnot as [Hne Hnot].
    destruct (Z.eqb_spec id queryid) as [->|_]; [done|].
    rewrite IH by done. destruct copy; simpl; [|done].
    destruct recs as [|r recs]; [done|]. rewrite last_cons_cons.
    destruct (last (r :: recs)) eqn:Hlast; [done|]. by apply last_None in Hlast.
Qed.

(** [locate_query] stops at the first record that carries the fingerprint
    and returns the text of that record, whatever follows it in the ring. *)
Theorem locate_query_first_match st b hd pre text post fuel queryid :
  0 < query_buf_size_bucket conf < 2 ^ 31 ->
  ring_wf conf st b hd (pre ++ (queryid, text) :: post) ->
  queryid ∉ pre.*1 ->
  (length (pre ++ (queryid, text) :: post) < fuel)%nat ->
  locate_query conf fuel st b queryid true = Ok (queryid, Some text).
Proof.
  intros Hsz Hwf Hnot Hfuel.
  rewrite (locate_query_wf conf _ _ _ _ _ _ _ Hsz Hwf Hfuel).
  by rewrite scan_first_match.
Qed.

(** A fingerprint that no record of the ring carries is not found:
    [locate_query] returns 0.  The caller's buffer was written all the same,
    once per record passed, and is left holding the text of the last one. *)
Theorem locate_query_absent st b hd recs fuel queryid :
  0 < query_buf_size_bucket conf < 2 ^ 31 ->
  ring_wf conf st b hd recs ->
  queryid ∉ recs.*1 ->
  (length recs < fuel)%nat ->
  locate_query conf fuel st b queryid false = Ok (0, None) /\
  locate_query conf fuel st b queryid true = Ok (0, snd <$> last recs).
Proof.
  intros Hsz Hwf Hnot Hfuel.
  rewrite !(locate_query_wf conf _ _ _ _ _ _ _ Hsz Hwf Hfuel).
  rewrite !scan_no_match by done. split; [done|].
  by destruct (last recs).
Qed.

(** [store_query] writes a text once per fingerprint and bucket: a store
    under a fingerprint that the ring already holds changes nothing, not even
    when the text differs, and neither does a store under fingerprint 0,
    which the scan cannot tell from "not found". *)
Theorem store_query_known_fingerprint st hd recs fuel queryid query query_len :
  0 < query_buf_size_bucket conf < 2 ^ 31 ->
  ring_wf conf st (current_wbucket st) hd recs ->
  queryid ∈ recs.*1 \/ queryid = 0 ->
  (length recs < fuel)%nat ->
  store_query conf fuel st queryid query query_len = Ok st.
Proof.
  intros Hsz Hwf Hid Hfuel. unfold store_query.
  rewrite (locate_query_wf conf _ _ _ _ _ _ _ Hsz Hwf Hfuel).
  cbn [mbind result_bind].
  destruct (decide (queryid ∈ recs.*1)) as [Hin|Hnot].
  - destruct (scan_found queryid false recs [] None Hin) as [_ ->].
    by rewrite Z.eqb_refl.
  - destruct Hid as [?| ->]; [done|]. by rewrite scan_absent.
Qed.

(** A store of a new record leaves the texts of the ring as they are: every
    fingerprint that was found before is found after, with the same text. *)
Theorem store_query_keeps_other_texts st hd recs fuel queryid query other :
  ring_conf_ok conf ->
  ring_wf conf st (current_wbucket st) hd recs ->
  0 < queryid < 2 ^ 64 ->
  queryid ∉ recs.*1 ->
  query <> [] ->
  Z.of_nat (length query) <= PGSM_QUERY_MAX_LEN conf ->
  hd + Z.of_nat (length query) + 16 < query_buf_size_bucket conf ->
  (length recs < fuel)%nat ->
  other ∈ recs.*1 ->
  exists st',
    store_query conf fuel st queryid query (Z.of_nat (length query)) = Ok st' /\
    locate_query conf (S fuel) st' (current_wbucket st) other true
    = locate_query conf fuel st (current_wbucket st) other true.
Proof.
  intros [Hsz Hmax] Hwf Hid Hfresh Hne Hlen Hfit Hfuel Hother.
  assert (Hn : (if uint64 (PGSM_QUERY_MAX_LEN conf) <? Z.of_nat (length query)
                then uint64 (PGSM_QUERY_MAX_LEN conf)
                else Z.of_nat (length query)) = Z.of_nat (length query)).
  { rewrite uint64_small by lia.
    destruct (Z.ltb_spec (PGSM_QUERY_MAX_LEN conf) (Z.of_nat (length query))); [lia|done]. }
  destruct (store_query_fresh conf st hd recs fuel queryid query (Z.of_nat (length query)))
    as (st' & Hst & Hcur & _ & Hwf'); try done.
  - rewrite Hn. destruct query; [done|]. simpl. lia.
  - by rewrite Hn.
  - exists st'. split; [done|].
    rewrite (locate_query_wf conf _ _ _ _ _ _ _ Hsz Hwf')
      by (rewrite length_app; simpl; lia).
    rewrite (locate_query_wf conf _ _ _ _ _ _ _ Hsz Hwf Hfuel).
    f_equal. by apply scan_found.
Qed.

End TextRingScan.

Lemma locate_query_first_match_witness :
  locate_query conf8 2 st_one 0 7 true = Ok (7, Some (txt "SELECT 1")).
Proof.
  apply (locate_query_first_match conf8 st_one 0 24 [] (txt "SELECT 1") [] 2%nat 7).
  - simpl. lia.
  - by apply st_one_ring_wf.
  - apply not_elem_of_nil.
  - simpl. lia.
Defined.

Lemma locate_query_absent_witness :
  locate_query conf8 2 st_one 0 9 false = Ok (0, None) /\
  locate_query conf8 2 st_one 0 9 true = Ok (0, Some (txt "SELECT 1")).
Proof.
  apply (locate_query_absent conf8 st_one 0 24 [(7, txt "SELECT 1")] 2%nat 9).
  - simpl. lia.
  - by apply st_one_ring_wf.
  - by vm_compute; intros [?|?]%elem_of_cons; [|set_solver].
  - simpl. lia.
Defined.

Lemma store_query_known_fingerprint_witness :
  store_query conf8 2 st_one 7 (txt "SELECT 7") 8 = Ok st_one.
Proof.
  apply (store_query_known_fingerprint conf8 st_one 24 [(7, txt "SELECT 1")]
           2%nat 7 (txt "SELECT 7") 8).
  - simpl. lia.
  - by apply st_one_ring_wf.
  - left. by apply elem_of_cons; left.
  - simpl. lia.
Defined.

Lemma store_query_keeps_other_texts_witness :
  exists st',
    store_query conf8 2 st_one 9 (txt "SELECT 2") 8 = Ok st' /\
    locate_query conf8 3 st' 0 7 true = locate_query conf8 2 st_one 0 7 true.
Proof.
  apply (store_query_keeps_other_texts conf8 st_one 24 [(7, txt "SELECT 1")]
           2%nat 9 (txt "SELECT 2") 7).
  - split; simpl; lia.
  - by apply st_one_ring_wf.
  - lia.
  - by vm_compute; intros [?|?]%elem_of_cons; [|set_solver].
  - done.
  - simpl. lia.
  - simpl. lia.
  - simpl. lia.
  - by apply elem_of_cons; left.
Defined.

(** ** The accounting of entries per bucket is an invariant of the store *)

Section Populations.
Context {D : Type}.
Implicit Types m : gmap pgssHashKey (pgssEntry D).

Local Abbreviation in_bucket b :=
  (fun kv : pgssHashKey * pgssEntry D => key_bucket_id kv.1 = b).

Lemma population_insert_new m k v b :
  m !! k = None ->
  size (filter (in_bucket b) (<[k := v]> m))
  = if decide (key_bucket_id k = b) then S (size (filter (in_bucket b) m))
    else size (filter (in_bucket b) m).
Proof.
  intros Hk. rewrite map_filter_insert. cbn [fst].
  destruct (decide (key_bucket_id k = b)) as [Hb|Hb].
  - rewrite map_size_insert_None; [done|].
    apply map_lookup_filter_None. by left.
  - by rewrite delete_id.
Qed.

Lemma population_insert_old m k v e b :
  m !! k = Some e ->
  size (filter (in_bucket b) (<[k := v]> m)) = size (filter (in_bucket b) m).
Proof.
  intros Hk. rewrite map_filter_insert. cbn [fst].
  destruct (decide (key_bucket_id k = b)) as [Hb|Hb].
  - rewrite map_size_insert_Some; [done|].
    exists e. by apply map_lookup_filter_Some.
  - rewrite map_filter_delete, delete_id; [done|].
    apply map_lookup_filter_None. right. by intros x _.
Qed.

Lemma population_dealloc m m' b b' :
  (forall k, m' !! k = if key_bucket_id k =? b then None else m !! k) ->
  size (filter (in_bucket b') m')
  = if decide (b' = b) then 0%nat else size (filter (in_bucket b') m).
Proof.
  intros Hm'. destruct (decide (b' = b)) as [->|Hne].
  - apply map_size_empty_iff, map_eq. intros k. apply option_eq. intros x.
    rewrite map_lookup_filter_Some, lookup_empty, Hm'. cbn [fst].
    destruct (Z.eqb_spec (key_bucket_id k) b); intuition congruence.
  - f_equal. apply map_eq. intros k. apply option_eq. intros x.
    rewrite !map_lookup_filter_Some, Hm'. cbn [fst].
    destruct (Z.eqb_spec (key_bucket_id k) b); intuition congruence.
Qed.

End Populations.

Section Accounting.
Context {D : Type} {DD : Double D} (conf : pgsm_conf D).

Ltac bind_ok H x E :=
  match type of H with
  | mbind _ ?m = Ok _ =>
      destruct m as [x| |] eqn:E; cbn [mbind result_bind] in H; [|discriminate..]
  end.

Lemma bucket_share_nonneg : 0 <= bucket_share conf < 2 ^ 64.
Proof. unfold bucket_share, uint64. apply Z.mod_pos_bound. lia. Qed.

(** What the invariant reads of a state. *)
Lemma store_inv_frame (st st' : state D) :
  current_wbucket st' = current_wbucket st ->
  bucket_entry st' = bucket_entry st ->
  length (bucket_overflow st') = length (bucket_overflow st) ->
  length (query_fifo st') = length (query_fifo st) ->
  (forall b, bucket_population st' b = bucket_population st b) ->
  (forall b, is_Some (pgss_buckethash st !! b) -> is_Some (pgss_buckethash st' !! b)) ->
  store_inv conf st -> store_inv conf st'.
Proof.
  intros Hc He Ho Hq Hp Hb [(Hm & Hcur & Hle & Hlo & Hlq & Hbh) Hcnt]. split.
  - unfold buckets_wf. rewrite Hc, He, Ho, Hq.
    split; [done|]. split; [done|]. split; [done|]. split; [done|]. split; [done|].
    intros b Hb'. by apply Hb, Hbh.
  - intros b Hb'. rewrite He, Hp. by apply Hcnt.
Qed.

Lemma array_set_length {A} (a a' : list A) i v :
  array_set a i v = Ok a' -> length a' = length a.
Proof.
  unfold array_set. destruct (_ && _); [|done]. intros [= <-]. apply length_insert.
Qed.

Lemma entry_dealloc_inv (b : Z) (st st' : state D) :
  store_inv conf st ->
  0 <= b < PGSM_MAX_BUCKETS conf ->
  entry_dealloc b st = Ok st' ->
  store_inv conf st' /\ current_wbucket st' = current_wbucket st.
Proof.
  intros [(Hm & Hcur & Hle & Hlo & Hlq & Hbh) Hcnt] Hb Hd.
  destruct (entry_dealloc_spec b st) as (st1 & Hd1 & Hh & _ & Hbe & Hc & _ & Ho & Hf & _
                                          & _ & Hbk & _); [lia..|].
  rewrite Hd in Hd1. injection Hd1 as <-.
  split; [|done]. split.
  - unfold buckets_wf. rewrite Hc, Hbe, Ho, Hf, Hbk, length_insert. done.
  - intros b' Hb'. unfold bucket_population.
    rewrite (population_dealloc (pgss_hash st) (pgss_hash st') b b' Hh), Hbe.
    destruct (decide (b' = b)) as [->|Hne].
    + rewrite list_lookup_insert_eq by lia. split; [done|].
      apply bucket_share_nonneg.
    + rewrite list_lookup_insert_ne by lia. by apply Hcnt.
Qed.

Lemma get_next_wbucket_inv (hst : host) (st st' : state D) (b : Z) :
  store_inv conf st ->
  get_next_wbucket conf hst st = Ok (b, st') ->
  store_inv conf st' /\ 0 <= b < PGSM_MAX_BUCKETS conf /\
  current_wbucket st' = current_wbucket st.
Proof.
  intros Hinv. pose proof Hinv as [(Hm & Hcur & Hle & Hlo & Hlq & Hbh) Hcnt].
  unfold get_next_wbucket.
  destruct (_ <? _); [|by intros [= <- <-]].
  rewrite (uint64_small (current_wbucket st + 1)) by lia.
  rewrite (uint64_small (PGSM_MAX_BUCKETS conf)) by lia.
  set (bid := if current_wbucket st + 1 =? PGSM_MAX_BUCKETS conf
              then 0 else current_wbucket st + 1).
  assert (Hbid : 0 <= bid < PGSM_MAX_BUCKETS conf).
  { subst bid. destruct (Z.eqb_spec (current_wbucket st + 1) (PGSM_MAX_BUCKETS conf)); lia. }
  rewrite int32_small by lia. intros H.
  bind_ok H st1 Hd.
  destruct (entry_dealloc_inv bid st st1 Hinv Hbid Hd) as [Hinv1 Hc1].
  bind_ok H fifos Hf. bind_ok H be Hbe.
  injection H as <- <-. split; [|split; [done|by cbn]].
  apply (store_inv_frame st1); try done.
  - cbn. by apply array_set_length in Hf.
  - intros b' Hb'. cbn. destruct (decide (b' = bid)) as [->|Hne].
    + rewrite lookup_insert_eq. by eexists.
    + by rewrite lookup_insert_ne.
Qed.

Lemma pgss_store_key_inv (hst : host) (st st' : state D) query queryId query_len
    key reset tables_name :
  store_inv conf st ->
  pgss_store_key conf hst st query queryId query_len = Ok (key, reset, tables_name, st') ->
  store_inv conf st' /\ key_bucket_id key = current_wbucket st'.
Proof.
  intros Hinv. unfold pgss_store_key.
  set (qid := if queryId =? 0 then _ else queryId).
  set (st0 := match pgss_object_hash st !! qid with
              | Some name => (_, set_pgss_object_hash _ st)
              | None => ([], st)
              end).
  assert (Hst0 : store_inv conf st0.2 /\ current_wbucket st0.2 = current_wbucket st).
  { subst st0. destruct (pgss_object_hash st !! qid); [|done].
    split; [|done]. by apply (store_inv_frame st). }
  destruct st0 as [tn st0]. cbn [snd] in Hst0. destruct Hst0 as [Hinv0 Hc0].
  intros H. bind_ok H r Hg. destruct r as [b st1].
  destruct (get_next_wbucket_inv hst st0 st1 b Hinv0 Hg) as (Hinv1 & Hb & Hc1).
  injection H as <- <- <- <-. cbn [key_bucket_id].
  destruct (Z.eqb_spec b (current_wbucket st1)) as [Heq|Hne]; cbn [negb]; [done|].
  split; [|done].
  destruct Hinv1 as [(Hm & Hcur & Hle & Hlo & Hlq & Hbh) Hcnt]. by split.
Qed.

Lemma entry_alloc_inv (st st' : state D) key enc sticky r :
  store_inv conf st ->
  key_bucket_id key = current_wbucket st ->
  entry_alloc conf st key enc sticky = Ok (r, st') ->
  store_inv conf st' /\ current_wbucket st' = current_wbucket st /\
  match r with
  | Some k => k = key /\ is_Some (pgss_hash st' !! key)
  | None => pgss_hash st' = pgss_hash st
  end.
Proof.
  intros Hinv Hkey. pose proof Hinv as [(Hm & Hcur & Hle & Hlo & Hlq & Hbh) Hcnt].
  destruct (Hcnt (current_wbucket st) Hcur) as [Hn Hshare].
  unfold entry_alloc, array_get.
  destruct (Z.leb_spec 0 (current_wbucket st)) as [_|?]; [|lia].
  rewrite Hn. cbn [of_option mbind result_bind].
  fold (bucket_share conf).
  set (n := bucket_population st (current_wbucket st)) in *.
  assert (Hn0 : 0 <= n) by (subst n; unfold bucket_population; lia).
  pose proof bucket_share_nonneg as Hsh.
  destruct (Z.leb_spec (bucket_share conf) n) as [Hfull|Hroom].
  { intros H. bind_ok H ov Hov. bind_ok H ovs Hovs. injection H as <- <-.
    split; [|done]. apply (store_inv_frame st); try done.
    cbn. by apply array_set_length in Hovs. }
  destruct (_ <=? _); [by intros [= <- <-]|].
  destruct (pgss_hash st !! key) as [e|] eqn:Hk.
  { intros [= <- <-]. split; [done|]. split; [done|]. split; [done|]. by eexists. }
  unfold array_set.
  destruct (Z.leb_spec 0 (current_wbucket st)) as [_|?]; [|lia].
  destruct (Z.ltb_spec (current_wbucket st) (Z.of_nat (length (bucket_entry st))))
    as [_|?]; [|lia].
  cbn [andb mbind result_bind]. intros [= <- <-].
  split; [|split; [done|]]; cycle 1.
  { split; [done|]. cbn. rewrite lookup_insert_eq. by eexists. }
  split.
  - unfold buckets_wf. cbn. by rewrite length_insert.
  - intros b Hb. unfold bucket_population. cbn [pgss_hash bucket_entry set_pgss_hash
      set_bucket_entry].
    rewrite population_insert_new by done. rewrite Hkey.
    destruct (decide (current_wbucket st = b)) as [<-|Hne].
    + rewrite list_lookup_insert_eq by lia. rewrite Nat2Z.inj_succ.
      fold (bucket_population st (current_wbucket st)). fold n.
      rewrite uint64_small by lia. split; [f_equal; lia|lia].
    + rewrite list_lookup_insert_ne by lia. by apply Hcnt.
Qed.

(** [store_query] writes to the ring of the current bucket and to the log. *)
Lemma store_query_frame (fuel : nat) (st st' : state D) queryid query query_len :
  store_query conf fuel st queryid query query_len = Ok st' ->
  current_wbucket st' = current_wbucket st /\
  bucket_entry st' = bucket_entry st /\
  bucket_overflow st' = bucket_overflow st /\
  length (query_fifo st') = length (query_fifo st) /\
  pgss_hash st' = pgss_hash st /\
  pgss_agghash st' = pgss_agghash st /\
  pgss_buckethash st' = pgss_buckethash st.
Proof.
  unfold store_query. intros H.
  bind_ok H found Hfound.
  destruct (_ =? _); [by injection H as <-|].
  bind_ok H fifo Hfifo. bind_ok H buf Hbuf.
  destruct (_ =? _); [by injection H as <-|].
  bind_ok H buf1 Hw1. bind_ok H buf2 Hw2. bind_ok H text Hr. bind_ok H buf3 Hw3.
  bind_ok H qbuf Hq. bind_ok H fifos Hf. injection H as <-. cbn.
  apply array_set_length in Hf. done.
Qed.

(** The histogram cells are counted in the bucket table only. *)
Lemma resp_incr_frame (cells : list Z) (b : Z) : forall (st st' : state D),
  fold_result (resp_incr b) cells st = Ok st' ->
  current_wbucket st' = current_wbucket st /\
  bucket_entry st' = bucket_entry st /\
  bucket_overflow st' = bucket_overflow st /\
  query_fifo st' = query_fifo st /\
  pgss_hash st' = pgss_hash st /\
  pgss_agghash st' = pgss_agghash st /\
  (forall k, is_Some (pgss_buckethash st !! k) -> is_Some (pgss_buckethash st' !! k)).
Proof.
  induction cells as [|i cells IH]; intros st st' H.
  - cbn in H. by injection H as <-.
  - cbn [fold_result] in H. bind_ok H st1 H1.
    destruct (IH _ _ H) as (-> & -> & -> & -> & -> & -> & Hbh).
    unfold resp_incr in H1.
    bind_ok H1 be Hbe. bind_ok H1 c Hc. bind_ok H1 cs Hcs. injection H1 as <-. cbn.
    repeat split. intros k Hk. apply Hbh. cbn.
    destruct (decide (k = b)) as [->|Hne].
    + rewrite lookup_insert_eq. by eexists.
    + by rewrite lookup_insert_ne.
Qed.

(** A rollup is counted in the rollup table only. *)
Lemma update_agg_counters_sets (bucket queryid id type : Z) (st : state D) :
  exists a, update_agg_counters bucket queryid id type st = set_pgss_agghash a st.
Proof.
  unfold update_agg_counters, agg_entry_alloc.
  destruct (_ !! _); eexists; [reflexivity|]. by cbn.
Qed.

Lemma pgss_store_entry_inv (fuel : nat) (hst : host) (key : pgssHashKey) (reset : bool)
    (tables_name : list Byte.byte) (st st' : state D) (query : list Byte.byte)
    (query_len : Z) (kind : bool) (total_time : D) (nrows : Z) (bufusage : Blocks D)
    (jstate : option (list Byte.byte)) (utime stime : D) :
  store_inv conf st ->
  key_bucket_id key = current_wbucket st ->
  pgss_store_entry conf fuel hst key reset tables_name st query query_len kind
    total_time nrows bufusage jstate utime stime = Ok st' ->
  store_inv conf st'.
Proof.
  intros Hinv Hkey. unfold pgss_store_entry. intros H.
  bind_ok H r Hr. destruct r as [[[entry norm_query] qlen] st1].
  assert (Hst1 : store_inv conf st1 /\
                 match entry with
                 | Some k => k = key /\ is_Some (pgss_hash st1 !! key)
                 | None => True
                 end).
  { destruct (pgss_hash st !! key) as [e|] eqn:Hk.
    - injection Hr as <- <- <- <-. split; [done|]. split; [done|]. by eexists.
    - destruct (match jstate with Some norm => _ | None => _ end) as [nq ql].
      bind_ok Hr ra Ha. destruct ra as [ea sta].
      injection Hr as <- <- <- <-.
      destruct (entry_alloc_inv _ _ _ _ _ _ Hinv Hkey Ha) as (Hi & _ & He).
      split; [done|]. by destruct ea. }
  destruct Hst1 as [Hinv1 Hentry].
  destruct entry as [entry|]; [|by injection H as <-].
  destruct Hentry as [-> [e He]].
  bind_ok H st2 Hs.
  destruct (store_query_frame _ _ _ _ _ _ Hs) as (Hc2 & Hbe2 & Hbo2 & Hqf2 & Hh2 & Ha2 & Hbh2).
  assert (Hinv2 : store_inv conf st2).
  { apply (store_inv_frame st1); try done.
    - by rewrite Hbo2.
    - intros b. unfold bucket_population. by rewrite Hh2.
    - intros b. by rewrite Hbh2. }
  destruct jstate as [norm|]; [by injection H as <-|].
  rewrite Hh2, He in H. cbn [of_option mbind result_bind] in H.
  bind_ok H st3 Hf.
  destruct (update_agg_counters_sets (key_bucket_id key) (key_queryid key)
              (key_dbid key) AGG_KEY_DATABASE st2) as [a1 Ha1].
  rewrite Ha1 in Hf.
  destruct (update_agg_counters_sets (key_bucket_id key) (key_queryid key)
              (key_userid key) AGG_KEY_USER (set_pgss_agghash a1 st2)) as [a2 Hag2].
  rewrite Hag2 in Hf.
  destruct (update_agg_counters_sets (key_bucket_id key) (key_queryid key)
              (pg_get_client_addr hst) AGG_KEY_HOST
              (set_pgss_agghash a2 (set_pgss_agghash a1 st2))) as [a3 Hag3].
  rewrite Hag3 in Hf.
  destruct (resp_incr_frame _ _ _ _ Hf) as (Hc3 & Hbe3 & Hbo3 & Hqf3 & Hh3 & _ & Hbh3).
  cbn in Hc3, Hbe3, Hbo3, Hqf3, Hh3, Hbh3.
  injection H as <-.
  apply (store_inv_frame st2); [..|exact Hinv2].
  - cbn. by rewrite Hc3.
  - cbn. by rewrite Hbe3.
  - cbn. by rewrite Hbo3.
  - cbn. by rewrite Hqf3.
  - intros b. unfold bucket_population. cbn [pgss_hash set_pgss_hash].
    rewrite Hh3. f_equal. apply (population_insert_old _ _ _ e). by rewrite Hh2.
  - intros b Hb. cbn. by apply Hbh3.
Qed.

(** The accounting of entries per bucket is an invariant of [pgss_store]:
    whenever [bucket_entry] counts the entries of each bucket and no bucket
    holds more than [PGSM_MAX / PGSM_MAX_BUCKETS] entries before a call, the
    same holds after it, whether the call rotated the bucket, created an
    entry, dropped the measurement or updated an entry. *)
Theorem pgss_store_keeps_accounting (fuel : nat) (hst : host) (st st' : state D)
    (query : list Byte.byte) (queryId : Z) (query_len : Z) (kind : bool)
    (total_time : D) (nrows : Z) (bufusage : Blocks D)
    (jstate : option (list Byte.byte)) (utime stime : D) :
  store_inv conf st ->
  pgss_store conf fuel hst st query queryId query_len kind total_time nrows
    bufusage jstate utime stime = Ok st' ->
  store_inv conf st'.
Proof.
  intros Hinv. unfold pgss_store.
  destruct (pgss_qbuf st !! _); [|by intros [= <-]].
  intros H. bind_ok H r Hk. destruct r as [[[key reset] tables_name] st1].
  destruct (pgss_store_key_inv _ _ _ _ _ _ _ _ _ Hinv Hk) as [Hinv1 Hkey].
  by apply (pgss_store_entry_inv _ _ _ _ _ _ _ _ _ _ _ _ _ _ _ _ Hinv1 Hkey H).
Qed.

End Accounting.

Lemma st_init_store_inv : store_inv conf8 st_init.
Proof.
  split.
  - unfold buckets_wf. change (PGSM_MAX_BUCKETS conf8) with 2.
    split; [lia|].
    split; [by vm_compute|].
    split; [by vm_compute|].
    split; [by vm_compute|].
    split; [by vm_compute|].
    intros b Hb.
    assert (b = 0 \/ b = 1) as [-> | ->] by lia; vm_compute; by eexists.
  - intros b Hb. change (PGSM_MAX_BUCKETS conf8) with 2 in Hb.
    assert (b = 0 \/ b = 1) as [-> | ->] by lia; split; by vm_compute.
Qed.

Lemma pgss_store_keeps_accounting_witness :
  store_inv conf8 st_t0 /\ bucket_entry st_t0 = [1; 0].
Proof.
  split; [|by vm_compute].
  apply (pgss_store_keeps_accounting conf8 5 (host_at 0) st_init st_t0
           (txt "SELECT 1") 7 8 true (3 # 2)%Q 1 one_block None 0%Q 0%Q).
  - exact st_init_store_inv.
  - vm_compute. reflexivity.
Defined.

(** ** What a record call counts, and where *)

Section Recording.
Context {D : Type} {DD : Double D} (conf : pgsm_conf D).

Ltac bind_ok H x E :=
  match type of H with
  | mbind _ ?m = Ok _ =>
      destruct m as [x| |] eqn:E; cbn [mbind result_bind] in H; [|discriminate..]
  end.

(** One call of [update_agg_counters] adds one to the rollup entry under its
    key, which counts from 0 if it was not there, and to no other. *)
Lemma update_agg_counters_lookup (bucket queryid id type : Z) (st : state D)
    (k : pgssAggHashKey) :
  pgss_agghash (update_agg_counters bucket queryid id type st) !! k
  = if decide (k = mkAggKey (uint64 id) type queryid bucket)
    then Some (mkAggEntry
                 (int64 (from_option total_calls 0 (pgss_agghash st !! k) + 1)))
    else pgss_agghash st !! k.
Proof.
  unfold update_agg_counters, agg_entry_alloc. set (key := mkAggKey _ _ _ _).
  destruct (pgss_agghash st !! key) as [e|] eqn:He; cbn.
  - destruct (decide (k = key)) as [->|Hne].
    + by rewrite lookup_alter_eq, He.
    + by rewrite lookup_alter_ne.
  - destruct (decide (k = key)) as [->|Hne].
    + by rewrite lookup_alter_eq, lookup_insert_eq, He.
    + by rewrite lookup_alter_ne, lookup_insert_ne.
Qed.

(** What [entry_alloc] leaves alone, and what it makes of a new entry. *)
Lemma entry_alloc_tables (st st' : state D) key enc sticky r :
  entry_alloc conf st key enc sticky = Ok (r, st') ->
  pgss_agghash st' = pgss_agghash st /\
  pgss_buckethash st' = pgss_buckethash st /\
  (forall k e, pgss_hash st !! k = Some e -> pgss_hash st' !! k = Some e) /\
  (r = None -> pgss_hash st' = pgss_hash st) /\
  (forall k, r = Some k -> k = key) /\
  (forall e, pgss_hash st !! key = None -> pgss_hash st' !! key = Some e ->
     calls (c_calls (counters e)).1 = 0 /\
     calls (c_calls (counters e)).2 = 0 /\
     usage (c_calls (counters e)).1
     = (if sticky then cur_median_usage st else USAGE_INIT conf)) /\
  (forall k, k <> key -> pgss_hash st' !! k = pgss_hash st !! k).
Proof.
  unfold entry_alloc. intros H. bind_ok H n Hn.
  destruct (_ <=? _).
  { bind_ok H ov Hov. bind_ok H ovs Hovs. injection H as <- <-. cbn.
    repeat split; try done; congruence. }
  destruct (_ <=? _).
  { injection H as <- <-. repeat split; try done; congruence. }
  destruct (pgss_hash st !! key) as [e0|] eqn:Hk.
  { injection H as <- <-. repeat split; try done; congruence. }
  bind_ok H ns Hns. injection H as <- <-. cbn.
  split; [done|]. split; [done|].
  split; [|split; [done|split; [congruence|split]]].
  - intros k e He. destruct (decide (k = key)) as [->|Hne]; [congruence|].
    by rewrite lookup_insert_ne.
  - intros e _. rewrite lookup_insert_eq. by intros [= <-].
  - intros k Hne. by rewrite lookup_insert_ne.
Qed.

(** What the first part of a call, up to the key, makes of the tables: a
    rotation empties the two statement tables of the bucket it turns to,
    and nothing else of them changes. *)
Lemma get_next_wbucket_tables (hst : host) (st st1 : state D) (b : Z) :
  buckets_wf conf st ->
  get_next_wbucket conf hst st = Ok (b, st1) ->
  b = bucket_of_call conf hst st /\
  (forall k, pgss_hash st1 !! k
             = if rotates conf hst st && (key_bucket_id k =? b)
               then None else pgss_hash st !! k) /\
  (forall k, pgss_agghash st1 !! k
             = if rotates conf hst st && (agg_bucket_id k =? b)
               then None else pgss_agghash st !! k) /\
  (forall b', resp_calls <$> pgss_buckethash st1 !! b'
              = resp_calls <$> pgss_buckethash st !! b') /\
  cur_median_usage st1 = cur_median_usage st.
Proof.
  intros (Hmax & Hcur & Hlen1 & Hlen2 & Hlen3 & Hbk).
  unfold get_next_wbucket, bucket_of_call, rotates, window_elapsed.
  destruct (Z.ltb_spec (uint64 (PGSM_BUCKET_TIME conf))
              (uint64 (uint64 (tv_sec hst) - prev_bucket_usec st))) as [Hel|Hnel].
  - rewrite bool_decide_true by done.
    set (b0 := (current_wbucket st + 1) mod PGSM_MAX_BUCKETS conf).
    assert (Hb : 0 <= b0 < PGSM_MAX_BUCKETS conf) by (apply Z.mod_pos_bound; lia).
    rewrite (uint64_small (current_wbucket st + 1)) by lia.
    rewrite (uint64_small (PGSM_MAX_BUCKETS conf)) by lia.
    assert (Hbeq : (if current_wbucket st + 1 =? PGSM_MAX_BUCKETS conf
                    then 0 else current_wbucket st + 1) = b0).
    { subst b0.
      destruct (Z.eqb_spec (current_wbucket st + 1) (PGSM_MAX_BUCKETS conf)) as [->|?].
      - by rewrite Z.mod_same by lia.
      - rewrite Z.mod_small; lia. }
    rewrite Hbeq. rewrite int32_small by lia.
    destruct (entry_dealloc_spec b0 st)
      as (st2 & -> & Hh & Ha & Hbe & Hc & Hp & Ho & Hf & Hq & Hobj & Hbh & Hw & Hlog & Hmed);
      [lia..|].
    cbn [mbind result_bind]. unfold array_set. rewrite Hf.
    destruct (Z.leb_spec 0 b0) as [_|?]; [|lia].
    destruct (Z.ltb_spec b0 (Z.of_nat (length (query_fifo st)))) as [_|?]; [|lia].
    cbn [andb mbind result_bind].
    cbn [pgss_buckethash set_prev_bucket_usec set_query_fifo].
    rewrite Hbh. destruct (Hbk b0 Hb) as [be Hbe'].
    rewrite Hbe'. cbn [of_option mbind result_bind].
    intros [= <- <-]. cbn. split; [done|].
    split; [exact Hh|]. split; [exact Ha|]. split; [|done].
    intros b'. destruct (decide (b' = b0)) as [->|Hne].
    + by rewrite lookup_insert_eq, Hbe'.
    + by rewrite lookup_insert_ne.
  - rewrite bool_decide_false by lia. by intros [= <- <-].
Qed.

Lemma pgss_store_key_tables (hst : host) (st st1 : state D) (query : list Byte.byte)
    (queryId query_len : Z) (key : pgssHashKey) (reset : bool)
    (tables_name : list Byte.byte) :
  buckets_wf conf st ->
  pgss_store_key conf hst st query queryId query_len
  = Ok (key, reset, tables_name, st1) ->
  key = key_of_call conf hst st query queryId query_len /\
  (forall k, pgss_hash st1 !! k
             = if rotates conf hst st && (key_bucket_id k =? bucket_of_call conf hst st)
               then None else pgss_hash st !! k) /\
  (forall k, pgss_agghash st1 !! k
             = if rotates conf hst st && (agg_bucket_id k =? bucket_of_call conf hst st)
               then None else pgss_agghash st !! k) /\
  (forall b', resp_calls <$> pgss_buckethash st1 !! b'
              = resp_calls <$> pgss_buckethash st !! b') /\
  cur_median_usage st1 = cur_median_usage st.
Proof.
  intros Hwf. unfold pgss_store_key, key_of_call.
  fold (fingerprint_of_call conf query queryId query_len).
  set (qid := fingerprint_of_call conf query queryId query_len).
  set (st0 := match pgss_object_hash st !! qid with
              | Some name => (_, set_pgss_object_hash _ st)
              | None => ([], st)
              end).
  assert (Hst0 : exists o, st0.2 = set_pgss_object_hash o st).
  { subst st0. destruct (pgss_object_hash st !! qid); [by eexists|].
    exists (pgss_object_hash st). by destruct st. }
  destruct st0 as [tn st0]. destruct Hst0 as [o Hst0]. cbn [snd] in Hst0. subst st0.
  intros H. bind_ok H r Hg. destruct r as [b st2].
  destruct (get_next_wbucket_tables hst (set_pgss_object_hash o st) st2 b Hwf Hg)
    as (Hb & Hh & Ha & Hr & Hm).
  change (rotates conf hst (set_pgss_object_hash o st)) with (rotates conf hst st)
    in Hh, Ha.
  change (bucket_of_call conf hst (set_pgss_object_hash o st))
    with (bucket_of_call conf hst st) in Hb.
  cbn [pgss_hash pgss_agghash pgss_buckethash cur_median_usage set_pgss_object_hash]
    in Hh, Ha, Hr, Hm.
  subst b. injection H as <- <- <- <-.
  split; [done|].
  by destruct (negb _).
Qed.

(** What the second part of a call at execution time adds to the rollups. *)
Lemma pgss_store_entry_rollups (fuel : nat) (hst : host)
    (key : pgssHashKey) (reset : bool) (tables_name : list Byte.byte)
    (st st' : state D) (query : list Byte.byte) (query_len : Z) (kind : bool)
    (total_time : D) (nrows : Z) (bufusage : Blocks D) (utime stime : D)
    (id type : Z) :
  pgss_store_entry conf fuel hst key reset tables_name st query query_len kind
    total_time nrows bufusage None utime stime = Ok st' ->
  is_Some (pgss_hash st' !! key) ->
  (id, type) ∈ [(key_dbid key, AGG_KEY_DATABASE); (key_userid key, AGG_KEY_USER);
                (pg_get_client_addr hst, AGG_KEY_HOST)] ->
  let k := mkAggKey (uint64 id) type (key_queryid key) (key_bucket_id key) in
  total_calls <$> pgss_agghash st' !! k
  = Some (int64 (from_option total_calls 0 (pgss_agghash st !! k) + 1)) /\
  (forall k', agg_queryid k' <> key_queryid key \/ agg_bucket_id k' <> key_bucket_id key ->
     pgss_agghash st' !! k' = pgss_agghash st !! k').
Proof.
  intros H Hrec Hin k. unfold pgss_store_entry in H.
  bind_ok H r Hr. destruct r as [[[entry norm_query] qlen] st1].
  assert (Hst1 : pgss_agghash st1 = pgss_agghash st /\
                 (entry = None -> pgss_hash st1 !! key = None) /\
                 (forall k0, entry = Some k0 -> k0 = key)).
  { destruct (pgss_hash st !! key) as [e|] eqn:Hk.
    - injection Hr as <- <- <- <-. repeat split; congruence.
    - bind_ok Hr ra Ha. destruct ra as [ea sta]. injection Hr as <- <- <- <-.
      destruct (entry_alloc_tables _ _ _ _ _ _ Ha) as (Hag & _ & _ & Hnone & Hsome & _).
      split; [done|]. split; [|done]. intros ->. by rewrite Hnone. }
  destruct Hst1 as (Hag1 & Hdrop & Hentry).
  destruct entry as [entry|]; cycle 1.
  { injection H as <-. rewrite Hdrop in Hrec by done. by destruct Hrec. }
  rewrite (Hentry entry eq_refl) in *. clear Hentry.
  bind_ok H st2 Hs.
  destruct (store_query_frame _ _ _ _ _ _ _ Hs) as (_ & _ & _ & _ & _ & Hag2 & _).
  bind_ok H e He. bind_ok H st3 Hf.
  destruct (resp_incr_frame _ _ _ _ Hf) as (_ & _ & _ & _ & _ & Hag3 & _).
  injection H as <-. cbn [pgss_agghash set_pgss_hash]. rewrite Hag3.
  rewrite <- Hag1, <- Hag2. split.
  - rewrite !update_agg_counters_lookup. subst k.
    rewrite !elem_of_cons, elem_of_nil in Hin.
    unfold AGG_KEY_DATABASE, AGG_KEY_USER, AGG_KEY_HOST in *.
    destruct Hin as [[= -> ->]|[[= -> ->]|[[= -> ->]|[]]]];
      repeat case_decide; try done; congruence.
  - intros k' Hk'. rewrite !update_agg_counters_lookup.
    repeat case_decide; try done; subst k'; cbn in Hk'; by destruct Hk'.
Qed.

(** What the second part of a call at parse time leaves alone. *)
Lemma pgss_store_entry_parse_time (fuel : nat) (hst : host)
    (key : pgssHashKey) (reset : bool) (tables_name : list Byte.byte)
    (st st' : state D) (query : list Byte.byte) (query_len : Z) (kind : bool)
    (total_time : D) (nrows : Z) (bufusage : Blocks D) (norm : list Byte.byte)
    (utime stime : D) :
  pgss_store_entry conf fuel hst key reset tables_name st query query_len kind
    total_time nrows bufusage (Some norm) utime stime = Ok st' ->
  pgss_agghash st' = pgss_agghash st /\
  pgss_buckethash st' = pgss_buckethash st /\
  (forall k, k <> key -> pgss_hash st' !! k = pgss_hash st !! k) /\
  (forall e, pgss_hash st' !! key = Some e ->
     pgss_hash st !! key = Some e \/
     (calls (c_calls (counters e)).1 = 0 /\
      calls (c_calls (counters e)).2 = 0 /\
      usage (c_calls (counters e)).1 = cur_median_usage st)).
Proof.
  unfold pgss_store_entry. intros H.
  bind_ok H r Hr. destruct r as [[[entry norm_query] qlen] st1].
  assert (Hst1 : pgss_agghash st1 = pgss_agghash st /\
                 pgss_buckethash st1 = pgss_buckethash st /\
                 (forall k, k <> key -> pgss_hash st1 !! k = pgss_hash st !! k) /\
                 (forall e, pgss_hash st1 !! key = Some e ->
                    pgss_hash st !! key = Some e \/
                    (calls (c_calls (counters e)).1 = 0 /\
                     calls (c_calls (counters e)).2 = 0 /\
                     usage (c_calls (counters e)).1 = cur_median_usage st))).
  { destruct (pgss_hash st !! key) as [e|] eqn:Hk.
    - injection Hr as <- <- <- <-. rewrite Hk.
      split; [done|]. split; [done|]. split; [done|]. intros e' He'. by left.
    - bind_ok Hr ra Ha. destruct ra as [ea sta]. injection Hr as <- <- <- <-.
      destruct (entry_alloc_tables _ _ _ _ _ _ Ha) as (Hag & Hbh & _ & _ & _ & Hnew & Hoth).
      rewrite bool_decide_true in Hnew by (by eexists).
      split; [done|]. split; [done|]. split; [done|].
      intros e He. right. by apply Hnew. }
  destruct Hst1 as (Hag1 & Hbh1 & Hoth1 & Hnew1).
  destruct entry as [entry|]; [|by injection H as <-].
  bind_ok H st2 Hs. injection H as <-.
  destruct (store_query_frame _ _ _ _ _ _ _ Hs) as (_ & _ & _ & _ & Hh2 & Hag2 & Hbh2).
  rewrite Hag2, Hbh2, Hh2. done.
Qed.

(** A call at execution time that records its measurement counts it once
    in each of the three rollups of its statement and bucket: the one of its
    database, the one of its user and the one of its client address.  Each
    is one more than before the call, or 1 when the call has rotated to the
    bucket and so emptied it first.  The rollups of the other buckets are as
    before the call, and so are those of the other statements of the bucket
    unless the rotation has removed them.  (The measurement is recorded when
    the entry of the call is in the table afterwards: a dropped measurement
    leaves no entry.) *)
Theorem recorded_measurement_counts_in_rollups (fuel : nat) (hst : host)
    (st st' : state D) (query : list Byte.byte) (queryId query_len : Z)
    (kind : bool) (total_time : D) (nrows : Z) (bufusage : Blocks D)
    (utime stime : D) (id type : Z) :
  buckets_wf conf st ->
  is_Some (pgss_qbuf st !! Z.to_nat (current_wbucket st)) ->
  pgss_store conf fuel hst st query queryId query_len kind total_time nrows
    bufusage None utime stime = Ok st' ->
  is_Some (pgss_hash st' !! key_of_call conf hst st query queryId query_len) ->
  (id, type) ∈ [(MyDatabaseId hst, AGG_KEY_DATABASE); (GetUserId hst, AGG_KEY_USER);
                (pg_get_client_addr hst, AGG_KEY_HOST)] ->
  let qid := fingerprint_of_call conf query queryId query_len in
  let b := bucket_of_call conf hst st in
  let k := mkAggKey (uint64 id) type qid b in
  let before := if rotates conf hst st then None else pgss_agghash st !! k in
  total_calls <$> pgss_agghash st' !! k
  = Some (int64 (from_option total_calls 0 before + 1)) /\
  (forall k', agg_queryid k' <> qid \/ agg_bucket_id k' <> b ->
     pgss_agghash st' !! k'
     = if rotates conf hst st && (agg_bucket_id k' =? b)
       then None else pgss_agghash st !! k').
Proof.
  intros Hwf [buf Hbuf] H Hrec Hin qid b k before.
  unfold pgss_store in H. rewrite Hbuf in H.
  bind_ok H r Hk. destruct r as [[[key reset] tables_name] st1].
  destruct (pgss_store_key_tables _ _ _ _ _ _ _ _ _ Hwf Hk) as (Hkey & _ & Ha & _).
  subst key.
  destruct (pgss_store_entry_rollups _ _ _ _ _ _ _ _ _ _ _ _ _ _ _ id type H Hrec Hin)
    as [Hcount Hother].
  cbn [key_of_call key_queryid key_bucket_id] in Hcount, Hother.
  fold qid b k in Hcount, Hother. split.
  - rewrite Hcount, Ha. subst before k. cbn [agg_bucket_id].
    rewrite Z.eqb_refl, andb_true_r. by destruct (rotates conf hst st).
  - intros k' Hk'. by rewrite Hother, Ha.
Qed.

(** The call that the parse hook makes, with a jumble state, records the
    normalized text and counts nothing.  No rollup is added or changed and
    the histograms are as before the call; but for the entry of the call,
    the statistics table is as before the call; and the entry of the call,
    if it is in the table afterwards, is the one that was there, or a new
    one with no calls of either kind and the median usage.  What a rotation
    removes from the bucket it turns to is gone, as after any call. *)
Theorem parse_time_store_counts_nothing (fuel : nat) (hst : host)
    (st st' : state D) (query : list Byte.byte) (queryId query_len : Z)
    (kind : bool) (total_time : D) (nrows : Z) (bufusage : Blocks D)
    (norm : list Byte.byte) (utime stime : D) :
  buckets_wf conf st ->
  is_Some (pgss_qbuf st !! Z.to_nat (current_wbucket st)) ->
  pgss_store conf fuel hst st query queryId query_len kind total_time nrows
    bufusage (Some norm) utime stime = Ok st' ->
  let key := key_of_call conf hst st query queryId query_len in
  let b := bucket_of_call conf hst st in
  (forall k, pgss_agghash st' !! k
             = if rotates conf hst st && (agg_bucket_id k =? b)
               then None else pgss_agghash st !! k) /\
  (forall b', resp_calls <$> pgss_buckethash st' !! b'
              = resp_calls <$> pgss_buckethash st !! b') /\
  (forall k, k <> key ->
     pgss_hash st' !! k
     = if rotates conf hst st && (key_bucket_id k =? b)
       then None else pgss_hash st !! k) /\
  (forall e, pgss_hash st' !! key = Some e ->
     (rotates conf hst st = false /\ pgss_hash st !! key = Some e) \/
     (calls (c_calls (counters e)).1 = 0 /\
      calls (c_calls (counters e)).2 = 0 /\
      usage (c_calls (counters e)).1 = cur_median_usage st)).
Proof.
  intros Hwf [buf Hbuf] H key b.
  unfold pgss_store in H. rewrite Hbuf in H.
  bind_ok H r Hk. destruct r as [[[key1 reset] tables_name] st1].
  destruct (pgss_store_key_tables _ _ _ _ _ _ _ _ _ Hwf Hk) as (Hkey & Hh & Ha & Hr & Hm).
  fold key in Hkey. fold b in Hh, Ha. subst key1.
  destruct (pgss_store_entry_parse_time _ _ _ _ _ _ _ _ _ _ _ _ _ _ _ _ H)
    as (Hag & Hbh & Hoth & Hnew).
  split; [|split; [|split]].
  - intros k. by rewrite Hag, Ha.
  - intros b'. by rewrite Hbh, Hr.
  - intros k Hne. by rewrite Hoth, Hh.
  - intros e He. destruct (Hnew e He) as [Hold|Hfresh].
    + left. rewrite Hh in Hold. subst key b. cbn [key_of_call key_bucket_id] in Hold.
      rewrite Z.eqb_refl, andb_true_r in Hold.
      by destruct (rotates conf hst st).
    + right. by rewrite <- Hm.
Qed.

End Recording.

Lemma st_t0_buckets_wf : buckets_wf conf8 st_t0.
Proof.
  unfold buckets_wf. change (PGSM_MAX_BUCKETS conf8) with 2.
  split; [lia|].
  split; [by vm_compute|].
  split; [by vm_compute|].
  split; [by vm_compute|].
  split; [by vm_compute|].
  intros b Hb.
  assert (b = 0 \/ b = 1) as [-> | ->] by lia; vm_compute; by eexists.
Qed.

(** The same statement a second later: 1 becomes 2.  The statement of the
    bucket that the call at second 300 turns to: 1 before, 1 after. *)
Lemma recorded_measurement_counts_in_rollups_witness :
  (total_calls <$> pgss_agghash st_t0 !! mkAggKey 5 AGG_KEY_DATABASE 7 0 = Some 1 /\
   total_calls <$> pgss_agghash
                     (state_of (record_at conf8 1 st_t0 "SELECT 1" 7 (3 # 2)))
                   !! mkAggKey 5 AGG_KEY_DATABASE 7 0 = Some 2) /\
  (total_calls <$> pgss_agghash st_t200 !! mkAggKey 10 AGG_KEY_USER 8 1 = Some 1 /\
   total_calls <$> pgss_agghash
                     (state_of (record_at conf8 300 st_t200 "SELECT 2" 8 (3 # 2)))
                   !! mkAggKey 10 AGG_KEY_USER 8 1 = Some 1 /\
   is_Some (pgss_agghash st_t200 !! mkAggKey 5 AGG_KEY_DATABASE 8 0)).
Proof.
  split.
  - split; [by vm_compute|].
    destruct (recorded_measurement_counts_in_rollups conf8 5 (host_at 1) st_t0
                (state_of (record_at conf8 1 st_t0 "SELECT 1" 7 (3 # 2)))
                (txt "SELECT 1") 7 8 true (3 # 2)%Q 1 one_block 0%Q 0%Q
                5 AGG_KEY_DATABASE) as [Hk _].
    + exact st_t0_buckets_wf.
    + vm_compute. by eexists.
    + vm_compute. reflexivity.
    + vm_compute. by eexists.
    + rewrite !elem_of_cons. by left.
    + exact Hk.
  - split; [by vm_compute|].
    destruct (recorded_measurement_counts_in_rollups conf8 5 (host_at 300) st_t200
                (state_of (record_at conf8 300 st_t200 "SELECT 2" 8 (3 # 2)))
                (txt "SELECT 2") 8 8 true (3 # 2)%Q 1 one_block 0%Q 0%Q
                10 AGG_KEY_USER) as [Hk _].
    + exact st_t200_buckets_wf.
    + vm_compute. by eexists.
    + vm_compute. reflexivity.
    + vm_compute. by eexists.
    + rewrite !elem_of_cons. right. by left.
    + split; [exact Hk|]. vm_compute. by eexists.
Defined.

(** A parse-time call at second 300, which turns to bucket 1: the rollups
    of bucket 1 are gone, those of bucket 0 are as they were, and the new
    entry has no calls.  And a parse-time call with [pgsm_normalized_query]
    off, for a statement that ends its source string: the text is stored as
    it was written, under the length of the normalized text. *)
Lemma parse_time_store_counts_nothing_witness :
  (let st' := state_of (pgss_store conf8 5 (host_at 300) st_t200
                          (txt "SELECT 3" ++ [Byte.x00]) 9 8 true 0%Q 0 one_block
                          (Some (txt "SELECT $1")) 0%Q 0%Q) in
   is_Some (pgss_agghash st_t200 !! mkAggKey 10 AGG_KEY_USER 8 1) /\
   pgss_agghash st' !! mkAggKey 10 AGG_KEY_USER 8 1 = None /\
   pgss_agghash st' !! mkAggKey 10 AGG_KEY_USER 8 0
   = pgss_agghash st_t200 !! mkAggKey 10 AGG_KEY_USER 8 0 /\
   is_Some (pgss_hash st' !! mkHashKey 10 5 9 1)) /\
  (let st' := state_of (pgss_store conf100_raw 5 (host_at 1) st_t0
                          (txt "SELECT 1" ++ [Byte.x00]) 11 8 true 0%Q 0 one_block
                          (Some (txt "SELECT $1")) 0%Q 0%Q) in
   pgss_agghash st' !! mkAggKey 10 AGG_KEY_USER 7 0
   = pgss_agghash st_t0 !! mkAggKey 10 AGG_KEY_USER 7 0 /\
   locate_query conf100_raw 5 st' 0 11 true
   = Ok (11, Some (txt "SELECT 1" ++ [Byte.x00]))).
Proof.
  split.
  - intros st'.
    destruct (parse_time_store_counts_nothing conf8 5 (host_at 300) st_t200 st'
                (txt "SELECT 3" ++ [Byte.x00]) 9 8 true 0%Q 0 one_block
                (txt "SELECT $1") 0%Q 0%Q) as (Ha & _).
    + exact st_t200_buckets_wf.
    + vm_compute. by eexists.
    + vm_compute. reflexivity.
    + split; [vm_compute; by eexists|].
      split; [by rewrite Ha|]. split; [by rewrite Ha|].
      vm_compute. by eexists.
  - intros st'.
    destruct (parse_time_store_counts_nothing conf100_raw 5 (host_at 1) st_t0 st'
                (txt "SELECT 1" ++ [Byte.x00]) 11 8 true 0%Q 0 one_block
                (txt "SELECT $1") 0%Q 0%Q) as (Ha & _).
    + exact st_t0_buckets_wf.
    + vm_compute. by eexists.
    + vm_compute. reflexivity.
    + split; [by rewrite Ha|]. by vm_compute.
Defined.

(** ** The histogram outside the durations it skips *)

(** Below the last edge that the loop compares with, a duration is counted
    in exactly one cell, the first whose edge is above it: a duration on the
    edge of a cell is counted in the next one. *)
Theorem duration_below_last_edge_counts_once (conf : pgsm_conf Q) (t : Q) :
  resp_conf_ok conf ->
  (t < inject_Z (resp_edge conf (MAX_RESPONSE_BUCKET conf - 2)))%Q ->
  exists j,
    resp_cells conf t = [j] /\
    0 <= j <= MAX_RESPONSE_BUCKET conf - 2 /\
    (t < inject_Z (resp_edge conf j))%Q /\
    (0 < j -> (inject_Z (resp_edge conf (j - 1)) <= t)%Q).
Proof. intros Hok Ht. by apply resp_cells_below. Qed.

(** Above [PGSM_RESPOSE_TIME_LOWER_BOUND + PGSM_RESPOSE_TIME_STEP *
    MAX_RESPONSE_BUCKET] a duration is counted once, in the last cell. *)
Theorem duration_above_top_edge_counts_last (conf : pgsm_conf Q) (t : Q) :
  resp_conf_ok conf ->
  (inject_Z (resp_edge conf (MAX_RESPONSE_BUCKET conf)) < t)%Q ->
  resp_cells conf t = [MAX_RESPONSE_BUCKET conf - 1].
Proof. intros Hok Ht. by apply resp_cells_above. Qed.

Lemma duration_below_last_edge_counts_once_witness :
  exists j,
    resp_cells conf8 (3 # 1) = [j] /\
    0 <= j <= 8 /\
    (3 # 1 < inject_Z (resp_edge conf8 j))%Q /\
    (0 < j -> (inject_Z (resp_edge conf8 (j - 1)) <= 3 # 1)%Q).
Proof.
  apply (duration_below_last_edge_counts_once conf8 (3 # 1)).
  - exact conf8_resp_ok.
  - by vm_compute.
Defined.

Lemma duration_above_top_edge_counts_last_witness :
  resp_cells conf8 (12 # 1) = [9].
Proof.
  apply (duration_above_top_edge_counts_last conf8 (12 # 1)).
  - exact conf8_resp_ok.
  - by vm_compute.
Defined.

(** ** What the counters of an entry tally *)

Section Tally.
Context {D : Type} {DD : Double D} (conf : pgsm_conf D).

Lemma total_time_update_time (n : Z) (x : D) (t : CallTime D) :
  total_time (update_time n x t) = d_add (total_time t) x.
Proof. destruct t. cbn. by destruct (n =? 1). Qed.

Lemma update_counters_tally (hst : host) (kind : bool) (x : D) (c : Counters D) (n : Z) :
  calls (kget kind (c_calls c)) = n ->
  0 <= n < 2 ^ 63 - 1 ->
  let c' := update_counters conf hst kind x 0 zero_blocks (d_of_Z 0) (d_of_Z 0) [] c in
  calls (kget kind (c_calls c')) = n + 1 /\
  kget kind (c_time c') = update_time (n + 1) x (kget kind (c_time c)) /\
  kget (negb kind) (c_calls c') = kget (negb kind) (c_calls c) /\
  kget (negb kind) (c_time c') = kget (negb kind) (c_time c).
Proof.
  intros Hn Hr c'. subst c'. unfold update_counters, update_calls.
  rewrite Hn. rewrite !(int64_small (n + 1)) by lia.
  by destruct kind.
Qed.

Lemma record_times_tally (hst : host) (kind : bool) (l : list D) :
  forall (c : Counters D),
  0 <= calls (kget kind (c_calls c)) ->
  calls (kget kind (c_calls c)) + Z.of_nat (length l) < 2 ^ 63 ->
  let c' := record_times conf hst kind l c in
  calls (kget kind (c_calls c')) = calls (kget kind (c_calls c)) + Z.of_nat (length l) /\
  total_time (kget kind (c_time c')) = foldl d_add (total_time (kget kind (c_time c))) l /\
  kget (negb kind) (c_calls c') = kget (negb kind) (c_calls c) /\
  kget (negb kind) (c_time c') = kget (negb kind) (c_time c).
Proof.
  induction l as [|x l IH]; intros c H0 Hlen.
  - cbn. repeat split. lia.
  - cbn [record_times foldl]. cbn [length] in Hlen.
    destruct (update_counters_tally hst kind x c _ eq_refl) as (Hc & Ht & Hoc & Hot); [lia|].
    set (c1 := update_counters _ _ _ _ _ _ _ _ _ c) in *.
    destruct (IH c1) as (Hc' & Ht' & Hoc' & Hot'); [lia..|].
    unfold record_times in Hc', Ht', Hoc', Hot'.
    rewrite Hc', Ht', Hoc', Hot', Hc, Ht, Hoc, Hot, total_time_update_time.
    cbn [length]. repeat split. lia.
Qed.

(** After a sequence of durations was recorded under one kind on fresh
    counters, in the arithmetic of the code as in any other, [calls] of that
    kind is the number of the durations and [total_time] is their sum, added
    up in the order of the calls; the calls and the times of the other kind
    are untouched. *)
Theorem record_times_tallies (hst : host) (kind : bool) (l : list D) :
  Z.of_nat (length l) < 2 ^ 63 ->
  let c := record_times conf hst kind l zero_counters in
  calls (kget kind (c_calls c)) = Z.of_nat (length l) /\
  total_time (kget kind (c_time c)) = d_sum l /\
  kget (negb kind) (c_calls c) = zero_calls /\
  kget (negb kind) (c_time c) = zero_time.
Proof.
  intros Hlen c.
  destruct (record_times_tally hst kind l zero_counters) as (Hc & Ht & Hoc & Hot).
  - by destruct kind.
  - by destruct kind.
  - fold c in Hc, Ht, Hoc, Hot. rewrite Hc, Ht, Hoc, Hot. by destruct kind.
Qed.

End Tally.

Lemma record_times_tallies_witness :
  let c := record_times conf8_float (host_at 0) true
             [1.5%float; 2.5%float; 0.25%float] zero_counters in
  calls (c_calls c).2 = 3 /\
  total_time (c_time c).2 = 4.25%float /\
  calls (c_calls c).1 = 0.
Proof.
  intros c.
  destruct (record_times_tallies conf8_float (host_at 0) true
              [1.5%float; 2.5%float; 0.25%float]) as (Hc & Ht & Hoc & _).
  - cbn. lia.
  - fold c in Hc, Ht, Hoc. cbn [kget negb] in Hc, Ht, Hoc.
    rewrite Hc, Ht, Hoc. by vm_compute.
Defined.

Section Extremes.
Context (conf : pgsm_conf Q).
Local Open Scope Q_scope.

Lemma update_time_extremes (p : list Q) (n : Z) (t : CallTime Q) (x : Q) :
  n = Z.of_nat (length p) ->
  (p <> [] -> extremes p t) ->
  extremes (p ++ [x]) (update_time (n + 1)%Z x t).
Proof.
  intros Hn Hp. destruct t as [total mn mx mean sv]. cbn [update_time].
  destruct (Z.eqb_spec (n + 1) 1) as [H1|H1].
  - assert (p = []) as -> by (destruct p; [done|cbn in Hn; lia]).
    unfold extremes. cbn.
    split; [by apply list_elem_of_singleton|].
    split; [by apply Forall_singleton, Qle_refl|].
    split; [by apply list_elem_of_singleton|].
    by apply Forall_singleton, Qle_refl.
  - destruct Hp as (Hmin & Hlo & Hmax & Hhi); [intros ->; cbn in Hn; lia|].
    unfold extremes. cbn [min_time max_time] in *.
    split; [|split; [|split]].
    + destruct (d_ltb x mn); apply elem_of_app; [right|left]; [|done].
      by apply list_elem_of_singleton.
    + destruct (d_ltb x mn) eqn:Hlt.
      * apply Q_ltb_lt in Hlt. apply Forall_app. split.
        -- eapply Forall_impl; [exact Hlo|]. intros y Hy. cbn in Hy.
           apply Qle_trans with mn; [by apply Qlt_le_weak|done].
        -- apply Forall_singleton, Qle_refl.
      * apply Q_ltb_ge in Hlt. apply Forall_app. split; [done|].
        by apply Forall_singleton.
    + destruct (d_ltb mx x); apply elem_of_app; [right|left]; [|done].
      by apply list_elem_of_singleton.
    + destruct (d_ltb mx x) eqn:Hlt.
      * apply Q_ltb_lt in Hlt. apply Forall_app. split.
        -- eapply Forall_impl; [exact Hhi|]. intros y Hy. cbn in Hy.
           apply Qle_trans with mx; [done|by apply Qlt_le_weak].
        -- apply Forall_singleton, Qle_refl.
      * apply Q_ltb_ge in Hlt. apply Forall_app. split; [done|].
        by apply Forall_singleton.
Qed.

Lemma record_times_extremes_from (hst : host) (kind : bool) (l : list Q) :
  forall (p : list Q) (c : Counters Q),
  (Z.of_nat (length (p ++ l)) < 2 ^ 63)%Z ->
  calls (kget kind (c_calls c)) = Z.of_nat (length p) ->
  (p <> [] -> extremes p (kget kind (c_time c))) ->
  p ++ l <> [] ->
  extremes (p ++ l) (kget kind (c_time (record_times conf hst kind l c))).
Proof.
  induction l as [|x l IH]; intros p c Hlen Hn Hp Hne.
  - cbn. rewrite app_nil_r in *. by apply Hp.
  - cbn [record_times foldl].
    rewrite length_app in Hlen. cbn [length] in Hlen.
    destruct (update_counters_tally conf hst kind x c _ eq_refl) as (Hc & Ht & _); [lia|].
    rewrite (assoc_L app p [x] l : p ++ x :: l = (p ++ [x]) ++ l).
    apply IH.
    + rewrite !length_app. cbn [length]. lia.
    + rewrite Hc, Hn, length_app. cbn [length]. lia.
    + intros _. rewrite Ht. by apply update_time_extremes.
    + by destruct p.
Qed.

(** After a non-empty sequence of durations was recorded under one kind on
    fresh counters, [min_time] is the smallest and [max_time] the largest of
    them. *)
Theorem record_times_extremes (hst : host) (kind : bool) (l : list Q) :
  l <> [] ->
  (Z.of_nat (length l) < 2 ^ 63)%Z ->
  extremes l (kget kind (c_time (record_times conf hst kind l zero_counters))).
Proof.
  intros Hne Hlen.
  apply (record_times_extremes_from hst kind l [] zero_counters); try done.
  by destruct kind.
Qed.

End Extremes.

Lemma record_times_extremes_witness :
  let t := kget true (c_time (record_times conf8 (host_at 0) true
                                [20 # 1; 10 # 1; 30 # 1]%Q zero_counters)) in
  min_time t = (10 # 1)%Q /\ max_time t = (30 # 1)%Q.
Proof.
  intros t.
  destruct (record_times_extremes conf8 (host_at 0) true [20 # 1; 10 # 1; 30 # 1]%Q)
    as (Hmin & _ & Hmax & _).
  - done.
  - cbn. lia.
  - split; by vm_compute.
Defined.

(** ** The comparator of the constant locations *)

(** [comp_location] is a comparator as [qsort] needs it: exchanging the
    arguments changes the sign of the result, the result is 0 exactly for
    equal locations and negative exactly for a smaller first location, and
    "not after" is transitive.  No location, however far from 0, makes it
    wrap. *)
Theorem comp_location_orders (a b c : pgssLocationLen) :
  comp_location a b = - comp_location b a /\
  (comp_location a b = 0 <-> location a = location b) /\
  (comp_location a b < 0 <-> location a < location b) /\
  (comp_location a b <= 0 -> comp_location b c <= 0 -> comp_location a c <= 0).
Proof.
  unfold comp_location. rewrite !Z.gtb_ltb.
  repeat match goal with
         | |- context [?x <? ?y] => destruct (Z.ltb_spec x y)
         end; lia.
Qed.

(** ** The relation names on their way to the entry *)

Section ObjectEntryFacts.
Context {D : Type} {DD : Double D} (conf : pgsm_conf D).

Ltac bind_ok H x E :=
  match type of H with
  | mbind _ ?m = Ok _ =>
      destruct m as [x| |] eqn:E; cbn [mbind result_bind] in H; [|discriminate..]
  end.

Lemma get_next_wbucket_object_hash (hst : host) (st st' : state D) (b : Z) :
  get_next_wbucket conf hst st = Ok (b, st') ->
  pgss_object_hash st' = pgss_object_hash st.
Proof.
  unfold get_next_wbucket. destruct (_ <? _); [|by intros [= <- <-]].
  intros H. bind_ok H st1 Hd. bind_ok H fifos Hf. bind_ok H be Hbe.
  injection H as <- <-. cbn.
  unfold entry_dealloc in Hd. bind_ok Hd ns Hns. by injection Hd as <-.
Qed.

(** The names that [add_object_entry] keeps for a fingerprint are the names
    that the next record call for the fingerprint finds, cut to
    [MAX_REL_LEN - 1] bytes, and the call removes them from the table: they
    are used once. *)
Theorem add_object_entry_consumed_by_store (hst : host) (st st' : state D)
    (query objects tables_name : list Byte.byte) (queryId query_len : Z)
    (key : pgssHashKey) (reset : bool) :
  queryId <> 0 ->
  pgss_object_hash st !! queryId = None ->
  pgss_store_key conf hst (add_object_entry conf queryId objects st)
    query queryId query_len = Ok (key, reset, tables_name, st') ->
  tables_name = take (Z.to_nat (MAX_REL_LEN conf - 1)) objects /\
  pgss_object_hash st' = pgss_object_hash st /\
  key_queryid key = queryId.
Proof.
  intros Hq Hnone. unfold add_object_entry. rewrite Hnone.
  unfold pgss_store_key.
  destruct (Z.eqb_spec queryId 0) as [?|_]; [done|].
  cbn [pgss_object_hash set_pgss_object_hash]. rewrite lookup_insert_eq.
  intros H. bind_ok H r Hg. destruct r as [b st1].
  apply get_next_wbucket_object_hash in Hg. cbn in Hg.
  injection H as <- <- <- <-. split; [|split; [|done]].
  - rewrite take_take. f_equal. lia.
  - rewrite delete_insert_id in Hg by done.
    by destruct (negb _).
Qed.

(** The first names kept for a fingerprint stay: [add_object_entry] for a
    fingerprint that has names changes nothing. *)
Theorem add_object_entry_keeps_first (st : state D) (queryId : Z)
    (objects names : list Byte.byte) :
  pgss_object_hash st !! queryId = Some names ->
  add_object_entry conf queryId objects st = st.
Proof. intros Hsome. unfold add_object_entry. by rewrite Hsome. Qed.

End ObjectEntryFacts.

Lemma add_object_entry_consumed_by_store_witness :
  exists key reset st',
    pgss_store_key conf8 (host_at 0) (add_object_entry conf8 7 (txt "public.t1") st_init)
      (txt "SELECT 1") 7 8 = Ok (key, reset, txt "public.t1", st') /\
    pgss_object_hash st' = ∅.
Proof.
  destruct (pgss_store_key conf8 (host_at 0)
              (add_object_entry conf8 7 (txt "public.t1") st_init) (txt "SELECT 1") 7 8)
    as [[[[key reset] tn] st']| |] eqn:Hk; [|by vm_compute in Hk..].
  destruct (add_object_entry_consumed_by_store conf8 (host_at 0) st_init st'
              (txt "SELECT 1") (txt "public.t1") tn 7 8 key reset) as (-> & Ho & _).
  - done.
  - done.
  - exact Hk.
  - exists key, reset, st'. split; [done|]. by rewrite Ho.
Defined.

Lemma add_object_entry_keeps_first_witness :
  add_object_entry conf8 7 (txt "public.t2")
    (add_object_entry conf8 7 (txt "public.t1") st_init)
  = add_object_entry conf8 7 (txt "public.t1") st_init.
Proof.
  apply (add_object_entry_keeps_first conf8 _ 7 (txt "public.t2") (txt "public.t1")).
  by vm_compute.
Defined.

(** ** The statement without the white space around it *)

Section StatementTextFacts.
Variable scanner_isspace : Byte.byte -> bool.

Local Abbreviation spaces := (Forall (fun c => scanner_isspace c = true)).

Lemma take_plus {A} (a b : nat) (m : list A) :
  take (a + b) m = take a m ++ take b (drop a m).
Proof.
  revert m. induction a as [|a IH]; intros [|x m]; cbn; try done.
  - by rewrite take_nil.
  - by rewrite IH.
Qed.

Lemma skip_leading_space_spec (src : list Byte.byte) (fuel : nat) :
  forall p loc len,
  0 <= p -> 0 <= len -> p + len <= Z.of_nat (length src) ->
  0 <= loc -> loc + len < 2 ^ 31 ->
  (Z.to_nat len < fuel)%nat ->
  exists k,
    skip_leading_space scanner_isspace fuel src p loc len = Ok (p + k, loc + k, len - k) /\
    0 <= k <= len /\
    spaces (take (Z.to_nat k) (drop (Z.to_nat p) src)) /\
    (k < len -> exists c, src !! Z.to_nat (p + k) = Some c /\ scanner_isspace c = false).
Proof.
  induction fuel as [|fuel IH]; intros p loc len Hp Hlen Hfit Hloc Hint Hfuel; [lia|].
  cbn [skip_leading_space].
  destruct (Z.ltb_spec 0 len) as [Hpos|Hzero]; cycle 1.
  { exists 0. rewrite !Z.add_0_r, Z.sub_0_r. split; [done|]. split; [lia|].
    split; [by constructor|lia]. }
  unfold c_char, array_get.
  destruct (Z.eqb_spec p (Z.of_nat (length src))) as [?|_]; [lia|].
  destruct (Z.leb_spec 0 p) as [_|?]; [|lia].
  destruct (lookup_lt_is_Some_2 src (Z.to_nat p)) as [c Hc]; [lia|].
  rewrite Hc. cbn [of_option mbind result_bind].
  destruct (scanner_isspace c) eqn:Hsp; cycle 1.
  { exists 0. rewrite !Z.add_0_r, Z.sub_0_r. split; [done|]. split; [lia|].
    split; [by constructor|]. intros _. by exists c. }
  rewrite !int32_small by lia.
  destruct (IH (p + 1) (loc + 1) (len - 1)) as (k & Hrun & Hk & Hsps & Hstop); [lia..|].
  exists (k + 1). rewrite Hrun.
  replace (p + 1 + k) with (p + (k + 1)) by lia.
  replace (loc + 1 + k) with (loc + (k + 1)) by lia.
  replace (len - 1 - k) with (len - (k + 1)) by lia.
  split; [done|]. split; [lia|]. split.
  - rewrite (drop_S _ _ _ Hc).
    replace (Z.to_nat (k + 1)) with (S (Z.to_nat k)) by lia. cbn [take].
    constructor; [done|].
    by replace (S (Z.to_nat p)) with (Z.to_nat (p + 1)) by lia.
  - intros Hlt. destruct Hstop as (c' & Hc' & Hns); [lia|].
    exists c'. split; [|done]. by replace (p + (k + 1)) with (p + 1 + k) by lia.
Qed.

Lemma skip_trailing_space_spec (src : list Byte.byte) (p : Z) (fuel : nat) :
  forall len,
  0 <= p -> 0 <= len < 2 ^ 31 -> p + len <= Z.of_nat (length src) ->
  (Z.to_nat len < fuel)%nat ->
  exists k,
    skip_trailing_space scanner_isspace fuel src p len = Ok (len - k) /\
    0 <= k <= len /\
    spaces (take (Z.to_nat k) (drop (Z.to_nat (p + len - k)) src)) /\
    (k < len ->
     exists c, src !! Z.to_nat (p + len - k - 1) = Some c /\ scanner_isspace c = false).
Proof.
  induction fuel as [|fuel IH]; intros len Hp Hlen Hfit Hfuel; [lia|].
  cbn [skip_trailing_space].
  destruct (Z.ltb_spec 0 len) as [Hpos|Hzero]; cycle 1.
  { exists 0. rewrite Z.sub_0_r. split; [done|]. split; [lia|].
    split; [by constructor|lia]. }
  unfold c_char, array_get.
  destruct (Z.eqb_spec (p + (len - 1)) (Z.of_nat (length src))) as [?|_]; [lia|].
  destruct (Z.leb_spec 0 (p + (len - 1))) as [_|?]; [|lia].
  destruct (lookup_lt_is_Some_2 src (Z.to_nat (p + (len - 1)))) as [c Hc]; [lia|].
  rewrite Hc. cbn [of_option mbind result_bind].
  destruct (scanner_isspace c) eqn:Hsp; cycle 1.
  { exists 0. rewrite !Z.sub_0_r. split; [done|]. split; [lia|].
    split; [by constructor|]. intros _. exists c. split; [|done].
    by replace (p + len - 1) with (p + (len - 1)) by lia. }
  rewrite !int32_small by lia.
  destruct (IH (len - 1)) as (k & Hrun & Hk & Hsps & Hstop); [lia..|].
  exists (k + 1). rewrite Hrun.
  replace (len - 1 - k) with (len - (k + 1)) by lia.
  split; [done|]. split; [lia|]. split.
  - replace (p + len - (k + 1)) with (p + (len - 1) - k) by lia.
    replace (Z.to_nat (k + 1)) with (S (Z.to_nat k)) by lia.
    rewrite (take_S_r _ _ c).
    + apply Forall_app. split; [done|]. by apply Forall_singleton.
    + rewrite lookup_drop, <- Hc. f_equal. lia.
  - intros Hlt. destruct Hstop as (c' & Hc' & Hns); [lia|].
    exists c'. split; [|done]. rewrite <- Hc'. f_equal. lia.
Qed.

(** The part of [pgss_store] that finds the statement in the source string
    stops with [query] at offset [query_location] of the string, and the
    [query_len] bytes from there are the statement without the white space
    in front of it and behind it: what was skipped is white space, and the
    first and the last byte kept are not. *)
Theorem pgss_store_text_trims (fuel : nat) (src : list Byte.byte)
    (query_location query_len : Z) :
  Z.of_nat (length src) < 2 ^ 31 ->
  (length src < fuel)%nat ->
  (0 <= query_location ->
   query_location <= Z.of_nat (length src) /\
   query_location + query_len <= Z.of_nat (length src)) ->
  exists p loc len lead trail,
    pgss_store_text scanner_isspace fuel src query_location query_len = Ok (p, loc, len) /\
    p = loc /\
    0 <= len /\
    (let '(start, len0) := statement_span src query_location query_len in
     take (Z.to_nat len0) (drop (Z.to_nat start) src)
     = lead ++ take (Z.to_nat len) (drop (Z.to_nat p) src) ++ trail /\
     loc = start + Z.of_nat (length lead)) /\
    spaces lead /\ spaces trail /\
    (0 < len ->
     (exists c, src !! Z.to_nat p = Some c /\ scanner_isspace c = false) /\
     (exists c, src !! Z.to_nat (p + len - 1) = Some c /\ scanner_isspace c = false)).
Proof.
  intros Hint Hfuel Hassert.
  set (span := statement_span src query_location query_len).
  assert (Hspan : exists start len0,
             span = (start, len0) /\ 0 <= start /\ 0 <= len0 /\
             start + len0 <= Z.of_nat (length src) /\
             (if 0 <=? query_location then
                if query_len <=? 0
                then c_strlen src query_location ≫= (fun len => Ok (query_location, query_location, int32 len))
                else Ok (query_location, query_location, query_len)
              else c_strlen src 0 ≫= (fun len => Ok (0, 0, int32 len)))
             = Ok (start, start, len0)).
  { subst span. unfold statement_span, c_strlen.
    destruct (Z.leb_spec 0 query_location) as [Hq|Hq].
    - destruct (Hassert Hq) as [Hq1 Hq2].
      destruct (Z.leb_spec query_len 0) as [Hl|Hl].
      + do 2 eexists. split; [done|]. split; [done|]. split; [lia|]. split; [lia|].
        destruct (Z.leb_spec query_location (Z.of_nat (length src))); [|lia].
        cbn [andb mbind result_bind]. by rewrite int32_small by lia.
      + do 2 eexists. split; [done|]. split; [done|]. split; [lia|]. split; [lia|done].
    - do 2 eexists. split; [done|]. split; [done|]. split; [lia|]. split; [lia|].
      destruct (Z.leb_spec 0 (Z.of_nat (length src))); [|lia].
      change (0 <=? 0) with true. cbn [andb mbind result_bind].
      rewrite Z.sub_0_r. by rewrite int32_small by lia. }
  destruct Hspan as (start & len0 & Hsp & Hstart & Hlen0 & Hfit & Hrun0).
  unfold pgss_store_text. rewrite Hsp.
  match goal with
  | |- context [mbind _ ?m] =>
      match m with
      | (if 0 <=? query_location then _ else _) => replace m with (Ok (start, start, len0) : result (Z * Z * Z))
      end
  end.
  cbn [mbind result_bind].
  destruct (skip_leading_space_spec src fuel start start len0)
    as (k1 & Hrun1 & Hk1 & Hs1 & Hstop1); [lia..|].
  rewrite Hrun1. cbn [mbind result_bind].
  destruct (skip_trailing_space_spec src (start + k1) fuel (len0 - k1))
    as (k2 & Hrun2 & Hk2 & Hs2 & Hstop2); [lia..|].
  rewrite Hrun2. cbn [mbind result_bind].
  exists (start + k1), (start + k1), (len0 - k1 - k2),
    (take (Z.to_nat k1) (drop (Z.to_nat start) src)),
    (take (Z.to_nat k2) (drop (Z.to_nat (start + k1 + (len0 - k1) - k2)) src)).
  split; [done|]. split; [done|]. split; [lia|]. split; [split|].
  - replace (Z.to_nat len0)
      with (Z.to_nat k1 + (Z.to_nat (len0 - k1 - k2) + Z.to_nat k2))%nat by lia.
    rewrite !take_plus, !drop_drop. repeat f_equal; lia.
  - rewrite length_take, length_drop. lia.
  - split; [done|]. split; [done|]. intros Hpos. split.
    + destruct Hstop1 as (c & Hc & Hns); [lia|]. by exists c.
    + destruct Hstop2 as (c & Hc & Hns); [lia|]. exists c. split; [|done].
      rewrite <- Hc. f_equal. lia.
Qed.

End StatementTextFacts.

Lemma pgss_store_text_trims_witness :
  pgss_store_text is_space 40 (txt "SELECT 1;  SELECT 2 ; SELECT 3") 9 11 = Ok (11, 11, 8) /\
  take 8 (drop 11 (txt "SELECT 1;  SELECT 2 ; SELECT 3")) = txt "SELECT 2".
Proof.
  destruct (pgss_store_text_trims is_space 40 (txt "SELECT 1;  SELECT 2 ; SELECT 3") 9 11)
    as (p & loc & len & lead & trail & Hrun & _).
  - cbn. lia.
  - cbn. lia.
  - intros _. cbn. lia.
  - split; by vm_compute.
Defined.

(** ** The histogram as a text *)

Section DatumFacts.
Variable sprintf_d : Z -> list Byte.byte.

Local Abbreviation short := (Forall (fun v => (length (sprintf_d v) <= 7)%nat)).

Lemma array_get_datum_loop_spec (arr : list Z) (n : nat) :
  forall j first str,
  0 <= j ->
  (Z.to_nat j + n <= length arr)%nat ->
  (length str + 9 * n < 1024)%nat ->
  exists str',
    array_get_datum_loop sprintf_d n arr j first str = Ok str' /\
    (length str' <= length str + 9 * n)%nat /\
    (short (take n (drop (Z.to_nat j) arr)) ->
     str' = str ++ joined_ints sprintf_d first (take n (drop (Z.to_nat j) arr))).
Proof.
  induction n as [|n IH]; intros j first str Hj Hlen Hroom.
  - exists str. split; [done|]. split; [lia|]. intros _. cbn. by rewrite app_nil_r.
  - cbn [array_get_datum_loop]. unfold array_get.
    destruct (Z.leb_spec 0 j) as [_|?]; [|lia].
    destruct (lookup_lt_is_Some_2 arr (Z.to_nat j)) as [v Hv]; [lia|].
    rewrite Hv. cbn [of_option mbind result_bind].
    set (tmp := if first then _ else _).
    assert (Htmp : (length tmp <= 9)%nat).
    { subst tmp. unfold snprintf_10. destruct first; rewrite length_take; lia. }
    unfold strcat_1024.
    destruct (Z.leb_spec (Z.of_nat (length str + length tmp + 1)) 1024) as [_|?]; [|lia].
    cbn [mbind result_bind].
    destruct (IH (j + 1) false (str ++ tmp)) as (str' & Hrun & Hl & Hjoin);
      [lia|lia|rewrite length_app; lia|].
    exists str'. split; [done|]. split; [rewrite length_app in Hl; lia|].
    rewrite (drop_S _ _ _ Hv). cbn [take joined_ints]. intros Hshort.
    apply Forall_cons in Hshort as [Hv7 Hshort].
    replace (Z.to_nat (j + 1)) with (S (Z.to_nat j)) in Hjoin by lia.
    rewrite (Hjoin Hshort), <- app_assoc. do 2 f_equal.
    subst tmp. unfold snprintf_10.
    destruct first; apply take_ge; [lia|]. rewrite length_app. cbn. lia.
Qed.

(** [array_get_datum] returns for every array of ten numbers and never
    writes past its 1024 bytes: the text has at most 90 bytes.  When each
    number prints in at most 7 bytes, the text is the ten numbers with
    [", "] between them; a longer number is cut by [snprintf(tmp, 10, ...)]. *)
Theorem array_get_datum_joins (arr : list Z) :
  (10 <= length arr)%nat ->
  exists str,
    array_get_datum sprintf_d arr = Ok str /\
    (length str <= 90)%nat /\
    (short (take 10 arr) -> str = joined_ints sprintf_d true (take 10 arr)).
Proof.
  intros Hlen.
  destruct (array_get_datum_loop_spec arr 10 0 true []) as (str & Hrun & Hl & Hjoin);
    [lia|cbn; lia|cbn; lia|].
  exists str. split; [done|]. split; [cbn in Hl; lia|]. done.
Qed.

End DatumFacts.

Lemma array_get_datum_joins_witness :
  exists str,
    array_get_datum decimal [12; 0; 345; 0; 0; 0; 0; 0; 0; 7] = Ok str /\
    (length str <= 90)%nat /\
    str = txt "12, 0, 345, 0, 0, 0, 0, 0, 0, 7".
Proof.
  destruct (array_get_datum_joins decimal [12; 0; 345; 0; 0; 0; 0; 0; 0; 7])
    as (str & Hrun & Hl & Hjoin).
  - cbn. lia.
  - exists str. split; [done|]. split; [done|].
    rewrite Hjoin; [by vm_compute|].
    repeat constructor; vm_compute; lia.
Defined.

(** ** The normalized text *)

Lemma mem_read_middle (pre x post : list Byte.byte) :
  mem_read (pre ++ x ++ post) (Z.of_nat (length pre)) (Z.of_nat (length x)) = Some x.
Proof.
  unfold mem_read. rewrite !length_app.
  destruct (Z.leb_spec 0 (Z.of_nat (length pre))) as [_|?]; [|lia].
  destruct (Z.leb_spec 0 (Z.of_nat (length x))) as [_|?]; [|lia].
  destruct (Z.leb_spec (Z.of_nat (length pre) + Z.of_nat (length x))
              (Z.of_nat (length pre + (length x + length post)))) as [_|?]; [|lia].
  cbn [andb]. by rewrite !Nat2Z.id, drop_app_length, take_app_length.
Qed.

Lemma mem_write_prefix (buf : list Byte.byte) (n : Z) (a b : list Byte.byte) :
  0 <= n ->
  n + Z.of_nat (length (a ++ b)) <= Z.of_nat (length buf) ->
  exists buf',
    mem_write buf n (a ++ b) = Some buf' /\
    length buf' = length buf /\
    take (Z.to_nat (n + Z.of_nat (length a))) buf' = take (Z.to_nat n) buf ++ a /\
    (forall c, head b = Some c -> buf' !! Z.to_nat (n + Z.of_nat (length a)) = Some c).
Proof.
  intros Hn Hfit. unfold mem_write.
  destruct (Z.leb_spec 0 n) as [_|?]; [|lia].
  destruct (Z.leb_spec (n + Z.of_nat (length (a ++ b))) (Z.of_nat (length buf)))
    as [_|?]; [|lia].
  cbn [andb]. eexists. split; [done|].
  assert (Hl : length (take (Z.to_nat n) buf) = Z.to_nat n) by (rewrite length_take; lia).
  split; [|split].
  - rewrite !length_app, length_take, length_drop. rewrite length_app in Hfit. lia.
  - replace (Z.to_nat (n + Z.of_nat (length a)))
      with (length (take (Z.to_nat n) buf) + length a)%nat by lia.
    rewrite take_app_add. f_equal. rewrite <- app_assoc. apply take_app_length.
  - intros c Hc. apply head_Some in Hc as [b' ->].
    replace (Z.to_nat (n + Z.of_nat (length a)))
      with (length (take (Z.to_nat n) buf) + (length a + 0))%nat by lia.
    rewrite lookup_app_r by lia. rewrite <- !app_assoc.
    replace (length (take (Z.to_nat n) buf) + (length a + 0)
             - length (take (Z.to_nat n) buf))%nat with (length a + 0)%nat by lia.
    rewrite lookup_app_r by lia.
    by replace (length a + 0 - length a)%nat with 0%nat by lia.
Qed.

Section NormalizeFacts.
Variable sprintf_d : Z -> list Byte.byte.
Hypothesis Hdigits : forall k, 0 <= k < 2 ^ 31 -> (length (sprintf_d k) <= 10)%nat.

Lemma pieces_text_cons text const pieces rest :
  pieces_text ((text, const) :: pieces) rest = text ++ const ++ pieces_text pieces rest.
Proof. unfold pieces_text. cbn. by rewrite <- !app_assoc. Qed.

Lemma pieces_text_rest pieces rest :
  pieces_text pieces rest = pieces_text pieces [] ++ rest.
Proof. unfold pieces_text. by rewrite app_nil_r. Qed.

Lemma pieces_normalized_rest i pieces rest :
  pieces_normalized sprintf_d i pieces rest
  = pieces_normalized sprintf_d i pieces [] ++ rest.
Proof.
  revert i. induction pieces as [|[text const] pieces IH]; intros i; [done|].
  cbn [pieces_normalized]. rewrite IH. by rewrite <- !app_assoc.
Qed.

Lemma length_pieces_locations start pieces :
  length (pieces_locations start pieces) = length pieces.
Proof.
  revert start. induction pieces as [|[text const] pieces IH]; intros start; [done|].
  cbn. by rewrite IH.
Qed.

Lemma generate_normalized_query_loop_spec (rest more : list Byte.byte)
    (query_loc highest B : Z) (pieces : list (list Byte.byte * list Byte.byte)) :
  forall (pre norm : list Byte.byte) (i n last_off last_tok_len : Z),
  0 <= query_loc -> 0 <= highest -> 0 <= i ->
  i + Z.of_nat (length pieces) + highest < 2 ^ 31 ->
  query_loc + Z.of_nat (length (pre ++ pieces_text pieces rest)) < 2 ^ 31 ->
  last_off + last_tok_len = Z.of_nat (length pre) ->
  0 <= last_off -> 0 <= last_tok_len ->
  Z.of_nat (length norm) = B + 1 -> B < 2 ^ 31 ->
  0 <= n ->
  n + Z.of_nat (length (pieces_text pieces rest)) + 10 * Z.of_nat (length pieces) <= B ->
  Forall (fun piece => piece.2 <> []) pieces ->
  exists norm' n',
    generate_normalized_query_loop sprintf_d (pre ++ pieces_text pieces rest ++ more)
      query_loc highest (pieces_locations (query_loc + Z.of_nat (length pre)) pieces)
      i norm (Z.of_nat (length pre)) n last_off last_tok_len
    = Ok (norm', Z.of_nat (length (pre ++ pieces_text pieces [])), n') /\
    length norm' = length norm /\
    0 <= n' /\ n' + Z.of_nat (length rest) <= B /\
    take (Z.to_nat n') norm'
    = take (Z.to_nat n) norm ++ pieces_normalized sprintf_d (i + 1 + highest) pieces [].
Proof.
  induction pieces as [|[text const] pieces IH];
    intros pre norm i n last_off last_tok_len Hql Hhi Hi Hidx Hsize Hlast Hlo Hlt
      Hnorm HB Hn Hroom Hconst.
  - cbn [pieces_locations generate_normalized_query_loop pieces_normalized].
    exists norm, n. unfold pieces_text in *. cbn in *.
    rewrite !app_nil_r. repeat split; try done; lia.
  - apply Forall_cons in Hconst as [Hc Hconst]. cbn [snd] in Hc.
    assert (Hclen : 0 < Z.of_nat (length const)) by (destruct const; [done|cbn; lia]).
    rewrite !pieces_text_cons in *.
    repeat rewrite length_app in Hsize. repeat rewrite length_app in Hroom.
    cbn [length] in Hidx, Hroom.
    cbn [pieces_locations generate_normalized_query_loop location length_of_constant].
    assert (Hq : pre ++ (text ++ const ++ pieces_text pieces rest) ++ more
                 = pre ++ text ++ (const ++ pieces_text pieces rest ++ more))
      by (by rewrite <- !app_assoc).
    assert (Hq' : pre ++ text ++ (const ++ pieces_text pieces rest ++ more)
                  = (pre ++ text ++ const) ++ pieces_text pieces rest ++ more)
      by (by rewrite <- !app_assoc).
    assert (Hq'' : pre ++ text ++ const ++ pieces_text pieces []
                   = (pre ++ text ++ const) ++ pieces_text pieces [])
      by (by rewrite <- !app_assoc).
    rewrite Hq, Hq''.
    pose proof (mem_read_middle pre text (const ++ pieces_text pieces rest ++ more))
      as Hread.
    set (ql := Z.of_nat (length pre)) in *.
    set (tl := Z.of_nat (length text)) in *.
    set (cl := Z.of_nat (length const)) in *.
    replace (query_loc + ql + tl - query_loc) with (ql + tl) by lia.
    rewrite (int32_small (ql + tl)) by lia.
    destruct (Z.ltb_spec cl 0) as [?|_]; [lia|].
    replace (ql + tl - last_off) with (tl + last_tok_len) by lia.
    rewrite (int32_small (tl + last_tok_len)) by lia.
    replace (tl + last_tok_len - last_tok_len) with tl by lia.
    rewrite (int32_small tl) by lia.
    rewrite Hread. cbn [of_option mbind result_bind].
    destruct (mem_write_prefix norm n text []) as (norm1 & Hw1 & Hl1 & Ht1 & _);
      [lia|rewrite app_nil_r; lia|].
    rewrite app_nil_r in Hw1. rewrite Hw1. cbn [of_option mbind result_bind].
    fold tl in Ht1.
    rewrite (int32_small (n + tl)) by lia.
    rewrite (int32_small (i + 1)) by lia.
    rewrite (int32_small (i + 1 + highest)) by lia.
    set (symbol := txt "$" ++ sprintf_d (i + 1 + highest)).
    assert (Hsym : (length symbol <= 11)%nat).
    { subst symbol. rewrite length_app.
      pose proof (Hdigits (i + 1 + highest)). cbn in *. lia. }
    destruct (mem_write_prefix norm1 (n + tl) symbol [Byte.x00])
      as (norm2 & Hw2 & Hl2 & Ht2 & _); [lia|rewrite length_app; cbn [length]; lia|].
    rewrite Hw2. cbn [of_option mbind result_bind].
    rewrite (int32_small (n + tl + _)) by lia.
    rewrite (int32_small (ql + tl + cl)) by lia.
    destruct (IH (pre ++ text ++ const) norm2 (i + 1)
                (n + tl + Z.of_nat (length symbol)) (ql + tl) cl)
      as (norm' & n' & Hrun & Hl' & Hn' & Hroom' & Ht'); try done; try lia.
    { rewrite <- !app_assoc, !length_app. lia. }
    { rewrite !length_app. lia. }
    replace (query_loc + Z.of_nat (length (pre ++ text ++ const)))
      with (query_loc + ql + tl + cl) in Hrun by (rewrite !length_app; lia).
    replace (Z.of_nat (length (pre ++ text ++ const))) with (ql + tl + cl) in Hrun at 1
      by (rewrite !length_app; lia).
    rewrite <- Hq' in Hrun. rewrite Hrun.
    exists norm', n'. split; [done|].
    split; [lia|]. split; [done|]. split; [done|].
    rewrite Ht', Ht2, Ht1. cbn [pieces_normalized].
    replace (i + 1 + 1 + highest) with (i + 1 + highest + 1) by lia.
    subst symbol. by rewrite <- !app_assoc.
Qed.

(** [generate_normalized_query] copies the statement with each constant
    replaced by a parameter symbol: for a statement made of stretches of
    text with a constant behind each, and constants recorded at their
    locations with their lengths, the result is the stretches of text with
    [$n] behind each, numbered from [highest_extern_param_id + 1], followed
    by a NUL.  What the constants were does not matter, and the text behind
    the statement in the source string is not copied.  The buffer of
    [query_len + 10 * clocations_count + 1] bytes is large enough when no
    constant is empty and no number prints in more than 10 bytes. *)
Theorem generate_normalized_query_replaces_constants (buffer : list Byte.byte)
    (jstate : pgssJumbleState) (pieces : list (list Byte.byte * list Byte.byte))
    (rest more : list Byte.byte) (query_loc : Z) :
  let query_len := Z.of_nat (length (pieces_text pieces rest)) in
  clocations jstate = pieces_locations query_loc pieces ->
  Forall (fun piece => piece.2 <> []) pieces ->
  Z.of_nat (length buffer) = norm_query_buflen jstate query_len + 1 ->
  0 <= query_loc ->
  query_loc + query_len + 10 * Z.of_nat (length pieces) < 2 ^ 31 ->
  0 <= highest_extern_param_id jstate ->
  highest_extern_param_id jstate + Z.of_nat (length pieces) < 2 ^ 31 ->
  exists norm_query n,
    generate_normalized_query sprintf_d buffer jstate (pieces_text pieces rest ++ more)
      query_loc query_len = Ok (norm_query, n) /\
    take (Z.to_nat n) norm_query
    = pieces_normalized sprintf_d (highest_extern_param_id jstate + 1) pieces rest /\
    norm_query !! Z.to_nat n = Some Byte.x00.
Proof.
  intros query_len Hlocs Hconst Hbuf Hql Hsize Hhi Hidx.
  unfold norm_query_buflen in Hbuf. rewrite Hlocs, length_pieces_locations in Hbuf.
  rewrite (int32_small (_ * 10)) in Hbuf by lia.
  rewrite int32_small in Hbuf by lia.
  set (B := query_len + Z.of_nat (length pieces) * 10) in *.
  unfold generate_normalized_query. rewrite Hlocs.
  destruct (generate_normalized_query_loop_spec rest more query_loc
              (highest_extern_param_id jstate) B pieces [] buffer 0 0 0 0)
    as (norm1 & n1 & Hrun & Hl1 & Hn1 & Hroom1 & Ht1); try done; try lia.
  { cbn [app]. fold query_len. lia. }
  cbn [app] in Hrun. change (Z.of_nat (length (@nil Byte.byte))) with 0 in Hrun.
  rewrite Z.add_0_r in Hrun. rewrite Hrun.
  cbn [mbind result_bind].
  set (bl := Z.of_nat (length (pieces_text pieces []))) in *.
  assert (Hqlen : query_len = bl + Z.of_nat (length rest)).
  { subst query_len bl. rewrite (pieces_text_rest pieces rest), length_app. lia. }
  assert (Hbl : 0 <= bl) by (subst bl; lia).
  replace (query_len - bl) with (Z.of_nat (length rest)) by lia.
  rewrite !(int32_small (Z.of_nat (length rest))) by lia.
  rewrite (pieces_text_rest pieces rest), <- app_assoc. subst bl.
  rewrite (mem_read_middle (pieces_text pieces []) rest more).
  cbn [of_option mbind result_bind].
  destruct (mem_write_prefix norm1 n1 rest []) as (norm2 & Hw2 & Hl2 & Ht2 & _);
    [lia|rewrite app_nil_r; lia|].
  rewrite app_nil_r in Hw2. rewrite Hw2. cbn [of_option mbind result_bind].
  rewrite int32_small by lia.
  destruct (mem_write_prefix norm2 (n1 + Z.of_nat (length rest)) [] [Byte.x00])
    as (norm3 & Hw3 & Hl3 & Ht3 & Hnul); [lia|cbn [app length]; lia|].
  cbn [app] in Hw3. rewrite Hw3. cbn [of_option mbind result_bind].
  cbn [length] in Ht3, Hnul. rewrite Z.add_0_r in Ht3, Hnul.
  exists norm3, (n1 + Z.of_nat (length rest)). split; [done|]. split.
  - rewrite Ht3, app_nil_r, Ht2, Ht1.
    change (take (Z.to_nat 0) buffer) with (@nil Byte.byte). cbn [app].
    rewrite (pieces_normalized_rest _ pieces rest).
    by replace (0 + 1 + highest_extern_param_id jstate)
         with (highest_extern_param_id jstate + 1) by lia.
  - by apply Hnul.
Qed.

End NormalizeFacts.

Lemma decimal_short (k : Z) : 0 <= k < 2 ^ 31 -> (length (decimal k) <= 10)%nat.
Proof.
  intros Hk. unfold decimal. destruct (Z.ltb_spec k 0) as [?|_]; [lia|].
  assert (H : forall fuel n acc,
            (length (decimal_digits fuel n acc) <= length acc + fuel)%nat).
  { induction fuel as [|fuel IH]; intros n acc; cbn [decimal_digits]; [lia|].
    destruct (_ =? _); [cbn; lia|]. etransitivity; [apply IH|]. cbn. lia. }
  apply (H 10%nat k []).
Qed.

Lemma generate_normalized_query_replaces_constants_witness :
  exists norm_query n,
    generate_normalized_query decimal (replicate 60 Byte.xff)
      (mkJumbleState [] 0 [mkLocationLen 26 2; mkLocationLen 37 1] 32 0)
      (txt "SELECT a FROM t WHERE b = 42 AND c = 7; SELECT 2") 0 39
    = Ok (norm_query, n) /\
    take (Z.to_nat n) norm_query = txt "SELECT a FROM t WHERE b = $1 AND c = $2;" /\
    norm_query !! Z.to_nat n = Some Byte.x00.
Proof.
  refine (generate_normalized_query_replaces_constants decimal decimal_short
            (replicate 60 Byte.xff)
            (mkJumbleState [] 0 [mkLocationLen 26 2; mkLocationLen 37 1] 32 0)
            [(txt "SELECT a FROM t WHERE b = ", txt "42"); (txt " AND c = ", txt "7")]
            (txt ";") (txt " SELECT 2") 0 _ _ _ _ _ _ _).
  - done.
  - by repeat constructor.
  - by vm_compute.
  - lia.
  - by vm_compute.
  - cbn. lia.
  - cbn. lia.
Defined.

(** ** What the walk does to the constant locations *)

Section WalkKeeps.
Variable JUMBLE_SIZE : Z.
Variable hash_any_extended : list Byte.byte -> Z.
Variable NodeTag_value : NodeTag -> Z.
Variable stack_has_room : nat -> bool.

Variable R : pgssJumbleState -> pgssJumbleState -> Prop.
Hypothesis R_refl : forall js, R js js.
Hypothesis R_trans : forall js1 js2 js3, R js1 js2 -> R js2 js3 -> R js1 js3.
Hypothesis R_jumble : forall js jumble jumble_len,
  R js (mkJumbleState jumble jumble_len (clocations js) (clocations_buf_size js)
          (highest_extern_param_id js)).
Hypothesis R_record : forall js location buf_size,
  0 <= location ->
  R js (mkJumbleState (jumble js) (jumble_len js)
          (clocations js ++ [mkLocationLen location (-1)]) buf_size
          (highest_extern_param_id js)).
Hypothesis R_track : forall js paramid,
  highest_extern_param_id js < paramid ->
  R js (mkJumbleState (jumble js) (jumble_len js) (clocations js)
          (clocations_buf_size js) paramid).

Local Abbreviation keeps := (walk_keeps R).

Lemma keeps_ret : keeps (mret ()).
Proof. intros js log. apply R_refl. Qed.

Lemma keeps_bind (m : J unit) (k : unit -> J unit) :
  keeps m -> (forall u, keeps (k u)) -> keeps (m ≫= k).
Proof.
  intros Hm Hk js log. unfold mbind, J_bind.
  specialize (Hm js log). destruct (m js log) as [[] js1 log1| | |]; try done.
  specialize (Hk () js1 log1). destruct (k () js1 log1); try done; by eapply R_trans.
Qed.

Lemma keeps_AppendJumble item :
  keeps (AppendJumble JUMBLE_SIZE hash_any_extended item).
Proof.
  intros js log. unfold AppendJumble.
  destruct (AppendJumble_loop _ _ _ _ _ _) as [[jumble len]| |]; [|done..].
  apply R_jumble.
Qed.

Lemma keeps_APP_JUMB w item : keeps (APP_JUMB JUMBLE_SIZE hash_any_extended w item).
Proof. apply keeps_AppendJumble. Qed.

Lemma keeps_APP_JUMB_BOOL item :
  keeps (APP_JUMB_BOOL JUMBLE_SIZE hash_any_extended item).
Proof. apply keeps_AppendJumble. Qed.

Lemma keeps_APP_JUMB_STRING str :
  keeps (APP_JUMB_STRING JUMBLE_SIZE hash_any_extended str).
Proof. apply keeps_AppendJumble. Qed.

Lemma keeps_RecordConstLocation loc : keeps (RecordConstLocation loc).
Proof.
  intros js log. unfold RecordConstLocation.
  destruct (Z.leb_spec 0 loc); [by apply R_record|apply R_refl].
Qed.

Lemma keeps_track_extern_param kind id : keeps (track_extern_param kind id).
Proof.
  intros js log. unfold track_extern_param.
  destruct (kind =? PARAM_EXTERN); cbn [andb]; [|apply R_refl].
  destruct (Z.ltb_spec (highest_extern_param_id js) id); [by apply R_track|apply R_refl].
Qed.

Lemma keeps_jelog lvl msg arg : keeps (jelog lvl msg arg).
Proof. intros js log. destruct lvl; apply R_refl. Qed.

Lemma keeps_check_stack_depth depth : keeps (check_stack_depth stack_has_room depth).
Proof.
  unfold check_stack_depth. destruct (stack_has_room depth);
    [apply keeps_ret|apply keeps_jelog].
Qed.

Lemma keeps_JumbleInts ints : keeps (JumbleInts JUMBLE_SIZE hash_any_extended ints).
Proof.
  induction ints as [|i ints IH]; cbn [JumbleInts]; [apply keeps_ret|].
  apply keeps_bind; [apply keeps_APP_JUMB|]. by intros [].
Qed.

Ltac keeps_walk :=
  repeat lazymatch goal with
    | |- keeps (mret _) => apply keeps_ret
    | |- keeps (mbind _ _) => apply keeps_bind; [|intros []]
    | |- keeps (APP_JUMB _ _ _ _) => apply keeps_APP_JUMB
    | |- keeps (APP_JUMB_BOOL _ _ _) => apply keeps_APP_JUMB_BOOL
    | |- keeps (APP_JUMB_STRING _ _ _) => apply keeps_APP_JUMB_STRING
    | |- keeps (RecordConstLocation _) => apply keeps_RecordConstLocation
    | |- keeps (track_extern_param _ _) => apply keeps_track_extern_param
    | |- keeps (jelog _ _ _) => apply keeps_jelog
    | |- keeps (check_stack_depth _ _) => apply keeps_check_stack_depth
    | |- keeps (JumbleInts _ _ _) => apply keeps_JumbleInts
    | IH : forall depth, keeps (_ depth ?t) |- keeps (_ _ ?t) => apply IH
    end.

Lemma Jumble_walk_keeps :
  (forall node depth,
     keeps (JumbleExpr JUMBLE_SIZE hash_any_extended NodeTag_value stack_has_room
              depth node)) /\
  (forall l depth,
     keeps (JumbleList JUMBLE_SIZE hash_any_extended NodeTag_value stack_has_room
              depth l)) /\
  (forall ws depth,
     keeps (JumbleWhens JUMBLE_SIZE hash_any_extended NodeTag_value stack_has_room
              depth ws)) /\
  (forall q depth,
     keeps (JumbleQuery JUMBLE_SIZE hash_any_extended NodeTag_value stack_has_room
              depth q)) /\
  (forall rt depth,
     keeps (JumbleEntries JUMBLE_SIZE hash_any_extended NodeTag_value stack_has_room
              depth rt)) /\
  (forall rte depth,
     keeps (JumbleEntry JUMBLE_SIZE hash_any_extended NodeTag_value stack_has_room
              depth rte)).
Proof.
  apply tree_mutind; intros;
    cbn [JumbleExpr JumbleList JumbleWhens JumbleQuery JumbleEntries JumbleEntry];
    try (destruct cursor_name);
    keeps_walk.
Qed.

End WalkKeeps.

Lemma constants_recorded_refl (js : pgssJumbleState) : constants_recorded js js.
Proof. split; [|lia]. exists []. by rewrite app_nil_r. Qed.

Lemma constants_recorded_trans (js1 js2 js3 : pgssJumbleState) :
  constants_recorded js1 js2 -> constants_recorded js2 js3 ->
  constants_recorded js1 js3.
Proof.
  intros [(a & Ha & Hpa) Hh1] [(b & Hb & Hpb) Hh2]. split; [|lia].
  exists (a ++ b). split; [by rewrite Hb, Ha, app_assoc|]. by apply Forall_app.
Qed.

(** Whatever the statement and whether the walk returns or raises an error:
    the constant locations that [get_query_id] leaves in the jumble state
    are all known (not negative) and all have length -1, which is what
    [fill_in_constant_lengths] assumes of them, and the highest external
    parameter is not negative. *)
Theorem get_query_id_records_pending_locations (JUMBLE_SIZE : Z)
    (hash_any_extended : list Byte.byte -> Z) (NodeTag_value : NodeTag -> Z)
    (stack_has_room : nat -> bool) (buffer : list Byte.byte) (query : Query) :
  match get_query_id JUMBLE_SIZE hash_any_extended NodeTag_value stack_has_room
          buffer query with
  | JOk _ js _ | JError _ _ js _ =>
      Forall location_pending (clocations js) /\ 0 <= highest_extern_param_id js
  | JFault | JNoFuel => True
  end.
Proof.
  unfold get_query_id.
  pose proof (Jumble_walk_keeps JUMBLE_SIZE hash_any_extended NodeTag_value
                stack_has_room constants_recorded constants_recorded_refl
                constants_recorded_trans) as Hwalk.
  destruct Hwalk as (_ & _ & _ & Hq & _).
  - intros js jumble len. split; [|cbn; lia]. exists []. by rewrite app_nil_r.
  - intros js loc bs Hloc. split; [|cbn; lia].
    exists [mkLocationLen loc (-1)]. split; [done|]. by repeat constructor.
  - intros js id Hid. split; [|cbn; lia]. exists []. by rewrite app_nil_r.
  - specialize (Hq query 0%nat (mkJumbleState buffer 0 [] 32 0) []).
    destruct (JumbleQuery _ _ _ _ _ _ _ _) as [[] js' log'|msg arg js' log'| |];
      try done.
    + destruct Hq as [(added & Hadd & Hp) Hh]. cbn in Hadd, Hh.
      destruct (mem_read _ _ _); [|done]. rewrite Hadd. by split.
    + destruct Hq as [(added & Hadd & Hp) Hh]. cbn in Hadd, Hh. rewrite Hadd. by split.
Qed.

(** ** The jumble as a stream of bytes *)

Section JumbleStream.
Variable JUMBLE_SIZE : Z.
Variable hash_any_extended : list Byte.byte -> Z.
Hypothesis HJS : 8 < JUMBLE_SIZE < 2 ^ 63.

Lemma fold_append_app (acc a b : list Byte.byte) :
  fold_append JUMBLE_SIZE hash_any_extended acc (a ++ b)
  = fold_append JUMBLE_SIZE hash_any_extended
      (fold_append JUMBLE_SIZE hash_any_extended acc a) b.
Proof.
  revert acc. induction a as [|x a IH]; intros acc; cbn [app fold_append]; [done|].
  apply IH.
Qed.

Lemma length_jumble_used (js : pgssJumbleState) :
  jumble_wf JUMBLE_SIZE js -> Z.of_nat (length (jumble_used js)) = jumble_len js.
Proof. intros [Hlen Hused]. unfold jumble_used. rewrite length_take. lia. Qed.

(** The bytes in use depend on the bytes appended, not on how the walk
    cuts them into items: appending two items one after the other leaves the
    bytes in use that appending them as one item leaves. *)
Theorem AppendJumble_in_pieces (a b : list Byte.byte) (js : pgssJumbleState)
    (log : jumble_log) :
  jumble_wf JUMBLE_SIZE js ->
  exists js1 js2 js12,
    AppendJumble JUMBLE_SIZE hash_any_extended a js log = JOk () js1 log /\
    AppendJumble JUMBLE_SIZE hash_any_extended b js1 log = JOk () js2 log /\
    AppendJumble JUMBLE_SIZE hash_any_extended (a ++ b) js log = JOk () js12 log /\
    jumble_used js2 = jumble_used js12 /\
    jumble_len js2 = jumble_len js12.
Proof.
  intros Hwf.
  destruct (AppendJumble_bounded_fold_aux JUMBLE_SIZE hash_any_extended HJS a js log Hwf)
    as (js1 & Hrun1 & Hwf1 & Hused1 & _).
  destruct (AppendJumble_bounded_fold_aux JUMBLE_SIZE hash_any_extended HJS b js1 log Hwf1)
    as (js2 & Hrun2 & Hwf2 & Hused2 & _).
  destruct (AppendJumble_bounded_fold_aux JUMBLE_SIZE hash_any_extended HJS (a ++ b) js
              log Hwf) as (js12 & Hrun12 & Hwf12 & Hused12 & _).
  exists js1, js2, js12. split; [done|]. split; [done|]. split; [done|].
  assert (Heq : jumble_used js2 = jumble_used js12)
    by (by rewrite Hused2, Hused1, Hused12, fold_append_app).
  split; [done|].
  by rewrite <- (length_jumble_used js2), <- (length_jumble_used js12), Heq.
Qed.

(** While the buffer has room, nothing is hashed: an item that fits behind
    the bytes in use is appended to them as it is. *)
Theorem AppendJumble_keeps_bytes_that_fit (item : list Byte.byte)
    (js : pgssJumbleState) (log : jumble_log) :
  jumble_wf JUMBLE_SIZE js ->
  jumble_len js + Z.of_nat (length item) <= JUMBLE_SIZE ->
  exists js',
    AppendJumble JUMBLE_SIZE hash_any_extended item js log = JOk () js' log /\
    jumble_used js' = jumble_used js ++ item /\
    jumble_len js' = jumble_len js + Z.of_nat (length item).
Proof.
  intros Hwf Hfit.
  destruct (AppendJumble_bounded_fold_aux JUMBLE_SIZE hash_any_extended HJS item js log
              Hwf) as (js' & Hrun & Hwf' & Hused & _).
  exists js'. split; [done|].
  pose proof (length_jumble_used js Hwf) as Hlen.
  assert (Heq : jumble_used js' = jumble_used js ++ item).
  { rewrite Hused. rewrite <- (app_nil_r item) at 1.
    rewrite fold_append_chunk by lia. done. }
  split; [done|].
  rewrite <- (length_jumble_used js' Hwf'), Heq, length_app. lia.
Qed.

End JumbleStream.

Lemma AppendJumble_in_pieces_witness :
  exists js1 js2 js12,
    AppendJumble 1024 toy_hash (replicate 1000 Byte.x61) fresh_jumble [] = JOk () js1 [] /\
    AppendJumble 1024 toy_hash (replicate 500 Byte.x62) js1 [] = JOk () js2 [] /\
    AppendJumble 1024 toy_hash (replicate 1000 Byte.x61 ++ replicate 500 Byte.x62)
      fresh_jumble [] = JOk () js12 [] /\
    jumble_used js2 = jumble_used js12 /\
    jumble_len js2 = jumble_len js12.
Proof.
  apply (AppendJumble_in_pieces 1024 toy_hash).
  - lia.
  - exact fresh_jumble_wf.
Defined.

Lemma AppendJumble_keeps_bytes_that_fit_witness :
  exists js',
    AppendJumble 1024 toy_hash (txt "abc") fresh_jumble [] = JOk () js' [] /\
    jumble_used js' = jumble_used fresh_jumble ++ txt "abc" /\
    jumble_len js' = jumble_len fresh_jumble + Z.of_nat (length (txt "abc")).
Proof.
  apply (AppendJumble_keeps_bytes_that_fit 1024 toy_hash).
  - lia.
  - exact fresh_jumble_wf.
  - cbn. lia.
Defined.

(** ** From the record call to the text in the ring *)

Section RecordedText.
Context {D : Type} {DD : Double D} (conf : pgsm_conf D).

Ltac bind_ok H x E :=
  match type of H with
  | mbind _ ?m = Ok _ =>
      destruct m as [x| |] eqn:E; cbn [mbind result_bind] in H; [|discriminate..]
  end.

(** The ring of a bucket is read from [query_fifo] and [pgss_qbuf]. *)
Lemma ring_wf_frame (st st' : state D) b hd recs :
  query_fifo st' = query_fifo st ->
  pgss_qbuf st' = pgss_qbuf st ->
  ring_wf conf st b hd recs -> ring_wf conf st' b hd recs.
Proof. intros Hf Hq. unfold ring_wf. by rewrite Hf, Hq. Qed.

Lemma entry_alloc_ring (st st' : state D) key enc sticky r :
  entry_alloc conf st key enc sticky = Ok (r, st') ->
  query_fifo st' = query_fifo st /\ pgss_qbuf st' = pgss_qbuf st /\
  current_wbucket st' = current_wbucket st.
Proof.
  unfold entry_alloc. intros H. bind_ok H n Hn.
  destruct (_ <=? _).
  { bind_ok H ov Hov. bind_ok H ovs Hovs. by injection H as <- <-. }
  destruct (_ <=? _); [by injection H as <- <-|].
  destruct (pgss_hash st !! key); [by injection H as <- <-|].
  bind_ok H ns Hns. by injection H as <- <-.
Qed.

Lemma resp_incr_ring (cells : list Z) (b : Z) : forall (st st' : state D),
  fold_result (resp_incr b) cells st = Ok st' ->
  query_fifo st' = query_fifo st /\ pgss_qbuf st' = pgss_qbuf st.
Proof.
  induction cells as [|i cells IH]; intros st st' H.
  - cbn in H. by injection H as <-.
  - cbn [fold_result] in H. bind_ok H st1 H1.
    destruct (IH _ _ H) as (-> & ->).
    unfold resp_incr in H1.
    bind_ok H1 be Hbe. bind_ok H1 c Hc. bind_ok H1 cs Hcs. by injection H1 as <-.
Qed.

(** The text of a statement that is recorded is in the ring of its bucket:
    after a record call at execution time for a fingerprint that the ring of
    the current bucket does not hold yet, with the ring well formed and room
    in it for the text, [locate_query] finds the statement's text under the
    fingerprint, provided that the measurement was not dropped. *)
Theorem recorded_statement_text_is_found (fuel : nat) (hst : host)
    (key : pgssHashKey) (reset : bool) (tables_name : list Byte.byte)
    (st st' : state D) (query : list Byte.byte) (kind : bool)
    (total_time : D) (nrows : Z) (bufusage : Blocks D) (utime stime : D)
    (hd : Z) (recs : list (Z * list Byte.byte)) :
  ring_conf_ok conf ->
  key_bucket_id key = current_wbucket st ->
  ring_wf conf st (current_wbucket st) hd recs ->
  0 < key_queryid key < 2 ^ 64 ->
  key_queryid key ∉ recs.*1 ->
  query <> [] ->
  Z.of_nat (length query) <= PGSM_QUERY_MAX_LEN conf ->
  hd + Z.of_nat (length query) + 16 < query_buf_size_bucket conf ->
  (length recs < fuel)%nat ->
  pgss_store_entry conf fuel hst key reset tables_name st query
    (Z.of_nat (length query)) kind total_time nrows bufusage None utime stime = Ok st' ->
  is_Some (pgss_hash st' !! key) ->
  locate_query conf (S fuel) st' (key_bucket_id key) (key_queryid key) true
  = Ok (key_queryid key, Some query).
Proof.
  intros [Hsz Hmax] Hkb Hwf Hid Hfresh Hne Hlen Hfit Hfuel H Hrec.
  unfold pgss_store_entry in H.
  bind_ok H r Hr. destruct r as [[[entry norm_query] qlen] st1].
  assert (Hst1 : query_fifo st1 = query_fifo st /\ pgss_qbuf st1 = pgss_qbuf st /\
                 current_wbucket st1 = current_wbucket st /\
                 norm_query = None /\ qlen = Z.of_nat (length query) /\
                 (entry = None -> pgss_hash st1 !! key = None)).
  { destruct (pgss_hash st !! key) as [e|] eqn:Hk.
    - injection Hr as <- <- <- <-. by repeat split.
    - bind_ok Hr ra Ha. destruct ra as [ea sta]. injection Hr as <- <- <- <-.
      destruct (entry_alloc_ring _ _ _ _ _ _ Ha) as (Hf & Hq & Hc).
      destruct (entry_alloc_tables _ _ _ _ _ _ _ Ha) as (_ & _ & _ & Hnone & _).
      repeat split; try done. intros ->. by rewrite Hnone. }
  destruct Hst1 as (Hf1 & Hq1 & Hc1 & -> & -> & Hdrop).
  destruct entry as [entry|]; cycle 1.
  { injection H as <-. rewrite Hdrop in Hrec by done. by destruct Hrec. }
  bind_ok H st2 Hs.
  assert (Hwf1 : ring_wf conf st1 (current_wbucket st1) hd recs).
  { rewrite Hc1. by apply (ring_wf_frame st). }
  assert (Htext : (if PGSM_NORMALIZED_QUERY conf then default query None else query)
                  = query) by (by destruct (PGSM_NORMALIZED_QUERY conf)).
  rewrite Htext in Hs. rewrite uint64_small in Hs by lia.
  assert (Hn : (if uint64 (PGSM_QUERY_MAX_LEN conf) <? Z.of_nat (length query)
                then uint64 (PGSM_QUERY_MAX_LEN conf)
                else Z.of_nat (length query)) = Z.of_nat (length query)).
  { rewrite uint64_small by lia.
    destruct (Z.ltb_spec (PGSM_QUERY_MAX_LEN conf) (Z.of_nat (length query))); [lia|done]. }
  destruct (store_query_fresh conf st1 hd recs fuel (key_queryid key) query
              (Z.of_nat (length query)))
    as (st2' & Hs' & Hc2 & _ & Hwf2); try done.
  { rewrite Hn. destruct query; [done|]. cbn [length]. lia. }
  { by rewrite Hn. }
  rewrite Hs in Hs'. injection Hs' as <-.
  rewrite Hn, Nat2Z.id, firstn_all in Hwf2.
  bind_ok H e He. bind_ok H st3 Hf.
  destruct (update_agg_counters_sets (key_bucket_id entry) (key_queryid key)
              (key_dbid key) AGG_KEY_DATABASE st2) as [a1 Ha1].
  rewrite Ha1 in Hf.
  destruct (update_agg_counters_sets (key_bucket_id entry) (key_queryid key)
              (key_userid key) AGG_KEY_USER (set_pgss_agghash a1 st2)) as [a2 Ha2].
  rewrite Ha2 in Hf.
  destruct (update_agg_counters_sets (key_bucket_id entry) (key_queryid key)
              (pg_get_client_addr hst) AGG_KEY_HOST
              (set_pgss_agghash a2 (set_pgss_agghash a1 st2))) as [a3 Ha3].
  rewrite Ha3 in Hf.
  destruct (resp_incr_ring _ _ _ _ Hf) as [Hf3 Hq3]. cbn in Hf3, Hq3.
  injection H as <-.
  assert (Hwf' : ring_wf conf (set_pgss_hash
                    (<[entry := mkEntry
                         (update_counters conf hst kind total_time nrows bufusage
                            utime stime tables_name
                            (if reset then zero_counters else counters e))
                         (encoding e)]> (pgss_hash st3)) st3)
                   (current_wbucket st1) (hd + Z.of_nat (length query) + 16)
                   (recs ++ [(key_queryid key, query)])).
  { by apply (ring_wf_frame st2). }
  rewrite Hkb, <- Hc1.
  rewrite (locate_query_wf conf _ _ _ _ _ _ _ Hsz Hwf')
    by (rewrite length_app; cbn [length]; lia).
  by rewrite scan_app_fresh.
Qed.

End RecordedText.

Lemma recorded_statement_text_is_found_witness :
  locate_query conf8 6 st_t0 0 7 true = Ok (7, Some (txt "SELECT 1")).
Proof.
  apply (recorded_statement_text_is_found conf8 5 (host_at 0) (mkHashKey 10 5 7 0)
           false [] st_init st_t0 (txt "SELECT 1") true (3 # 2)%Q 1 one_block 0%Q 0%Q
           0 []).
  - split; cbn; lia.
  - done.
  - exists 0, (replicate 64 Byte.x00). cbn.
    repeat split; try done; try lia. apply ring_holds_nil.
  - cbn. lia.
  - apply not_elem_of_nil.
  - done.
  - cbn. lia.
  - cbn. lia.
  - cbn. lia.
  - vm_compute. reflexivity.
  - vm_compute. by eexists.
Defined.

(** ** The fingerprint of statements that differ in their constants *)

Section WalkAlike.
Variable JUMBLE_SIZE : Z.
Variable hash_any_extended : list Byte.byte -> Z.
Variable NodeTag_value : NodeTag -> Z.
Variable stack_has_room : nat -> bool.

Local Abbreviation alike := walk_alike.

Lemma alike_ret : alike (mret ()) (mret ()).
Proof. by intros js1 js2 log Hsame. Qed.

Lemma alike_bind (m1 m2 : J unit) (k1 k2 : unit -> J unit) :
  alike m1 m2 -> (forall u, alike (k1 u) (k2 u)) -> alike (m1 ≫= k1) (m2 ≫= k2).
Proof.
  intros Hm Hk js1 js2 log Hsame. unfold mbind, J_bind.
  specialize (Hm js1 js2 log Hsame).
  destruct (m1 js1 log) as [[] js1' log1| | |], (m2 js2 log) as [[] js2' log2| | |];
    try done.
  destruct Hm as [Hsame' <-]. apply (Hk () js1' js2' log1 Hsame').
Qed.

Lemma alike_AppendJumble item :
  alike (AppendJumble JUMBLE_SIZE hash_any_extended item)
        (AppendJumble JUMBLE_SIZE hash_any_extended item).
Proof.
  intros js1 js2 log (Hj & Hl & Hh). unfold AppendJumble. rewrite Hj, Hl.
  by destruct (AppendJumble_loop _ _ _ _ _ _) as [[jumble len]| |].
Qed.

Lemma alike_APP_JUMB w item :
  alike (APP_JUMB JUMBLE_SIZE hash_any_extended w item)
        (APP_JUMB JUMBLE_SIZE hash_any_extended w item).
Proof. apply alike_AppendJumble. Qed.

Lemma alike_APP_JUMB_BOOL item :
  alike (APP_JUMB_BOOL JUMBLE_SIZE hash_any_extended item)
        (APP_JUMB_BOOL JUMBLE_SIZE hash_any_extended item).
Proof. apply alike_AppendJumble. Qed.

Lemma alike_APP_JUMB_STRING str :
  alike (APP_JUMB_STRING JUMBLE_SIZE hash_any_extended str)
        (APP_JUMB_STRING JUMBLE_SIZE hash_any_extended str).
Proof. apply alike_AppendJumble. Qed.

(** Where a constant is makes no difference to the jumble. *)
Lemma alike_RecordConstLocation loc1 loc2 :
  alike (RecordConstLocation loc1) (RecordConstLocation loc2).
Proof.
  intros js1 js2 log Hsame. unfold RecordConstLocation.
  by destruct (0 <=? loc1), (0 <=? loc2).
Qed.

Lemma alike_track_extern_param kind id :
  alike (track_extern_param kind id) (track_extern_param kind id).
Proof.
  intros js1 js2 log (Hj & Hl & Hh). unfold track_extern_param. rewrite Hh.
  by destruct (_ && _).
Qed.

Lemma alike_jelog lvl msg arg : alike (jelog lvl msg arg) (jelog lvl msg arg).
Proof. intros js1 js2 log Hsame. by destruct lvl. Qed.

Lemma alike_check_stack_depth depth :
  alike (check_stack_depth stack_has_room depth) (check_stack_depth stack_has_room depth).
Proof.
  unfold check_stack_depth. destruct (stack_has_room depth);
    [apply alike_ret|apply alike_jelog].
Qed.

Lemma alike_JumbleInts ints :
  alike (JumbleInts JUMBLE_SIZE hash_any_extended ints)
        (JumbleInts JUMBLE_SIZE hash_any_extended ints).
Proof.
  induction ints as [|i ints IH]; cbn [JumbleInts]; [apply alike_ret|].
  apply alike_bind; [apply alike_APP_JUMB|]. by intros [].
Qed.

Ltac alike_walk :=
  repeat lazymatch goal with
    | |- alike (mret _) (mret _) => apply alike_ret
    | |- alike (mbind _ _) (mbind _ _) => apply alike_bind; [|intros []]
    | |- alike (APP_JUMB _ _ _ _) (APP_JUMB _ _ _ _) => apply alike_APP_JUMB
    | |- alike (APP_JUMB_BOOL _ _ _) (APP_JUMB_BOOL _ _ _) => apply alike_APP_JUMB_BOOL
    | |- alike (APP_JUMB_STRING _ _ _) (APP_JUMB_STRING _ _ _) =>
        apply alike_APP_JUMB_STRING
    | |- alike (RecordConstLocation _) (RecordConstLocation _) =>
        apply alike_RecordConstLocation
    | |- alike (track_extern_param _ _) (track_extern_param _ _) =>
        apply alike_track_extern_param
    | |- alike (jelog _ _ _) (jelog _ _ _) => apply alike_jelog
    | |- alike (check_stack_depth _ _) (check_stack_depth _ _) =>
        apply alike_check_stack_depth
    | |- alike (JumbleInts _ _ _) (JumbleInts _ _ _) => apply alike_JumbleInts
    | IH : forall depth, alike (_ depth ?t) _ |- alike (_ _ ?t) _ => apply IH
    end.

Lemma Jumble_walk_alike :
  (forall node depth,
     alike (JumbleExpr JUMBLE_SIZE hash_any_extended NodeTag_value stack_has_room
              depth node)
           (JumbleExpr JUMBLE_SIZE hash_any_extended NodeTag_value stack_has_room
              depth (strip_node node))) /\
  (forall l depth,
     alike (JumbleList JUMBLE_SIZE hash_any_extended NodeTag_value stack_has_room
              depth l)
           (JumbleList JUMBLE_SIZE hash_any_extended NodeTag_value stack_has_room
              depth (strip_list l))) /\
  (forall ws depth,
     alike (JumbleWhens JUMBLE_SIZE hash_any_extended NodeTag_value stack_has_room
              depth ws)
           (JumbleWhens JUMBLE_SIZE hash_any_extended NodeTag_value stack_has_room
              depth (strip_whens ws))) /\
  (forall q depth,
     alike (JumbleQuery JUMBLE_SIZE hash_any_extended NodeTag_value stack_has_room
              depth q)
           (JumbleQuery JUMBLE_SIZE hash_any_extended NodeTag_value stack_has_room
              depth (strip_query q))) /\
  (forall rt depth,
     alike (JumbleEntries JUMBLE_SIZE hash_any_extended NodeTag_value stack_has_room
              depth rt)
           (JumbleEntries JUMBLE_SIZE hash_any_extended NodeTag_value stack_has_room
              depth (strip_table rt))) /\
  (forall rte depth,
     alike (JumbleEntry JUMBLE_SIZE hash_any_extended NodeTag_value stack_has_room
              depth rte)
           (JumbleEntry JUMBLE_SIZE hash_any_extended NodeTag_value stack_has_room
              depth (strip_rte rte))).
Proof.
  apply tree_mutind;
    cbn [strip_node strip_list strip_whens strip_query strip_table strip_rte
         JumbleExpr JumbleList JumbleWhens JumbleQuery JumbleEntries JumbleEntry
         node_type nodeTag rtekind];
    intros; try (destruct cursor_name);
    alike_walk.
Qed.

Lemma query_fingerprint_strip (buffer : list Byte.byte) (query : Query) :
  query_fingerprint JUMBLE_SIZE hash_any_extended NodeTag_value stack_has_room
    buffer query
  = query_fingerprint JUMBLE_SIZE hash_any_extended NodeTag_value stack_has_room
      buffer (strip_query query).
Proof.
  unfold query_fingerprint, get_query_id.
  destruct Jumble_walk_alike as (_ & _ & _ & Hq & _).
  specialize (Hq query 0%nat (mkJumbleState buffer 0 [] 32 0)
                (mkJumbleState buffer 0 [] 32 0) []).
  destruct (JumbleQuery _ _ _ _ _ query _ _) as [[] js1 log1|m1 a1 js1 log1| |],
    (JumbleQuery _ _ _ _ _ (strip_query query) _ _) as [[] js2 log2|m2 a2 js2 log2| |];
    try done; try (by destruct Hq).
  destruct Hq as [(Hj & Hl & _) _]; [done|]. rewrite Hj, Hl.
  by destruct (mem_read _ _ _).
Qed.

(** Statements that differ in their constants only have the same
    fingerprint: when the trees of two statements are equal but for the
    locations of their constants, [get_query_id] returns the same number for
    both, or for neither. *)
Theorem fingerprint_ignores_constants (buffer : list Byte.byte) (query1 query2 : Query) :
  strip_query query1 = strip_query query2 ->
  query_fingerprint JUMBLE_SIZE hash_any_extended NodeTag_value stack_has_room
    buffer query1
  = query_fingerprint JUMBLE_SIZE hash_any_extended NodeTag_value stack_has_room
      buffer query2.
Proof.
  intros Hstrip.
  by rewrite (query_fingerprint_strip buffer query1), Hstrip,
       <- (query_fingerprint_strip buffer query2).
Qed.

End WalkAlike.

Lemma fingerprint_ignores_constants_witness :
  query_fingerprint 1024 toy_hash toy_tags (fun _ => true) (replicate 1024 Byte.x00)
    (query_of (List (LCons (OpExpr 96 (List (LCons (Var 1 2 0)
                                              (LCons (Const 23 27) LNil)))) LNil)) RNil)
  = query_fingerprint 1024 toy_hash toy_tags (fun _ => true) (replicate 1024 Byte.x00)
      (query_of (List (LCons (OpExpr 96 (List (LCons (Var 1 2 0)
                                                (LCons (Const 23 31) LNil)))) LNil)) RNil).
Proof.
  apply (fingerprint_ignores_constants 1024 toy_hash toy_tags (fun _ => true)).
  reflexivity.
Defined.
